(** * cwrappers: the per-function wrapper analyzer

    A shallow embedding of the wrapper finder of the repository
    ([cwrappers/finder/analysis.py], [wrapper_detection.py],
    [provenance.py], [ast_utils.py], [catalog.py], [compile_commands.py],
    the per-function part of [runner.py] and the aggregation of
    [callgraph.py]) together with the properties of its specification.

    The libclang cursor tree is modelled as a finite tree of records; the
    cursors a call refers to (its definition, its referenced declaration)
    are handles into the translation unit, a finite map from cursor hashes
    to cursors, so that recursive and mutually recursive C functions can be
    represented. *)

From Stdlib Require Import Ascii String.
From stdpp Require Import base decidable option list strings gmap sets sorting pretty.

Local Open Scope string_scope.
Local Open Scope nat_scope.
Local Open Scope list_scope.

(** ** Python helpers *)

Module Py.

(** [str.startswith] *)
Fixpoint startswith (p s : string) : bool :=
  match p, s with
  | EmptyString, _ => true
  | String a p', String b s' => if decide (a = b) then startswith p' s' else false
  | String _ _, EmptyString => false
  end.

(** [s[len(p):]] when [s.startswith(p)] *)
Fixpoint strip_prefix (p s : string) : option string :=
  match p, s with
  | EmptyString, _ => Some s
  | String a p', String b s' => if decide (a = b) then strip_prefix p' s' else None
  | String _ _, EmptyString => None
  end.

Definition str_rev (s : string) : string :=
  string_of_list_ascii (rev (list_ascii_of_string s)).

(** [str.endswith] *)
Definition endswith (p s : string) : bool := startswith (str_rev p) (str_rev s).

(** [x or y] on strings: the empty string is falsy. *)
Definition str_or (x y : string) : string :=
  match x with EmptyString => y | _ => x end.

Definition truthy (s : string) : bool :=
  match s with EmptyString => false | _ => true end.

(** [sep.join(l)] *)
Fixpoint join (sep : string) (l : list string) : string :=
  match l with
  | [] => ""
  | [x] => x
  | x :: rest => x +:+ sep +:+ join sep rest
  end.

(** [repr] of a list of non-negative ints, as an f-string prints it. *)
Definition repr_int_list (l : list nat) : string :=
  "[" +:+ join ", " (map pretty l) +:+ "]".

(** [sorted] on a set of ints. *)
Definition sorted_nat (s : gset nat) : list nat := merge_sort (≤) (elements s).

(** [max(s) if s else 0] *)
Definition max_or_0 (s : gset nat) : nat := max_list (elements s).

(** Insertion into a list ordered by a boolean comparison, and the sort it
    gives; used for [sorted] on a set of strings. *)
Fixpoint insert_by {A} (leb : A → A → bool) (x : A) (l : list A) : list A :=
  match l with
  | [] => [x]
  | y :: r => if leb x y then x :: l else y :: insert_by leb x r
  end.

Definition sort_by {A} (leb : A → A → bool) (l : list A) : list A :=
  foldr (insert_by leb) [] l.

Definition sorted_str (s : gset string) : list string :=
  sort_by String.leb (elements s).

(** White space removed by [str.strip()] (ASCII). *)
Definition is_space (c : ascii) : bool :=
  let n := nat_of_ascii c in
  (n =? 32) || ((9 <=? n) && (n <=? 13)) || ((28 <=? n) && (n <=? 31)).

Fixpoint lstrip (s : string) : string :=
  match s with
  | String c r => if is_space c then lstrip r else s
  | EmptyString => EmptyString
  end.

Definition strip (s : string) : string := str_rev (lstrip (str_rev (lstrip s))).

(** ASCII lower-casing, [str.lower()]. *)
Definition lower_ascii (c : ascii) : ascii :=
  let n := nat_of_ascii c in
  if (65 <=? n) && (n <=? 90) then ascii_of_nat (n + 32) else c.

Fixpoint lower (s : string) : string :=
  match s with
  | String c r => String (lower_ascii c) (lower r)
  | EmptyString => EmptyString
  end.

(** The class [\w] of the [re] module on ASCII text: letters, digits and
    the underscore. On a [str] the class has the word characters of Unicode
    as well; the token texts are taken to be ASCII, as the identifiers of C
    are. *)
Definition is_word (c : ascii) : bool :=
  let n := nat_of_ascii c in
  ((48 <=? n) && (n <=? 57)) || ((65 <=? n) && (n <=? 90))
  || ((97 <=? n) && (n <=? 122)) || (n =? 95).

End Py.

(** ** The cursor tree (libclang, as the analyzer reads it) *)

Inductive CursorKind :=
  | FUNCTION_DECL | FUNCTION_TEMPLATE | PARM_DECL | VAR_DECL
  | DECL_STMT | COMPOUND_STMT | IF_STMT | SWITCH_STMT | CASE_STMT
  | DEFAULT_STMT | CONDITIONAL_OPERATOR | FOR_STMT | WHILE_STMT | DO_STMT
  | BREAK_STMT | CONTINUE_STMT | RETURN_STMT | CALL_EXPR
  | BINARY_OPERATOR | UNARY_OPERATOR | MEMBER_REF_EXPR
  | ARRAY_SUBSCRIPT_EXPR | DECL_REF_EXPR | PAREN_EXPR | CSTYLE_CAST_EXPR
  | UNEXPOSED_EXPR | INTEGER_LITERAL | STRING_LITERAL | NULL_STMT.

#[global] Instance CursorKind_eq_dec : EqDecision CursorKind.
Proof. solve_decision. Defined.

Record SourceLocation := mkLoc {
  file : option string;
  line : nat;
  column : nat }.

#[local] Set Warnings "-register-all,-clear-no-such-hyp".

(** A cursor. [definition], [referenced] and [canonical] hold the hash of
    the cursor that [get_definition()], [.referenced] and [.canonical]
    return ([None] for the null cursor); [tokens] are the spellings of
    [get_tokens()], [evaluated] is [str(evaluate().value)] when the
    expression evaluates, [result_type] is [result_type.spelling]. *)
Inductive Cursor := mkCursor {
  kind : CursorKind;
  spelling : string;
  displayname : string;
  hash : N;
  location : option SourceLocation;
  definition : option N;
  referenced : option N;
  canonical : option N;
  tokens : list string;
  evaluated : option string;
  result_type : string;
  get_children : list Cursor }.

(** Induction over the tree, with the hypothesis for every child. *)
Section cursor_ind.

Variable P : Cursor → Prop.
Hypothesis step : ∀ c, Forall P (get_children c) → P c.

Fixpoint Cursor_nested_ind (c : Cursor) : P c :=
  step c
    (match c as c0 return Forall P (get_children c0) with
     | mkCursor _ _ _ _ _ _ _ _ _ _ _ kids =>
         (fix all (l : list Cursor) : Forall P l :=
            match l with
            | [] => Forall_nil_2 P
            | x :: r => Forall_cons_2 P x r (Cursor_nested_ind x) (all r)
            end) kids
     end).

End cursor_ind.

(** ** catalog.py *)

(** A compiled pattern is represented by its [search] test. *)
Record HelperConfig := mkHelperConfig {
  benign : gset string;
  benign_regex : list (string → bool);
  helpers : gset string;
  helpers_regex : list (string → bool) }.

Inductive HelperFamily := which_benign | which_helpers.

Definition any_match (self : HelperConfig) (name : string) (which : HelperFamily) : bool :=
  match which with
  | which_benign =>
      if decide (name ∈ benign self) then true
      else existsb (λ r, r name) (benign_regex self)
  | which_helpers =>
      if decide (name ∈ helpers self) then true
      else existsb (λ r, r name) (helpers_regex self)
  end.

Record ApiCatalog := mkApiCatalog {
  libc : gset string;
  syscalls : gset string;
  target_names : gset string;
  cat_helpers : HelperConfig;
  thin_aliases : gset string;
  name_to_category : gmap string string }.

Definition category_of (self : ApiCatalog) (name : string) : string :=
  match name_to_category self !! name with
  | Some cat => if Py.truthy cat then cat
                else if decide (name ∈ libc self) then "libc"
                else if decide (name ∈ syscalls self) then "system_calls"
                else "unknown"
  | None => if decide (name ∈ libc self) then "libc"
            else if decide (name ∈ syscalls self) then "system_calls"
            else "unknown"
  end.

(** ** ast_utils.py and analysis.py *)

Section Analysis.

(** The translation unit the cursors belong to. *)
Context (tu : gmap N Cursor).

Definition deref (h : option N) : option Cursor := h ≫= (tu !!.).

(** [call.get_definition() or call.referenced] *)
Definition def_or_ref (call : Cursor) : option Cursor :=
  match deref (definition call) with
  | Some d => Some d
  | None => deref (referenced call)
  end.

Definition _callee_name (call : Cursor) : string :=
  match def_or_ref call with
  | None => Py.str_or (spelling call) (displayname call)
  | Some ref => Py.str_or (spelling ref) (displayname ref)
  end.

Definition _callee_definition (call : Cursor) : option Cursor :=
  match def_or_ref call with
  | Some ref =>
      if decide (kind ref = FUNCTION_DECL ∨ kind ref = FUNCTION_TEMPLATE)
      then Some ref else None
  | None => None
  end.

Definition _function_body_cursor (fn : Cursor) : option Cursor :=
  find (λ ch, bool_decide (kind ch = COMPOUND_STMT)) (get_children fn).

Definition is_helper_call (call : Cursor) (helpers : HelperConfig)
    (kind : HelperFamily) : bool :=
  any_match helpers (_callee_name call) kind.

(** Some direct child of the body is a call whose name is a target; the
    name of the first such call. *)
Definition first_direct_target (body : Cursor) (target_names : gset string)
    : option string :=
  find (λ nm, bool_decide (nm ∈ target_names))
       (map _callee_name
            (filter (λ ch, kind ch = CALL_EXPR) (get_children body))).

Definition _call_hits_target_via_one_hop (call : Cursor)
    (target_names : gset string) : bool :=
  match _callee_definition call with
  | None => false
  | Some callee =>
      match _function_body_cursor callee with
      | None => false
      | Some body =>
          existsb (λ ch, bool_decide (kind ch = CALL_EXPR)
                         && bool_decide (_callee_name ch ∈ target_names))
                  (get_children body)
      end
  end.

Definition _is_small_function (fn : Cursor) (max_stmts : nat) : bool :=
  match _function_body_cursor fn with
  | None => false
  | Some body =>
      length (filter (λ c, kind c ≠ DECL_STMT) (get_children body)) <=? max_stmts
  end.

(** The bounded depth-first search. [seen] is one set shared by the whole
    search (the Python set is mutated in place), so it is threaded through
    the calls and returned. *)
Fixpoint n_hops (max_hops : nat) (call : Cursor) (target_names : gset string)
    (seen : gset N) : bool * gset N :=
  match max_hops with
  | 0 => (false, seen)
  | S hops' =>
      match _callee_definition call with
      | None => (false, seen)
      | Some callee =>
          if negb (_is_small_function callee 6) then (false, seen)
          else
            let hid := hash callee in
            if decide (hid ∈ seen) then (false, seen)
            else
              let seen := {[hid]} ∪ seen in
              match _function_body_cursor callee with
              | None => (false, seen)
              | Some body =>
                  (fix each (chs : list Cursor) (seen : gset N) : bool * gset N :=
                     match chs with
                     | [] => (false, seen)
                     | ch :: rest =>
                         if decide (kind ch = CALL_EXPR) then
                           if decide (_callee_name ch ∈ target_names) then (true, seen)
                           else
                             let '(hit, seen) := n_hops hops' ch target_names seen in
                             if hit then (true, seen) else each rest seen
                         else each rest seen
                     end) (get_children body) seen
              end
      end
  end.

(** [_call_hits_target_via_n_hops(call, targets, max_hops)] with a fresh
    [seen] set. *)
Definition _call_hits_target_via_n_hops (call : Cursor)
    (target_names : gset string) (max_hops : nat) : bool :=
  fst (n_hops max_hops call target_names ∅).

(** The table of atomic pairs, kept under the family [""]: five ordered
    pairs and two unordered ones. *)
Definition _ATOMIC_PAIRS_ordered : list (string * string) :=
  [("open", "close"); ("fopen", "fclose"); ("socket", "close");
   ("malloc", "free"); ("calloc", "free")].

Definition _ATOMIC_PAIRS_unordered : list (gset string) :=
  [ {["pthread_mutex_lock"; "pthread_mutex_unlock"]};
    {["pthread_rwlock_rdlock"; "pthread_rwlock_unlock"]} ].

Definition is_atomic_pair (api_names : list string) (family : string) : bool :=
  match api_names with
  | [a; b] =>
      if Py.truthy family then false
      else bool_decide ((a, b) ∈ _ATOMIC_PAIRS_ordered)
           || bool_decide ((b, a) ∈ _ATOMIC_PAIRS_ordered)
           || bool_decide (({[a; b]} : gset string) ∈ _ATOMIC_PAIRS_unordered)
  | _ => false
  end.

(** [branch_has_immediate_return] of [has_early_guard_return]: it looks at
    the children of the branch node. *)
Definition branch_has_immediate_return (node : option Cursor) : bool :=
  match node with
  | None => false
  | Some node =>
      existsb
        (λ ch,
           bool_decide (kind ch = RETURN_STMT)
           || (bool_decide (kind ch = COMPOUND_STMT)
               && match filter (λ cc, kind cc ≠ DECL_STMT) (get_children ch) with
                  | first :: _ => bool_decide (kind first = RETURN_STMT)
                  | [] => false
                  end))
        (get_children node)
  end.

(** The statements left after the prefix of helper calls: the [while] loop
    on [i]. *)
Fixpoint skip_helper_calls (helpers : HelperConfig) (stmts : list Cursor)
    : list Cursor :=
  match stmts with
  | s :: rest =>
      if bool_decide (kind s = CALL_EXPR) && is_helper_call s helpers which_helpers
      then skip_helper_calls helpers rest
      else stmts
  | [] => []
  end.

Definition has_early_guard_return (func_cursor : Cursor) (helpers : HelperConfig)
    : bool :=
  match _function_body_cursor func_cursor with
  | None => false
  | Some body =>
      let stmts := filter (λ c, kind c ≠ DECL_STMT) (get_children body) in
      match skip_helper_calls helpers stmts with
      | [] => false
      | s :: _ =>
          if decide (kind s ≠ IF_STMT) then false
          else
            let kids := get_children s in
            let then_node := kids !! 1 in
            let else_node := kids !! 2 in
            branch_has_immediate_return then_node
            || branch_has_immediate_return else_node
      end
  end.

(** [re.search(r"(?:SYS|__NR)_(\w+)", txt)]: the group of the leftmost
    match, the longest run of word characters after the prefix. *)
Fixpoint take_word (s : string) : string :=
  match s with
  | String c r => if Py.is_word c then String c (take_word r) else EmptyString
  | EmptyString => EmptyString
  end.

Definition match_sys_here (s : string) : option string :=
  let after p :=
    match Py.strip_prefix p s with
    | Some r => let w := take_word r in if Py.truthy w then Some w else None
    | None => None
    end in
  match after "SYS_" with
  | Some w => Some w
  | None => after "__NR_"
  end.

Fixpoint search_sys (txt : string) : option string :=
  match match_sys_here txt with
  | Some w => Some w
  | None =>
      match txt with
      | String _ r => search_sys r
      | EmptyString => None
      end
  end.

(** The module-level table from syscall numbers to names; the repository
    never fills it. *)
Definition SYSNR_TO_NAME : gmap string string := ∅.

Definition resolve_syscall_indirection (call : Cursor) : option string :=
  if decide (_callee_name call ≠ "syscall") then None
  else
    match get_children call with
    | _ :: selector :: _ =>
        let txt := Py.join "" (tokens selector) in
        match search_sys txt with
        | Some m => Some m
        | None =>
            match evaluated selector with
            | Some num => if Py.truthy num then SYSNR_TO_NAME !! num else None
            | None => None
            end
        end
    | _ => None
    end.

(** [mapped and mapped in target_names] *)
Definition mapped_in (mapped : option string) (target_names : gset string) : bool :=
  match mapped with
  | Some m => Py.truthy m && bool_decide (m ∈ target_names)
  | None => false
  end.

Definition _inner_target_from_one_hop (call_cursor : Cursor)
    (target_names : gset string) : option string :=
  match _callee_definition call_cursor with
  | None => None
  | Some defn =>
      match _function_body_cursor defn with
      | None => None
      | Some body => first_direct_target body target_names
      end
  end.

Definition _resolve_target_name_for_call (call : Cursor) (catalog : ApiCatalog)
    : option string :=
  let targets := target_names catalog in
  let nm := _callee_name call in
  if decide (nm ∈ targets) then Some nm
  else
    let mapped := resolve_syscall_indirection call in
    if mapped_in mapped targets then mapped
    else if _call_hits_target_via_one_hop call targets
            || _call_hits_target_via_n_hops call targets 2
    then
      match _inner_target_from_one_hop call targets with
      | Some inner =>
          if Py.truthy inner && bool_decide (inner ∈ targets) then Some inner else None
      | None => None
      end
    else None.

(** *** Per-expression counting *)

Fixpoint count_calls_in_expr (node : Cursor) (target_names : gset string)
    (helpers : HelperConfig) (max_helper_hops : nat) {struct node} : nat :=
  foldl
    (λ cnt ch,
       let cnt :=
         if decide (kind ch = CALL_EXPR) then
           if is_helper_call ch helpers which_benign then cnt
           else if decide (_callee_name ch ∈ target_names) then cnt + 1
           else if mapped_in (resolve_syscall_indirection ch) target_names then cnt + 1
           else if _call_hits_target_via_one_hop ch target_names
                   || ((1 <? max_helper_hops)
                       && _call_hits_target_via_n_hops ch target_names max_helper_hops)
           then cnt + 1 else cnt
         else cnt in
       cnt + count_calls_in_expr ch target_names helpers max_helper_hops)
    0 (get_children node).

(** *** Lightweight path summary *)

Record PathResult := mkPathResult {
  counts : gset nat;
  unknown : bool }.

Definition _merge_pr (a b : PathResult) : PathResult :=
  mkPathResult (counts a ∪ counts b) (unknown a || unknown b).

(** [cap_union] of [analyze_stmt]; [sumset or {0}] guards the empty set. *)
Definition cap_union (sumset : gset nat) (val : nat) : gset nat :=
  set_map (λ s, let k := s + val in if k <=? 2 then k else 2)
          (if decide (sumset = ∅) then {[0]} else sumset).

Definition is_loop_kind (k : CursorKind) : bool :=
  bool_decide (k = FOR_STMT ∨ k = WHILE_STMT ∨ k = DO_STMT).

Fixpoint analyze_stmt (stmt : Cursor) (target_names : gset string)
    (helpers : HelperConfig) (max_helper_hops : nat) {struct stmt} : PathResult :=
  let k := kind stmt in
  if decide (k = RETURN_STMT) then
    let cnt :=
      foldl (λ cnt ch, cnt + count_calls_in_expr ch target_names helpers max_helper_hops)
            0 (get_children stmt) in
    mkPathResult {[ if cnt <=? 2 then cnt else 2 ]} false
  else if decide (k = CALL_EXPR) then
    if is_helper_call stmt helpers which_benign then mkPathResult {[0]} false
    else
      let val :=
        if decide (_callee_name stmt ∈ target_names) then 1
        else if mapped_in (resolve_syscall_indirection stmt) target_names then 1
        else if _call_hits_target_via_one_hop stmt target_names
                || ((1 <? max_helper_hops)
                    && _call_hits_target_via_n_hops stmt target_names max_helper_hops)
        then 1 else 0 in
      mkPathResult {[val]} false
  else if decide (k = IF_STMT) then
    let pr_then :=
      match get_children stmt with
      | _ :: then_branch :: _ => analyze_stmt then_branch target_names helpers max_helper_hops
      | _ => mkPathResult {[0]} false
      end in
    let pr_else :=
      match get_children stmt with
      | _ :: _ :: else_branch :: _ => analyze_stmt else_branch target_names helpers max_helper_hops
      | _ => mkPathResult {[0]} false
      end in
    mkPathResult (counts pr_then ∪ counts pr_else) (unknown pr_then || unknown pr_else)
  else if decide (k = SWITCH_STMT) then
    let acc_pr :=
      foldl
        (λ acc_pr ch,
           if decide (kind ch = CASE_STMT ∨ kind ch = DEFAULT_STMT) then
             let prb :=
               match get_children ch with
               | _ :: body :: _ => analyze_stmt body target_names helpers max_helper_hops
               | _ => mkPathResult {[0]} false
               end in
             _merge_pr acc_pr prb
           else acc_pr)
        (mkPathResult ∅ false) (get_children stmt) in
    if decide (counts acc_pr = ∅) then mkPathResult {[0]} (unknown acc_pr) else acc_pr
  else if decide (k = CONDITIONAL_OPERATOR) then
    let pr_then :=
      match get_children stmt with
      | _ :: then_node :: _ => analyze_stmt then_node target_names helpers max_helper_hops
      | _ => mkPathResult {[0]} false
      end in
    let pr_else :=
      match get_children stmt with
      | _ :: _ :: else_node :: _ => analyze_stmt else_node target_names helpers max_helper_hops
      | _ => mkPathResult {[0]} false
      end in
    _merge_pr pr_then pr_else
  else if is_loop_kind k then
    (* [body] ends as the last COMPOUND_STMT child. The loop over the
       children carries the summary of the candidate body rather than the
       cursor; the summary is the one of [analyze_stmt(body, target_names,
       helpers)], a call that leaves the hop bound to its default 1. *)
    let pr_body :=
      foldl (λ body ch,
               if decide (kind ch = COMPOUND_STMT)
               then Some (analyze_stmt ch target_names helpers 1)
               else body)
            None (get_children stmt) in
    match pr_body with
    | None => mkPathResult {[2]} true
    | Some pr_body =>
        if bool_decide (set_Exists (λ x, 2 ≤ x) (counts pr_body))
        then mkPathResult {[2]} true
        else mkPathResult (counts pr_body ∪ {[0; 1]}) (unknown pr_body)
    end
  else if decide (k = COMPOUND_STMT) then
    let '(acc, unknown_) :=
      foldl (λ '(acc, unknown_) ch,
               let child := analyze_stmt ch target_names helpers max_helper_hops in
               (set_bind (cap_union acc) (counts child), unknown_ || unknown child))
            ({[0]}, false) (get_children stmt) in
    mkPathResult acc unknown_
  else
    foldl (λ acc_pr ch,
             _merge_pr acc_pr (analyze_stmt ch target_names helpers max_helper_hops))
          (mkPathResult {[0]} false) (get_children stmt).

(** *** Target call site collection *)

(** ["{loc.line}:{loc.column}"] *)
Definition line_col (loc : SourceLocation) : string :=
  pretty (line loc) +:+ ":" +:+ pretty (column loc).

Fixpoint collect_target_calls (fn : Cursor) (target_names : gset string)
    {struct fn} : list (Cursor * string) :=
  let here :=
    if decide (kind fn = CALL_EXPR) then
      let entry := (fn, match location fn with
                        | Some loc => line_col loc
                        | None => "?"
                        end) in
      if decide (_callee_name fn ∈ target_names) then [entry]
      else if mapped_in (resolve_syscall_indirection fn) target_names then [entry]
      else if _call_hits_target_via_one_hop fn target_names
              || _call_hits_target_via_n_hops fn target_names 2
      then [entry] else []
    else [] in
  foldl (λ hits ch, hits ++ collect_target_calls ch target_names)
        here (get_children fn).

(** ** provenance.py: the taint analysis *)

Record TaintState := mkTaintState {
  taint : gmap string (list string);
  ret_tainted : bool;
  ret_trace : list string }.

Definition mark (self : TaintState) (key why : string) : TaintState :=
  mkTaintState (<[key := default [] (taint self !! key) ++ [why]]> (taint self))
               (ret_tainted self) (ret_trace self).

Definition is_tainted (self : TaintState) (key : string) : bool :=
  bool_decide (is_Some (taint self !! key)).

Definition trace (self : TaintState) (key : string) : list string :=
  default [] (taint self !! key).

Definition _is_param (c : Cursor) : bool := bool_decide (kind c = PARM_DECL).

(** ["{base.spelling}@{base.hash}"] *)
Definition _var_key (c : Cursor) : string :=
  let base :=
    match (if decide (kind c = DECL_REF_EXPR) then deref (referenced c) else None) with
    | Some r => r
    | None => default c (deref (canonical c))
    end in
  spelling base +:+ "@" +:+ pretty (hash base).

Fixpoint taint_expr (expr : Cursor) (state : TaintState) (helpers : HelperConfig)
    {struct expr} : bool * list string :=
  let k := kind expr in
  if decide (k = DECL_REF_EXPR) then
    let key := _var_key expr in
    if is_tainted state key then (true, trace state key) else (false, [])
  else if decide (k = CALL_EXPR) then
    if is_helper_call expr helpers which_benign then (false, []) else (false, [])
  else
    (fix each (chs : list Cursor) : bool * list string :=
       match chs with
       | [] => (false, [])
       | ch :: rest =>
           let '(t, tr) := taint_expr ch state helpers in
           if t then (true, tr) else each rest
       end) (get_children expr).

Definition mark_all (state : TaintState) (key : string) (reasons : list string)
    : TaintState :=
  foldl (λ st reason, mark st key reason) state reasons.

Fixpoint taint_stmt (stmt : Cursor) (state : TaintState) (helpers : HelperConfig)
    {struct stmt} : TaintState :=
  let k := kind stmt in
  if decide (k = VAR_DECL) then
    let lhs := _var_key stmt in
    foldl (λ st child,
             let '(t, tr) := taint_expr child st helpers in
             if t then mark_all st lhs tr else st)
          state (get_children stmt)
  else if decide (k = BINARY_OPERATOR) then
    match get_children stmt with
    | [lhs; rhs] =>
        if decide (kind lhs = DECL_REF_EXPR) then
          let key := _var_key lhs in
          let '(t, tr) := taint_expr rhs state helpers in
          if t then mark_all state key tr else state
        else state
    | _ => state
    end
  else if decide (k = RETURN_STMT) then
    foldl (λ st ch,
             let '(t, tr) := taint_expr ch st helpers in
             if t then mkTaintState (taint st) true (ret_trace st ++ tr) else st)
          state (get_children stmt)
  else
    (* DECL_STMT and every other kind: the children, in order *)
    foldl (λ state ch, taint_stmt ch state helpers) state (get_children stmt).

Definition extract_call_args (call : Cursor) : list Cursor :=
  match get_children call with
  | [] => []
  | _ :: args => args
  end.

(** One line of the trace: ["arg<i>:tainted [r1 ; r2]"]. *)
Definition arg_line (i : nat) (t : bool) (tr : list string) : string :=
  "arg" +:+ pretty i +:+ ":" +:+ (if t then "tainted" else "clean")
  +:+ match tr with
      | [] => ""
      | _ => " [" +:+ Py.join " ; " tr +:+ "]"
      end.

Definition check_arguments_provenance (func : Cursor) (calls : list Cursor)
    (helpers : HelperConfig) : bool * list string :=
  let state :=
    foldl (λ st ch,
             if _is_param ch then mark st (_var_key ch) (spelling ch +:+ " is param")
             else st)
          (mkTaintState ∅ false []) (get_children func) in
  match _function_body_cursor func with
  | None => (false, ["no-body"])
  | Some body =>
      let state := taint_stmt body state helpers in
      foldl (λ '(ok, trace_out) call,
               foldl (λ '(ok, trace_out) '(i, arg),
                        let '(t, tr) := taint_expr arg state helpers in
                        (ok && t, trace_out ++ [arg_line i t tr]))
                     (ok, trace_out) (imap pair (extract_call_args call)))
            (true, []) calls
  end.

(** ** wrapper_detection.py *)

(** The tuple both analyzers return. *)
Record Verdict := mkVerdict {
  keep : bool;
  per_path_single : bool;
  total_hits : nat;
  reason : string;
  hit_locs : list string;
  api_name : option string;
  derived_from_params : bool;
  derivation_trace : list string;
  pair_used : bool;
  via_helper_hop : bool;
  ignored_helpers : list string }.

(** The variables [walk_calls] updates: [via_helper_hop] (declared
    [nonlocal]) and the three collections it mutates in place. Its
    assignment to [via_hop_depth_ge2] binds a local of [walk_calls], so the
    variable of the enclosing function keeps its initial [False]. *)
Record WalkState := mkWalkState {
  w_via_helper_hop : bool;
  w_ignored_helpers : gset string;
  w_hit_locs : list string;
  w_apis : list string }.

(** [if loc and loc.file: hit_locs.append(...)] *)
Definition append_hit (ch : Cursor) (hit_locs : list string) : list string :=
  match location ch with
  | Some loc => if file loc is Some _ then hit_locs ++ [line_col loc] else hit_locs
  | None => hit_locs
  end.

(** [if inner and inner in targets: apis.append(inner)] *)
Definition append_inner (inner : option string) (targets : gset string)
    (apis : list string) : list string :=
  match inner with
  | Some nm => if Py.truthy nm && bool_decide (nm ∈ targets) then apis ++ [nm] else apis
  | None => apis
  end.

(** What [walk_calls] does with one child that is a call. *)
Definition walk_visit (targets : gset string) (helpers : HelperConfig)
    (ch : Cursor) (st : WalkState) : WalkState :=
  if is_helper_call ch helpers which_helpers then
    let nm := Py.str_or (_callee_name ch) "<anon>" in
    mkWalkState (w_via_helper_hop st) ({[nm]} ∪ w_ignored_helpers st)
                (w_hit_locs st) (w_apis st)
  else
    let nm := _callee_name ch in
    if decide (nm ∈ targets) then
      mkWalkState (w_via_helper_hop st) (w_ignored_helpers st)
                  (append_hit ch (w_hit_locs st)) (w_apis st ++ [nm])
    else
      let mapped := resolve_syscall_indirection ch in
      if mapped_in mapped targets then
        mkWalkState (w_via_helper_hop st) (w_ignored_helpers st)
                    (append_hit ch (w_hit_locs st))
                    (w_apis st ++ [default "" mapped])
      else if _call_hits_target_via_one_hop ch targets then
        mkWalkState true (w_ignored_helpers st)
                    (append_hit ch (w_hit_locs st))
                    (append_inner (_inner_target_from_one_hop ch targets) targets (w_apis st))
      else if _call_hits_target_via_n_hops ch targets 2 then
        mkWalkState true (w_ignored_helpers st)
                    (append_hit ch (w_hit_locs st))
                    (append_inner (_inner_target_from_one_hop ch targets) targets (w_apis st))
      else st.

Fixpoint walk_calls (targets : gset string) (helpers : HelperConfig)
    (n : Cursor) (st : WalkState) {struct n} : WalkState :=
  foldl (λ st ch,
           let st := if decide (kind ch = CALL_EXPR)
                     then walk_visit targets helpers ch st else st in
           walk_calls targets helpers ch st)
        st (get_children n).

Definition reject (reason : string) : Verdict :=
  mkVerdict false false 0 reason [] None false [] false false [].

Definition analyze_wrapper_strict_plus (func_cursor : Cursor) (catalog : ApiCatalog)
    (thin_policy : string) : Verdict :=
  let targets := target_names catalog in
  let helpers := cat_helpers catalog in
  match _function_body_cursor func_cursor with
  | None => reject "no-body"
  | Some body =>
      let pr := analyze_stmt body targets helpers 2 in
      if unknown pr then reject "unknown-control-flow"
      else
        let counts := counts pr in
        let max_pos := Py.max_or_0 counts in
        let guard_ok := bool_decide (0 ∈ counts)
                        && has_early_guard_return func_cursor (cat_helpers catalog) in
        if bool_decide (0 ∈ counts) && negb guard_ok then
          reject ("path-counts=" +:+ Py.repr_int_list (Py.sorted_nat counts))
        else
          let via_hop_depth_ge2 := false in
          let st := walk_calls targets helpers body (mkWalkState false ∅ [] []) in
          let via_helper_hop := w_via_helper_hop st in
          let ignored_helpers := Py.sorted_str (w_ignored_helpers st) in
          let hit_locs := w_hit_locs st in
          let apis := w_apis st in
          let total_hits := length hit_locs in
          if decide (total_hits = 0) then
            mkVerdict false false 0 "no-calls" [] None false [] false
                      via_helper_hop ignored_helpers
          else
            let first_api := head apis in
            let thin_reject : option string :=
              match first_api with
              | Some first_api =>
                  if Py.truthy first_api && bool_decide (first_api ∈ thin_aliases catalog) then
                    let pol := Py.str_or thin_policy "default" in
                    if bool_decide (pol = "default" ∨ pol = "direct-only") then
                      if via_helper_hop then Some "reject: thin-alias-via-helper" else None
                    else if decide (pol = "allow-1-hop") then
                      if via_hop_depth_ge2 then Some "reject: thin-alias-hop-depth>=2" else None
                    else None
                  else None
              | None => None
              end in
            match thin_reject with
            | Some why =>
                mkVerdict false false total_hits why hit_locs first_api false []
                          false via_helper_hop ignored_helpers
            | None =>
                if (2 <=? max_pos)
                   && negb (bool_decide (total_hits = 2) && is_atomic_pair apis "")
                then
                  mkVerdict false false total_hits "reject: multi-call-per-path" hit_locs
                            first_api false [] false via_helper_hop ignored_helpers
                else
                  let pair_used := 2 <=? max_pos in
                  let counted_sites := map fst (collect_target_calls func_cursor targets) in
                  let '(derived_ok, derivation_trace) :=
                    check_arguments_provenance func_cursor counted_sites helpers in
                  let reason :=
                    "ok" +:+ (if guard_ok then "+ok-guard" else "")
                         +:+ (if via_helper_hop then "+via-hop" else "")
                         +:+ (if pair_used then "+atomic-pair" else "") in
                  mkVerdict true true total_hits reason hit_locs first_api derived_ok
                            derivation_trace pair_used via_helper_hop ignored_helpers
            end
  end.

(** The calls of [collect_target_calls] that resolve to a (non-empty)
    target name, with the name and the location string: the loop both the
    relaxed analyzer and the runner's mode [all] run. *)
Definition resolved_hits (fn : Cursor) (catalog : ApiCatalog)
    : list (string * string) :=
  omap (λ '(call, loc),
          match _resolve_target_name_for_call call catalog with
          | Some nm => if Py.truthy nm then Some (nm, loc) else None
          | None => None
          end)
       (collect_target_calls fn (target_names catalog)).

Definition analyze_wrapper_relaxed (func_cursor : Cursor) (catalog : ApiCatalog)
    : Verdict :=
  let targets := target_names catalog in
  let helpers := cat_helpers catalog in
  match _function_body_cursor func_cursor with
  | None => reject "no-body"
  | Some body =>
      let pr := analyze_stmt body targets helpers 2 in
      let keep := bool_decide (set_Exists (λ c, 0 < c) (counts pr)) in
      if negb keep then
        reject ("path-counts=" +:+ Py.repr_int_list (Py.sorted_nat (counts pr)))
      else
        let hits := resolved_hits func_cursor catalog in
        let apis := map fst hits in
        let hit_locs := map snd hits in
        let total_hits := length apis in
        if decide (total_hits = 0) then reject "no-calls"
        else
          let api_name := head apis in
          let per_path_single := bool_decide (counts pr ⊆ {[0; 1]}) in
          mkVerdict true per_path_single total_hits "ok" hit_locs api_name
                    true [] false false []
  end.

(** ** provenance.py: argument and return pass-through *)

Definition _gather_params (fn : Cursor) : list Cursor :=
  filter (λ ch, _is_param ch = true) (get_children fn).

Definition _cursor_loc_key (c : Cursor) : option (string * nat * nat) :=
  match location c with
  | Some loc =>
      match file loc with
      | Some name => Some (name, line loc, column loc)
      | None => None
      end
  | None => None
  end.

Definition is_noop_kind (k : CursorKind) : bool :=
  bool_decide (k = PAREN_EXPR ∨ k = CSTYLE_CAST_EXPR ∨ k = UNEXPOSED_EXPR).

(** [_strip_noop]: while the node is a paren, a cast or an unexposed node
    with children, go to its last child ([kids[-1]]). *)
Fixpoint _strip_noop (n : Cursor) {struct n} : Cursor :=
  if is_noop_kind (kind n) then
    (fix last_kid (kids : list Cursor) : Cursor :=
       match kids with
       | [] => n
       | [x] => _strip_noop x
       | _ :: rest => last_kid rest
       end) (get_children n)
  else n.

(** The nodes a work list [stack = [n]; pop; push the children] pops, in
    the order it pops them. *)
Fixpoint popped (n : Cursor) {struct n} : list Cursor :=
  n :: (fix each (chs : list Cursor) : list Cursor :=
          match chs with
          | [] => []
          | ch :: rest => each rest ++ popped ch
          end) (get_children n).

(** The children the chain walk of [_is_direct_param_ref] looks at when it
    is not stopped, in the order it looks at them. *)
Definition chain_children (inner : Cursor) : list Cursor :=
  flat_map get_children (popped inner).

Definition chain_bad (ch : Cursor) : bool :=
  bool_decide (kind ch = ARRAY_SUBSCRIPT_EXPR ∨ kind ch = BINARY_OPERATOR
               ∨ kind ch = CALL_EXPR ∨ kind ch = CONDITIONAL_OPERATOR
               ∨ kind ch = UNARY_OPERATOR).

(** [ref.kind == PARM_DECL] for the cursor a reference refers to. *)
Definition param_ref_key (e : Cursor) : option string :=
  if decide (kind e = DECL_REF_EXPR) then
    match deref (referenced e) with
    | Some ref => if decide (kind ref = PARM_DECL) then Some (_var_key ref) else None
    | None => None
    end
  else None.

Definition _is_direct_param_ref (expr : Cursor) : option string :=
  let e := _strip_noop expr in
  match param_ref_key e with
  | Some key => Some key
  | None =>
      if decide (kind e = UNARY_OPERATOR) then
        match get_children e with
        | [kid] =>
            let inner := _strip_noop kid in
            if decide (kind inner = MEMBER_REF_EXPR) then
              let seen := chain_children inner in
              if existsb chain_bad seen then None
              else last (omap param_ref_key seen)
            else None
        | _ => None
        end
      else None
  end.

(** The argument loop of [compute_arg_ret_pass_multi]: the union of the
    parameters used directly, and whether some call (the loop stops at the
    first) passes every parameter directly, each once. *)
Fixpoint arg_loop (param_keys : gset string) (calls : list Cursor)
    (used : gset string) : bool * gset string :=
  match calls with
  | [] => (false, used)
  | call :: rest =>
      if decide (size param_keys = 0) then arg_loop param_keys rest used
      else
        let pks := map _is_direct_param_ref (extract_call_args call) in
        let good pk := match pk with
                       | Some k => bool_decide (k ∈ param_keys)
                       | None => false
                       end in
        let direct_map := omap (λ pk, if good pk then pk else None) pks in
        let used := list_to_set direct_map ∪ used in
        if forallb good pks
           && bool_decide (NoDup direct_map)
           && bool_decide (size (list_to_set direct_map : gset string) = size param_keys)
        then (true, used)
        else arg_loop param_keys rest used
  end.

Definition _return_directly_call (call_loc_keys : gset (string * nat * nat))
    (ret_node : Cursor) : bool :=
  (fix each (expr_children : list Cursor) : bool :=
     match expr_children with
     | [] => false
     | ec :: rest =>
         let e := _strip_noop ec in
         if bool_decide (kind e = BINARY_OPERATOR ∨ kind e = UNARY_OPERATOR
                         ∨ kind e = CONDITIONAL_OPERATOR) then false
         else if bool_decide (kind e = CALL_EXPR)
                 && match _cursor_loc_key e with
                    | Some key => bool_decide (key ∈ call_loc_keys)
                    | None => false
                    end
         then true
         else each rest
     end) (get_children ret_node).

(** The [RETURN_STMT] nodes the work list over the body pops. *)
Definition return_stmts (fn : Cursor) : list Cursor :=
  match _function_body_cursor fn with
  | Some body => filter (λ n, kind n = RETURN_STMT) (popped body)
  | None => []
  end.

Definition compute_arg_ret_pass_multi (fn : Cursor) (matching_calls : list Cursor)
    : string * string :=
  match matching_calls with
  | [] => ("no", "no")
  | _ =>
      let params := _gather_params fn in
      let param_keys : gset string := list_to_set (map _var_key params) in
      let '(arg_all_direct, used_direct_params_union) :=
        arg_loop param_keys matching_calls ∅ in
      let arg_pass :=
        if arg_all_direct then "yes - all"
        else if decide (used_direct_params_union ≠ ∅)
        then "yes - " +:+ pretty (size used_direct_params_union)
        else "no" in
      let call_loc_keys : gset (string * nat * nat) :=
        list_to_set (omap _cursor_loc_key matching_calls) in
      let total_returns := length (return_stmts fn) in
      let direct_returns :=
        length (filter (λ n, _return_directly_call call_loc_keys n = true)
                       (return_stmts fn)) in
      let ret_pass :=
        if bool_decide (Py.strip (result_type fn) = "void") || (total_returns =? 0)
        then "no"
        else if direct_returns =? total_returns then "yes - all"
        else if 0 <? direct_returns then "yes - " +:+ pretty direct_returns
        else "no" in
      (arg_pass, ret_pass)
  end.

(** ** runner.py: the row of one function definition *)

(** The fields of [Row] the analysis fills ([function_key], [fan_in],
    [fan_out] and [callees] come from the call graph afterwards). *)
Record Row := mkRow {
  row_file : string;
  row_function : string;
  row_api_called : string;
  row_category : string;
  row_total_target_calls : nat;
  row_hit_locs : list string;
  row_per_path_single : bool;
  row_derived_from_params : bool;
  row_derivation_trace : list string;
  row_reason : string;
  row_function_loc : string;
  row_pair_used : bool;
  row_via_helper_hop : bool;
  row_ignored_helpers : list string;
  row_family : string;
  row_is_thin_alias : bool;
  row_arg_pass : string;
  row_ret_pass : string }.

Definition legacy_map (mode : string) : string :=
  if decide (mode = "perpath_relaxed") then "relaxed"
  else if bool_decide (mode = "single" ∨ mode = "perpath" ∨ mode = "perpath_strict_plus")
  then "accurate"
  else mode.

(** [not api_name] *)
Definition no_name (api_name : option string) : bool :=
  match api_name with
  | Some nm => negb (Py.truthy nm)
  | None => true
  end.

(** The body of the loop over the function definitions of one translation
    unit, from [keep = False] to the row's pass-through fields: the values
    the mode computes, the filter of the modes [relaxed] and [accurate],
    the de-duplication key and the row. [None] is [continue]. *)
Definition function_row (mode : string) (treat_thin_alias : string)
    (catalog : ApiCatalog) (src : string) (cursor : Cursor)
    : option ((string * string * string) * Row) :=
  let func_name := spelling cursor in
  let located := match location cursor with
                 | Some loc => match file loc with
                               | Some name => Some (name, line loc)
                               | None => None
                               end
                 | None => None
                 end in
  let func_file := match located with Some (name, _) => name | None => src end in
  let func_loc := match located with
                  | Some (_, ln) => func_file +:+ ":" +:+ pretty ln
                  | None => "-"
                  end in
  let mode_eff := legacy_map mode in
  let '(v, total_hits_, hit_locs_) :=
    if decide (mode_eff = "relaxed") then
      let v := analyze_wrapper_relaxed cursor catalog in (v, total_hits v, hit_locs v)
    else if decide (mode_eff = "accurate") then
      let v := analyze_wrapper_strict_plus cursor catalog treat_thin_alias in
      (v, total_hits v, hit_locs v)
    else
      let hits := resolved_hits cursor catalog in
      let apis := map fst hits in
      if 0 <? length apis then
        let v := analyze_wrapper_strict_plus cursor catalog treat_thin_alias in
        (mkVerdict (keep v) (per_path_single v) (total_hits v) (reason v) (hit_locs v)
                   (if no_name (api_name v) then head apis else api_name v)
                   (derived_from_params v) (derivation_trace v) (pair_used v)
                   (via_helper_hop v) (ignored_helpers v),
         length apis, map snd hits)
      else
        (mkVerdict true true 0 "N/A" [] None false [] false false [],
         length apis, map snd hits) in
  let api_name := api_name v in
  let name := default "" api_name in
  if bool_decide (mode_eff = "relaxed" ∨ mode_eff = "accurate")
     && (negb (keep v) || (total_hits_ =? 0) || no_name api_name
         || negb (bool_decide (name ∈ target_names catalog)))
  then None
  else
    let all_unnamed := bool_decide (mode_eff = "all") && no_name api_name in
    let dedup_key := (func_name, func_loc, Py.str_or name "other") in
    let is_thin := negb (no_name api_name)
                   && bool_decide (name ∈ thin_aliases catalog) in
    let '(arg_pass, ret_pass) :=
      if all_unnamed then ("N/A", "N/A")
      else
        let matching_calls :=
          filter (λ call_cur, _resolve_target_name_for_call call_cur catalog = api_name)
                 (map fst (collect_target_calls cursor (target_names catalog))) in
        compute_arg_ret_pass_multi cursor matching_calls in
    Some (dedup_key,
          mkRow func_file func_name
                (if all_unnamed then Py.str_or name "other" else name)
                (if negb (no_name api_name) && bool_decide (name ∈ target_names catalog)
                 then category_of catalog name
                 else if all_unnamed then "N/A" else category_of catalog name)
                total_hits_ hit_locs_ (per_path_single v) (derived_from_params v)
                (derivation_trace v)
                (if all_unnamed then "N/A"
                 else if decide (reason v ≠ "n/a") then reason v
                 else if keep v then "ok" else "-")
                func_loc (pair_used v) (via_helper_hop v) (ignored_helpers v)
                (if is_thin then "thin_alias" else "-") is_thin arg_pass ret_pass).

(** The rows of a run, in order, with the de-duplication on [seen_keys].
    [functions] are the cursors of [walk_preorder] that are definitions,
    [in_project] is the project filter. *)
Definition run_rows (mode : string) (treat_thin_alias : string)
    (catalog : ApiCatalog) (src : string) (in_project : Cursor → bool)
    (functions : list Cursor) : list Row :=
  snd (foldl
         (λ '(seen_keys, rows) cursor,
            if negb (bool_decide (kind cursor = FUNCTION_DECL)) then (seen_keys, rows)
            else if negb (in_project cursor) then (seen_keys, rows)
            else
              match function_row mode treat_thin_alias catalog src cursor with
              | None => (seen_keys, rows)
              | Some (dedup_key, r) =>
                  if decide (dedup_key ∈ seen_keys) then (seen_keys, rows)
                  else ({[dedup_key]} ∪ seen_keys, rows ++ [r])
              end)
         ((∅ : gset (string * string * string)), []) functions).

End Analysis.

(** ** compile_commands.py: the argument sanitizer *)

(** What the sanitizer reads from outside: the environment variables, the
    file system and [pathlib]. *)
Record Host := mkHost {
  (** [os.environ.get("WRAPFINDER_ADD_DEFAULTS") == "1"] *)
  ADD_DEFAULTS : bool;
  (** [shlex.split] of the text of a response file, when it is a file of at
      most 2 MiB *)
  response_file : string → option (list string);
  (** [Path(p).is_absolute()] *)
  is_absolute : string → bool;
  (** [str(Path(p))] *)
  path_str : string → string;
  (** [str(Path(p).resolve())] *)
  resolve : string → string;
  (** [str((Path(base) / p).resolve())] *)
  join_resolve : string → string → string;
  (** [str(Path(p).parent.resolve())] *)
  parent_resolve : string → string;
  (** [os.path.isdir] *)
  isdir : string → bool;
  (** [os.path.exists] *)
  exists_ : string → bool;
  (** [sorted(glob.glob("/usr/lib/llvm-*/lib/clang/*"), reverse=True)]
      followed by [sorted(glob.glob("/usr/lib/clang/*"), reverse=True)] *)
  resource_candidates : list string;
  (** [os.environ.get("CLANG_RESOURCE_DIR")] *)
  CLANG_RESOURCE_DIR : option string }.

(** [os.path.basename]: what follows the last slash. *)
Fixpoint basename_aux (s acc : string) : string :=
  match s with
  | EmptyString => acc
  | String c r => if decide (c = "/"%char) then basename_aux r r else basename_aux r acc
  end.

Definition basename (s : string) : string := basename_aux s s.

(** [os.path.join(rd, "include", "stddef.h")] *)
Definition stddef_of (rd : string) : string :=
  (if Py.truthy rd && negb (Py.endswith "/" rd) then rd +:+ "/" else rd)
  +:+ "include/stddef.h".

(** clang_bootstrap.py *)
Fixpoint _include_already_present_from (args : list string) (include_path : string)
    : bool :=
  match args with
  | [] => false
  | a :: rest =>
      if decide (a = "-I") then
        match rest with
        | v :: _ => if decide (v = include_path) then true
                    else _include_already_present_from rest include_path
        | [] => _include_already_present_from rest include_path
        end
      else if Py.startswith "-I" a
              && bool_decide (Py.strip_prefix "-I" a = Some include_path)
      then true
      else _include_already_present_from rest include_path
  end.

Definition _include_already_present (args : list string) (include_path : string)
    : bool :=
  if Py.truthy include_path then _include_already_present_from args include_path
  else false.

Section Sanitizer.

Context (host : Host).

Definition _split_response_file (tok : string) : list string :=
  if negb (Py.startswith "@" tok) then [tok]
  else default [] (response_file host (default "" (Py.strip_prefix "@" tok))).

Definition _abspath (candidate : string) (base_dir : string) : string :=
  if is_absolute host candidate then path_str host candidate
  else join_resolve host base_dir candidate.

Definition _is_obj_or_lib (tok : string) : bool :=
  let lo := Py.lower tok in
  existsb (λ suf, Py.endswith suf lo)
          [".o"; ".obj"; ".lo"; ".a"; ".lib"; ".so"; ".dylib"; ".bc"; ".ll"].

Definition _is_source_file (tok : string) : bool :=
  let lo := Py.lower tok in
  existsb (λ suf, Py.endswith suf lo)
          [".c"; ".cc"; ".cpp"; ".cxx"; ".c++"; ".m"; ".mm"].

Definition _is_warning (tok : string) : bool :=
  if Py.startswith "-Wl," tok then false else Py.startswith "-W" tok.

Definition DROP_EXACT : list string :=
  ["-c"; "-E"; "-S"; "-pipe"; "-static"; "-shared"; "-rdynamic"; "-s";
   "-g"; "-ggdb"; "-gsplit-dwarf"; "-save-temps"].

Definition DROP_PREFIXES : list string :=
  ["-Wl,"; "-Xlinker"; "-l"; "-L"; "-fuse-ld"; "-T"; "-u"; "-flto";
   "-fwhole-program-vtables"; "-fprofile"; "-fcoverage"; "--coverage";
   "-fprofile-"; "-fsanitize"; "-fno-sanitize"; "-fmodules"; "-fmodule-file=";
   "-fmodule-map-file="; "-fmodules-cache-path"; "-m"].

Definition PRESERVE_EXACT : list string :=
  ["-pthread"; "-ansi"; "-fsigned-char"; "-pedantic"].

Definition PAIR_FLAGS : list string :=
  ["-I"; "-isystem"; "-iquote"; "-idirafter"; "-include"; "-imacros";
   "-o"; "-MF"; "-MT"; "-MQ"; "-MJ"; "-x"; "-isysroot"; "--sysroot";
   "-resource-dir"; "-target"].

Definition COMPILERS : list string :=
  ["clang"; "clang-20"; "clang-19"; "clang-18"; "clang-17"; "clang-16";
   "gcc"; "cc"; "c99"; "c11"].

Definition in_list (x : string) (l : list string) : bool := bool_decide (x ∈ l).

(** The variables of the main loop. *)
Record Scan := mkScan {
  filtered : list string;
  saw_lang : bool;
  saw_std : bool;
  saw_resource_dir : bool }.

Definition keep_tok (tok : string) (st : Scan) : Scan :=
  mkScan (filtered st ++ [tok]) (saw_lang st) (saw_std st) (saw_resource_dir st).

(** A token glued to its value, [-I<dir>]: split and made absolute. *)
Definition glued (flag tok entry_dir : string) (st : Scan) : Scan :=
  match Py.strip_prefix flag tok with
  | Some val =>
      if Py.truthy val
      then mkScan (filtered st ++ [flag; _abspath val entry_dir])
                  (saw_lang st) (saw_std st) (saw_resource_dir st)
      else st
  | None => st
  end.

(** [tok.split("=", 1)[1]] for a token that starts with [flag], which ends
    in [=] and holds no other [=]. *)
Definition after_eq (flag tok : string) : string :=
  default "" (Py.strip_prefix flag tok).

(** The [while i < n] loop; [first] is [i == 0]. *)
Fixpoint scan (entry_dir : string) (first : bool) (tokens : list string)
    (st : Scan) {struct tokens} : Scan :=
  match tokens with
  | [] => st
  | tok :: rest =>
      if first && negb (Py.startswith "-" tok) && in_list (basename tok) COMPILERS
      then scan entry_dir false rest st
      else if in_list tok DROP_EXACT then scan entry_dir false rest st
      else if _is_obj_or_lib tok || _is_source_file tok then scan entry_dir false rest st
      else if existsb (λ pref, Py.startswith pref tok) DROP_PREFIXES
      then scan entry_dir false rest st
      else if _is_warning tok then scan entry_dir false rest st
      else if in_list tok PAIR_FLAGS then
        match rest with
        | val :: rest' =>
            if negb (Py.startswith "-" val) then
              (* has_value *)
              if in_list tok ["-o"; "-MF"; "-MT"; "-MQ"; "-MJ"]
              then scan entry_dir false rest' st
              else
                let abs_val :=
                  if in_list tok ["-I"; "-isystem"; "-iquote"; "-idirafter";
                                  "-include"; "-imacros"; "-isysroot"; "--sysroot"]
                  then _abspath val entry_dir else val in
                scan entry_dir false rest'
                     (mkScan (filtered st ++ [tok; abs_val])
                             (saw_lang st || bool_decide (tok = "-x"))
                             (saw_std st
                              || (negb (bool_decide (tok = "-x"))
                                  && negb (bool_decide (tok = "-resource-dir"))
                                  && Py.startswith "-std" tok))
                             (saw_resource_dir st
                              || (negb (bool_decide (tok = "-x"))
                                  && bool_decide (tok = "-resource-dir"))))
            else scan entry_dir false rest st
        | [] => st
        end
      else if Py.startswith "-std=" tok then
        scan entry_dir false rest
             (mkScan (filtered st ++ [tok]) (saw_lang st) true (saw_resource_dir st))
      else if Py.startswith "-I" tok && negb (bool_decide (tok = "-I")) then
        scan entry_dir false rest (glued "-I" tok entry_dir st)
      else if Py.startswith "-isystem" tok && negb (bool_decide (tok = "-isystem")) then
        scan entry_dir false rest (glued "-isystem" tok entry_dir st)
      else if Py.startswith "-iquote" tok && negb (bool_decide (tok = "-iquote")) then
        scan entry_dir false rest (glued "-iquote" tok entry_dir st)
      else if Py.startswith "-idirafter" tok && negb (bool_decide (tok = "-idirafter")) then
        scan entry_dir false rest (glued "-idirafter" tok entry_dir st)
      else if Py.startswith "-isysroot=" tok then
        scan entry_dir false rest
             (keep_tok ("-isysroot=" +:+ _abspath (after_eq "-isysroot=" tok) entry_dir) st)
      else if Py.startswith "--sysroot=" tok then
        scan entry_dir false rest
             (keep_tok ("--sysroot=" +:+ _abspath (after_eq "--sysroot=" tok) entry_dir) st)
      else if Py.startswith "-resource-dir=" tok then
        scan entry_dir false rest
             (mkScan (filtered st
                      ++ ["-resource-dir=" +:+ _abspath (after_eq "-resource-dir=" tok) entry_dir])
                     (saw_lang st) (saw_std st) true)
      else if Py.startswith "-D" tok then scan entry_dir false rest (keep_tok tok st)
      else if in_list tok PRESERVE_EXACT then scan entry_dir false rest (keep_tok tok st)
      else if Py.startswith "-O" tok then scan entry_dir false rest (keep_tok tok st)
      else scan entry_dir false rest st
  end.

Definition INCLUDE_FLAGS : list string := ["-I"; "-isystem"; "-iquote"; "-idirafter"].

(** [t.startswith("-I") and t != "-I"], then [t[2:]] *)
Definition glued_I (t : string) : option string :=
  if Py.startswith "-I" t && negb (bool_decide (t = "-I"))
  then Py.strip_prefix "-I" t else None.

Fixpoint _has_sys_include_from (argv : list string) (abs_path : string) : bool :=
  match argv with
  | [] => false
  | t :: rest =>
      if in_list t INCLUDE_FLAGS
         && match rest with
            | v :: _ => bool_decide (resolve host v = abs_path)
            | [] => false
            end
      then true
      else
        match glued_I t with
        | Some v => if decide (resolve host v = abs_path) then true
                    else _has_sys_include_from rest abs_path
        | None => _has_sys_include_from rest abs_path
        end
  end.

Definition _has_sys_include (argv : list string) (path : string) : bool :=
  _has_sys_include_from argv (resolve host path).

Definition sys_paths : list string := ["/usr/include"; "/usr/include/x86_64-linux-gnu"].

Fixpoint _has_any_project_includes (argv : list string) : bool :=
  match argv with
  | [] => false
  | t :: rest =>
      if in_list t INCLUDE_FLAGS
         && match rest with
            | v :: _ => negb (Py.startswith "-" v)
                        && negb (in_list (resolve host v) sys_paths)
            | [] => false
            end
      then true
      else
        match glued_I t with
        | Some v => if negb (in_list (resolve host v) sys_paths) then true
                    else _has_any_project_includes rest
        | None => _has_any_project_includes rest
        end
  end.

(** The resource directory that is picked, if any. *)
Definition picked_resource_dir : option string :=
  let has_stddef rd := exists_ host (stddef_of rd) in
  match CLANG_RESOURCE_DIR host with
  | Some env_rd =>
      if Py.truthy env_rd && has_stddef env_rd then Some env_rd
      else find has_stddef (resource_candidates host)
  | None => find has_stddef (resource_candidates host)
  end.

(** [-x <lang>] from the extension of the source. *)
Definition lang_of (src_path : string) : string :=
  let sp := Py.lower src_path in
  if Py.endswith ".c" sp then "c"
  else if existsb (λ suf, Py.endswith suf sp) [".cc"; ".cpp"; ".cxx"; ".c++"] then "c++"
  else if Py.endswith ".m" sp then "objective-c"
  else if Py.endswith ".mm" sp then "objective-c++"
  else "c".

Definition add_if (b : bool) (extra : list string) (l : list string) : list string :=
  if b then l ++ extra else l.

(** [a == "-working-directory" or str(a).startswith("-working-directory=")] *)
Definition is_working_directory (a : string) : bool :=
  bool_decide (a = "-working-directory") || Py.startswith "-working-directory=" a.

(** No argument kept so far is a working-directory token. *)
Definition kept_ok (st : Scan) : Prop :=
  Forall (λ a, is_working_directory a = false) (filtered st).

Definition _sanitize_clang_args_for_libclang (raw_args : list string)
    (src_path entry_dir : string) : list string :=
  let tokens := flat_map _split_response_file raw_args in
  let st := scan entry_dir true tokens (mkScan [] false false false) in
  let filtered := filtered st in
  let filtered :=
    add_if (negb (existsb is_working_directory filtered))
           ["-working-directory=" +:+ path_str host entry_dir] filtered in
  let src_dir := parent_resolve host src_path in
  let ent_dir := resolve host entry_dir in
  let filtered :=
    add_if (negb (bool_decide (src_dir = ent_dir))
            && negb (_include_already_present filtered src_dir))
           ["-I"; src_dir] filtered in
  let filtered :=
    add_if (negb (_has_sys_include filtered "/usr/include"))
           ["-I"; "/usr/include"] filtered in
  let multiarch := "/usr/include/x86_64-linux-gnu" in
  let filtered :=
    add_if (isdir host multiarch && negb (_has_sys_include filtered multiarch))
           ["-I"; multiarch] filtered in
  let filtered :=
    if saw_resource_dir st then filtered
    else match picked_resource_dir with
         | Some picked =>
             if Py.truthy picked then filtered ++ ["-resource-dir=" +:+ picked]
             else filtered
         | None => filtered
         end in
  let filtered :=
    if ADD_DEFAULTS host && negb (_has_any_project_includes filtered) then
      foldl (λ filtered pth,
               add_if (Py.truthy pth && negb (_include_already_present filtered pth))
                      ["-I"; pth] filtered)
            filtered [ent_dir; src_dir]
    else filtered in
  if saw_lang st then filtered else ["-x"; lang_of src_path] ++ filtered.

End Sanitizer.

(** ** The statements of the specification, in its words *)

Section SpecWords.

Context (tu : gmap N Cursor).

(** The name a [syscall] indirection selects: the callee is [syscall] and
    the text of its first argument matches [SYS_<foo>] or [__NR_<foo>]. *)
Definition spec_syscall_target (call : Cursor) : option string :=
  if decide (_callee_name tu call = "syscall") then
    match get_children call with
    | _ :: first_arg :: _ => search_sys (Py.join "" (tokens first_arg))
    | _ => None
    end
  else None.

(** The contribution of one call expression, by the ordered rule of the
    specification: benign helper 0, target 1, [syscall] indirection 1,
    helper hop within the bound 1, else 0. *)
Definition spec_call_contribution (call : Cursor) (targets : gset string)
    (helpers : HelperConfig) (max_hops : nat) : nat :=
  if any_match helpers (_callee_name tu call) which_benign then 0
  else if decide (_callee_name tu call ∈ targets) then 1
  else if match spec_syscall_target call with
          | Some foo => bool_decide (foo ∈ targets)
          | None => false
          end then 1
  else if _call_hits_target_via_one_hop tu call targets
          || ((1 <? max_hops) && _call_hits_target_via_n_hops tu call targets max_hops)
  then 1
  else 0.

(** The loop rule as the specification states it, for the body [body] of
    the loop [stmt]: the result is the rule applied to the summary of the
    body under the same targets, helpers and hop bound. *)
Definition spec_loop_claim (stmt body : Cursor) (targets : gset string)
    (helpers : HelperConfig) (max_hops : nat) : Prop :=
  analyze_stmt tu stmt targets helpers max_hops
  = (let B := analyze_stmt tu body targets helpers max_hops in
     if bool_decide (set_Exists (λ x, 2 ≤ x) (counts B)) then mkPathResult {[2]} true
     else mkPathResult (counts B ∪ {[0; 1]}) (unknown B)).

(** The body the loop rule analyzes: the last compound-statement child. *)
Definition loop_body (stmt : Cursor) : option Cursor :=
  last (filter (λ ch, kind ch = COMPOUND_STMT) (get_children stmt)).

(** The loop rule of the specification for a body summary [B]. *)
Definition spec_loop_result (B : PathResult) : PathResult :=
  if bool_decide (set_Exists (λ x, 2 ≤ x) (counts B)) then mkPathResult {[2]} true
  else mkPathResult (counts B ∪ {[0; 1]}) (unknown B).

(** The shape every summary has: counts that are not empty and saturate at
    2, and the count 2 present whenever the summary is unknown. *)
Definition pr_ok (pr : PathResult) : Prop :=
  counts pr ≠ ∅ ∧ counts pr ⊆ {[0; 1; 2]} ∧ (unknown pr = true → 2 ∈ counts pr).

(** [pr_ok] for a statement, whatever the hop bound. *)
Definition ok_at (targets : gset string) (helpers : HelperConfig) (c : Cursor) : Prop :=
  ∀ h, pr_ok (analyze_stmt tu c targets helpers h).

End SpecWords.

(** ** Concrete translation units *)

Module Examples.

(** One translation unit, [w.c]:
<<
 1  int close(int);
 2  int sync(void);
 3  long syscall(long, ...); static const long SYS_openat = 257;
 4  int w(int fd){ if(fd<0) return -1; return close(fd); }
 5  int wb(int fd){ if(fd<0) { return -1; } return close(fd); }
 6  int wd(int fd){ return close(fd); }
 7  void v(int fd){ close(fd); }
 8  int g(void){ sync(); return 0; }
 9  void f(int fd){ for(;;) close(fd); }
10  void wl(int fd){ while(fd) { close(fd); } }
11  static int h(int fd){ close(fd); return 0; }
12  void via(int fd){ h(fd); }
13  static int h2(int fd){ h(fd); return 0; }
14  void wl2(int fd){ while(fd) { h2(fd); close(fd); } }
15  long so(int fd){ return syscall(SYS_openat, fd, "x", 0); }
>>
    Cursor hashes are chosen per function: [100 * line] for the function,
    [+ 1] for its parameter, and so on inside. *)

Definition at_ (l c : nat) : option SourceLocation := Some (mkLoc (Some "w.c") l c).

Definition node (k : CursorKind) (h : N) (loc : option SourceLocation)
    (kids : list Cursor) : Cursor :=
  mkCursor k "" "" h loc None None None [] None "" kids.

(** A reference to the declaration [decl], as clang wraps it. *)
Definition ref_to (name : string) (h : N) (loc : option SourceLocation) (decl : N)
    : Cursor :=
  mkCursor UNEXPOSED_EXPR name name h loc None (Some decl) None [name] None ""
    [mkCursor DECL_REF_EXPR name name (h + 1) loc None (Some decl) None [name] None "" []].

(** A call of the function declared at [decl] and defined at [defn]. *)
Definition call (name : string) (h : N) (loc : option SourceLocation) (decl : N)
    (defn : option N) (args : list Cursor) : Cursor :=
  mkCursor CALL_EXPR name name h loc defn (Some decl) None [] None "int"
    (ref_to name (h + 1) loc decl :: args).

Definition param (name : string) (h : N) (loc : option SourceLocation) : Cursor :=
  mkCursor PARM_DECL name name h loc (Some h) None (Some h) [name] None "" [].

Definition func (name ret : string) (h : N) (loc : option SourceLocation)
    (params : list Cursor) (body : list Cursor) : Cursor :=
  mkCursor FUNCTION_DECL name name h loc (Some h) None (Some h) [] None ret
    (params ++ body).

Definition int_lit (h : N) (loc : option SourceLocation) : Cursor :=
  node INTEGER_LITERAL h loc [].

(** [close(fd)] at line [l], column [c], with [fd] the parameter [fd_decl] *)
Definition close_call (h : N) (l c : nat) (fd_decl : N) : Cursor :=
  call "close" h (at_ l c) 1 None [ref_to "fd" (h + 3) (at_ l (c + 6)) fd_decl].

(** [fd<0] and [-1] *)
Definition fd_negative (h : N) (l c : nat) (fd_decl : N) : Cursor :=
  node BINARY_OPERATOR h (at_ l c)
    [ref_to "fd" (h + 1) (at_ l c) fd_decl; int_lit (h + 3) (at_ l (c + 3))].

Definition minus_one (h : N) (l c : nat) : Cursor :=
  node UNARY_OPERATOR h (at_ l c) [int_lit (h + 1) (at_ l (c + 1))].

(** Lines 1 to 3: declarations without a body *)
Definition close_decl : Cursor := func "close" "int" 1 (at_ 1 5) [param "" 2 (at_ 1 14)] [].
Definition sync_decl : Cursor := func "sync" "int" 3 (at_ 2 5) [] [].
Definition syscall_decl : Cursor :=
  func "syscall" "long" 5 (at_ 3 6) [param "" 6 (at_ 3 18)] [].

(** The constant [SYS_openat] of line 3. *)
Definition sys_openat_decl : Cursor :=
  mkCursor VAR_DECL "SYS_openat" "SYS_openat" 7 (at_ 3 44) (Some 7%N) None (Some 7%N)
    ["static"; "const"; "long"; "SYS_openat"; "="; "257"] None ""
    [int_lit 8 (at_ 3 57)].

(** Line 4: [int w(int fd){ if(fd<0) return -1; return close(fd); }] *)
Definition w_fd : Cursor := param "fd" 401 (at_ 4 11).

Definition w_guard_if : Cursor :=
  node IF_STMT 403 (at_ 4 16)
    [ fd_negative 404 4 19 401;
      node RETURN_STMT 408 (at_ 4 25) [minus_one 409 4 32] ].

Definition w_close : Cursor := close_call 412 4 43 401.

Definition w_guard_body : Cursor :=
  node COMPOUND_STMT 402 (at_ 4 14)
    [w_guard_if; node RETURN_STMT 411 (at_ 4 36) [w_close]].

Definition w_guard : Cursor := func "w" "int" 400 (at_ 4 5) [w_fd] [w_guard_body].

(** Line 5: [int wb(int fd){ if(fd<0) { return -1; } return close(fd); }] *)
Definition wb_fd : Cursor := param "fd" 501 (at_ 5 12).

Definition w_braced : Cursor :=
  func "wb" "int" 500 (at_ 5 5) [wb_fd]
    [node COMPOUND_STMT 502 (at_ 5 15)
       [ node IF_STMT 503 (at_ 5 17)
           [ fd_negative 504 5 20 501;
             node COMPOUND_STMT 508 (at_ 5 26)
               [node RETURN_STMT 509 (at_ 5 28) [minus_one 510 5 35]] ];
         node RETURN_STMT 512 (at_ 5 41) [close_call 513 5 48 501] ]].

(** Line 6: [int wd(int fd){ return close(fd); }] *)
Definition wd_fd : Cursor := param "fd" 601 (at_ 6 12).
Definition wd_close : Cursor := close_call 604 6 24 601.

Definition w_direct : Cursor :=
  func "wd" "int" 600 (at_ 6 5) [wd_fd]
    [node COMPOUND_STMT 602 (at_ 6 15) [node RETURN_STMT 603 (at_ 6 17) [wd_close]]].

(** Line 7: [void v(int fd){ close(fd); }] *)
Definition v_fd : Cursor := param "fd" 701 (at_ 7 12).
Definition v_close : Cursor := close_call 703 7 17 701.
Definition v_body : Cursor := node COMPOUND_STMT 702 (at_ 7 15) [v_close].
Definition v_stmt : Cursor := func "v" "void" 700 (at_ 7 6) [v_fd] [v_body].

(** Line 8: [int g(void){ sync(); return 0; }] *)
Definition g_body : Cursor :=
  node COMPOUND_STMT 801 (at_ 8 12)
    [ call "sync" 802 (at_ 8 14) 3 None [];
      node RETURN_STMT 805 (at_ 8 22) [int_lit 806 (at_ 8 29)] ].

Definition g_sync : Cursor := func "g" "int" 800 (at_ 8 5) [] [g_body].

(** Line 9: [void f(int fd){ for(;;) close(fd); }] *)
Definition f_fd : Cursor := param "fd" 901 (at_ 9 12).
Definition f_close : Cursor := close_call 904 9 25 901.
Definition for_close : Cursor := node FOR_STMT 903 (at_ 9 17) [f_close].

Definition f_for : Cursor :=
  func "f" "void" 900 (at_ 9 6) [f_fd]
    [node COMPOUND_STMT 902 (at_ 9 15) [for_close]].

(** Line 10: [void wl(int fd){ while(fd) { close(fd); } }] *)
Definition wl_fd : Cursor := param "fd" 1001 (at_ 10 13).
Definition wl_block : Cursor :=
  node COMPOUND_STMT 1006 (at_ 10 28) [close_call 1007 10 30 1001].

Definition while_close : Cursor :=
  node WHILE_STMT 1003 (at_ 10 18) [ref_to "fd" 1004 (at_ 10 24) 1001; wl_block].

Definition wl_loop : Cursor :=
  func "wl" "void" 1000 (at_ 10 6) [wl_fd]
    [node COMPOUND_STMT 1002 (at_ 10 16) [while_close]].

(** Line 11: [static int h(int fd){ close(fd); return 0; }] *)
Definition h_fd : Cursor := param "fd" 1101 (at_ 11 18).

Definition h_helper : Cursor :=
  func "h" "int" 1100 (at_ 11 12) [h_fd]
    [node COMPOUND_STMT 1102 (at_ 11 21)
       [ close_call 1103 11 23 1101;
         node RETURN_STMT 1108 (at_ 11 34) [int_lit 1109 (at_ 11 41)] ]].

(** Line 12: [void via(int fd){ h(fd); }] *)
Definition via_fd : Cursor := param "fd" 1201 (at_ 12 14).

Definition via_body : Cursor :=
  node COMPOUND_STMT 1202 (at_ 12 17)
    [call "h" 1203 (at_ 12 19) 1100 (Some 1100%N) [ref_to "fd" 1206 (at_ 12 21) 1201]].

Definition via_helper : Cursor := func "via" "void" 1200 (at_ 12 6) [via_fd] [via_body].

(** Line 13: [static int h2(int fd){ h(fd); return 0; }] *)
Definition h2_fd : Cursor := param "fd" 1301 (at_ 13 19).

Definition h2_helper : Cursor :=
  func "h2" "int" 1300 (at_ 13 12) [h2_fd]
    [node COMPOUND_STMT 1302 (at_ 13 22)
       [ call "h" 1303 (at_ 13 24) 1100 (Some 1100%N)
           [ref_to "fd" 1306 (at_ 13 26) 1301];
         node RETURN_STMT 1308 (at_ 13 31) [int_lit 1309 (at_ 13 38)] ]].

(** Line 14: [void wl2(int fd){ while(fd) { h2(fd); close(fd); } }] *)
Definition wl2_fd : Cursor := param "fd" 1401 (at_ 14 14).

Definition two_hops_then_close : Cursor :=
  node COMPOUND_STMT 1406 (at_ 14 29)
    [ call "h2" 1407 (at_ 14 31) 1300 (Some 1300%N)
        [ref_to "fd" 1410 (at_ 14 34) 1401];
      close_call 1412 14 39 1401 ].

Definition while_two_hops : Cursor :=
  node WHILE_STMT 1403 (at_ 14 19)
    [ref_to "fd" 1404 (at_ 14 25) 1401; two_hops_then_close].

Definition wl2_loop : Cursor :=
  func "wl2" "void" 1400 (at_ 14 6) [wl2_fd]
    [node COMPOUND_STMT 1402 (at_ 14 17) [while_two_hops]].

(** Line 15: [long so(int fd){ return syscall(SYS_openat, fd, "x", 0); }];
    the selector is a reference to the constant of line 3, and its one token
    is the identifier. *)
Definition so_fd : Cursor := param "fd" 1501 (at_ 15 13).

Definition sys_openat_call : Cursor :=
  call "syscall" 1504 (at_ 15 25) 5 None
    [ ref_to "SYS_openat" 1507 (at_ 15 33) 7;
      ref_to "fd" 1509 (at_ 15 45) 1501;
      node STRING_LITERAL 1511 (at_ 15 49) [];
      int_lit 1512 (at_ 15 54) ].

Definition so_syscall : Cursor :=
  func "so" "long" 1500 (at_ 15 6) [so_fd]
    [node COMPOUND_STMT 1502 (at_ 15 16)
       [node RETURN_STMT 1503 (at_ 15 18) [sys_openat_call]]].

(** The declarations of the translation unit, by hash. *)
Definition tu : gmap N Cursor :=
  list_to_map
    [ (1%N, close_decl); (3%N, sync_decl); (5%N, syscall_decl);
      (7%N, sys_openat_decl);
      (400%N, w_guard); (401%N, w_fd); (500%N, w_braced); (501%N, wb_fd);
      (600%N, w_direct); (601%N, wd_fd); (700%N, v_stmt); (701%N, v_fd);
      (800%N, g_sync); (900%N, f_for); (901%N, f_fd);
      (1000%N, wl_loop); (1001%N, wl_fd); (1100%N, h_helper); (1101%N, h_fd);
      (1200%N, via_helper); (1201%N, via_fd); (1300%N, h2_helper); (1301%N, h2_fd);
      (1400%N, wl2_loop); (1401%N, wl2_fd); (1500%N, so_syscall); (1501%N, so_fd) ].

Definition no_helpers : HelperConfig := mkHelperConfig ∅ [] ∅ [].

(** Targets [close], [sync] and [openat]; [close] is a thin alias. *)
Definition targets : gset string := {["close"; "sync"; "openat"]}.

Definition catalog : ApiCatalog :=
  mkApiCatalog targets ∅ targets no_helpers {["close"]} ∅.

(** The directory part of an absolute, normalised path. *)
Fixpoint after_slash (s : string) : string :=
  match s with
  | EmptyString => EmptyString
  | String c r => if decide (c = "/"%char) then r else after_slash r
  end.

Definition dirname (p : string) : string :=
  Py.str_or (Py.str_rev (after_slash (Py.str_rev p))) "/".

(** A host with no response files, no symbolic links, no multiarch
    directory and no clang resource directory, for paths that are absolute
    and normalised already. *)
Definition plain_host : Host :=
  mkHost false (λ _, None) (Py.startswith "/") id id
         (λ base p, base +:+ "/" +:+ p) dirname
         (λ _, false) (λ _, false) [] None.

(** The same with the multiarch include directory and the resource
    directory of clang 18 present. *)
Definition debian_host : Host :=
  mkHost false (λ _, None) (Py.startswith "/") id id
         (λ base p, base +:+ "/" +:+ p) dirname
         (λ d, bool_decide (d = "/usr/include/x86_64-linux-gnu"))
         (λ f, bool_decide (f = "/usr/lib/llvm-18/lib/clang/18/include/stddef.h"))
         ["/usr/lib/llvm-18/lib/clang/18"] None.

End Examples.

(** ** Relations the further properties are stated with *)

Section Reach.

Context (tu : gmap N Cursor) (T : gset string).

(** [ch] is a call among the direct children of the body of the function
    that [call] calls. *)
Definition callee_calls (call ch : Cursor) : Prop :=
  ∃ callee body,
    _callee_definition tu call = Some callee
    ∧ _function_body_cursor callee = Some body
    ∧ ch ∈ get_children body
    ∧ kind ch = CALL_EXPR.

(** [reaches k call]: a chain of [k] function bodies leads from [call] to
    a call whose callee name is a target. *)
Inductive reaches : nat → Cursor → Prop :=
  | reaches_target call ch :
      callee_calls call ch → _callee_name tu ch ∈ T → reaches 1 call
  | reaches_hop k call ch :
      callee_calls call ch → reaches k ch → reaches (S k) call.

End Reach.

(** Some node of the tree is a [for], [while] or [do] statement. *)
Fixpoint contains_loop (c : Cursor) : bool :=
  is_loop_kind (kind c) || existsb contains_loop (get_children c).

(** The counts of two statements in sequence: the sums, saturated at 2. *)
Definition sat_add (A B : gset nat) : gset nat :=
  set_bind (λ a, set_map (λ b, (a + b) `min` 2) B) A.

Section Sites.

Context (tu : gmap N Cursor).

(** The entry [collect_target_calls] records for the node itself. *)
Definition site_of (fn : Cursor) (target_names : gset string)
    : list (Cursor * string) :=
  if decide (kind fn = CALL_EXPR) then
    let entry := (fn, match location fn with
                      | Some loc => line_col loc
                      | None => "?"
                      end) in
    if decide (_callee_name tu fn ∈ target_names) then [entry]
    else if mapped_in (resolve_syscall_indirection tu fn) target_names then [entry]
    else if _call_hits_target_via_one_hop tu fn target_names
            || _call_hits_target_via_n_hops tu fn target_names 2
    then [entry] else []
  else [].

End Sites.

(** ** Words for the provenance properties *)

Section ProvenanceWords.

Context (tu : gmap N Cursor).

(** Walking down from [e] through nodes that are neither references nor
    calls, some reference is reached whose variable satisfies [P]. *)
Fixpoint refers_to (P : string → bool) (e : Cursor) : bool :=
  if decide (kind e = DECL_REF_EXPR) then P (_var_key tu e)
  else if decide (kind e = CALL_EXPR) then false
  else existsb (refers_to P) (get_children e).

(** The state [check_arguments_provenance] starts from: every parameter
    marked. *)
Definition param_taint (func : Cursor) : TaintState :=
  foldl (λ st ch,
           if _is_param ch then mark st (_var_key tu ch) (spelling ch +:+ " is param")
           else st)
        (mkTaintState ∅ false []) (get_children func).

(** The keys of the arguments of [call] that are direct references to a
    parameter of [param_keys], in order: [direct_map] of the argument loop. *)
Definition direct_keys (param_keys : gset string) (call : Cursor) : list string :=
  omap (λ pk, if match pk with
                 | Some k => bool_decide (k ∈ param_keys)
                 | None => false
                 end then pk else None)
       (map (_is_direct_param_ref tu) (extract_call_args call)).

(** The test that stops the argument loop at [call]. *)
Definition all_direct (param_keys : gset string) (call : Cursor) : bool :=
  forallb (λ pk, match pk with
                 | Some k => bool_decide (k ∈ param_keys)
                 | None => false
                 end) (map (_is_direct_param_ref tu) (extract_call_args call))
  && bool_decide (NoDup (direct_keys param_keys call))
  && bool_decide (size (list_to_set (direct_keys param_keys call) : gset string)
                  = size param_keys).

End ProvenanceWords.

(** ** Words for the properties of the rows and of the sanitizer *)

(** The de-duplication key of a row, from its fields. *)
Definition row_key (r : Row) : string * string * string :=
  (row_function r, row_function_loc r, Py.str_or (row_api_called r) "other").

(** What the main loop of the sanitizer drops as a flag: the exact flags
    and the prefixes of its lists, warnings, and the flags that name an
    output or a dependency file. *)
Definition dropped_flag (tok : string) : bool :=
  in_list tok DROP_EXACT
  || existsb (λ pref, Py.startswith pref tok) DROP_PREFIXES
  || _is_warning tok
  || in_list tok ["-o"; "-MF"; "-MT"; "-MQ"; "-MJ"].

(** No argument kept so far is a dropped flag. *)
Definition kept_clean (st : Scan) : Prop :=
  Forall (λ a, dropped_flag a = false) (filtered st).

(** [pathlib] gives paths, not options: no absolute or resolved path starts
    with a dash. *)
Definition posix_paths (host : Host) : Prop :=
  (∀ candidate base_dir, Py.startswith "-" (_abspath host candidate base_dir) = false)
  ∧ (∀ p, Py.startswith "-" (resolve host p) = false)
  ∧ (∀ p, Py.startswith "-" (parent_resolve host p) = false).

(** ** Words for the contribution of a call *)

(** The benign helpers: a name of the literal set, or one a pattern finds. *)
Definition benign_name (H : HelperConfig) (name : string) : Prop :=
  name ∈ benign H ∨ Exists (λ r, r name = true) (benign_regex H).

(** A non-empty run of word characters. *)
Definition word_chars (foo : string) : Prop :=
  foo ≠ "" ∧ Forall (λ c, Py.is_word c = true) (list_ascii_of_string foo).

(** The text does not go on with a word character. *)
Definition ends_word (rest : string) : Prop :=
  match rest with
  | String c _ => Py.is_word c = false
  | EmptyString => True
  end.

(** [selector_at pre foo txt]: behind [pre], the text [txt] reads [SYS_] or
    [__NR_] and then the whole word [foo]. *)
Definition selector_at (pre foo txt : string) : Prop :=
  ∃ rest, (txt = pre +:+ "SYS_" +:+ foo +:+ rest
           ∨ txt = pre +:+ "__NR_" +:+ foo +:+ rest)
          ∧ word_chars foo ∧ ends_word rest.

(** [selects txt foo]: [foo] is the name behind the leftmost selector of
    [txt]. *)
Definition selects (txt foo : string) : Prop :=
  ∃ pre, selector_at pre foo txt
         ∧ ∀ pre' foo', selector_at pre' foo' txt →
                        String.length pre ≤ String.length pre'.

(** The key of every cursor of the translation unit is its hash. *)
Definition hash_keyed (tu : gmap N Cursor) : Prop :=
  map_Forall (λ k c, hash c = k) tu.

Section ContributionWords.

Context (tu : gmap N Cursor) (T : gset string).

(** [call] is a call of [syscall] whose first argument, as text, selects
    [foo]. *)
Definition syscall_selects (call : Cursor) (foo : string) : Prop :=
  _callee_name tu call = "syscall"
  ∧ ∃ callee_ref selector rest,
      get_children call = callee_ref :: selector :: rest
      ∧ selects (Py.join "" (tokens selector)) foo.

(** A small function: a body of at most 6 statements that are not
    declarations. *)
Definition small_body (fn : Cursor) : Prop :=
  ∃ body, _function_body_cursor fn = Some body
          ∧ length (filter (λ c, kind c ≠ DECL_STMT) (get_children body)) ≤ 6.

(** The body of [callee] has a direct child that calls a target. *)
Definition calls_target (callee : Cursor) : Prop :=
  ∃ body ch, _function_body_cursor callee = Some body
             ∧ ch ∈ get_children body
             ∧ kind ch = CALL_EXPR ∧ _callee_name tu ch ∈ T.

(** [reaches_small k call]: a chain of [k] bodies of small functions leads
    from [call] to a call whose callee name is a target. *)
Inductive reaches_small : nat → Cursor → Prop :=
  | reaches_small_target call callee ch :
      _callee_definition tu call = Some callee → small_body callee →
      callee_calls tu call ch → _callee_name tu ch ∈ T → reaches_small 1 call
  | reaches_small_hop k call callee ch :
      _callee_definition tu call = Some callee → small_body callee →
      callee_calls tu call ch → reaches_small k ch → reaches_small (S k) call.

End ContributionWords.

(** ** Words for the return pass-through *)

(** The nodes of the tree of [n], [n] included, in source order. *)
Fixpoint subtree (n : Cursor) : list Cursor :=
  n :: flat_map subtree (get_children n).

(** The return statements anywhere in the body of [fn]. *)
Definition returns_of (fn : Cursor) : list Cursor :=
  match _function_body_cursor fn with
  | Some body => filter (λ n, kind n = RETURN_STMT) (subtree body)
  | None => []
  end.

(** A parenthesis, a C-style cast or an unexposed node. *)
Definition wrapper (k : CursorKind) : Prop :=
  k = PAREN_EXPR ∨ k = CSTYLE_CAST_EXPR ∨ k = UNEXPOSED_EXPR.

(** [strips_to e s]: [s] is the expression [e] with its wrappers taken off,
    going from a wrapper that has children to its last child. *)
Inductive strips_to : Cursor → Cursor → Prop :=
  | strips_here e :
      ¬ wrapper (kind e) ∨ get_children e = [] → strips_to e e
  | strips_in e x s :
      wrapper (kind e) → last (get_children e) = Some x → strips_to x s →
      strips_to e s.

(** A binary, unary or ternary operator. *)
Definition operator_root (s : Cursor) : Prop :=
  kind s = BINARY_OPERATOR ∨ kind s = UNARY_OPERATOR ∨ kind s = CONDITIONAL_OPERATOR.

(** The two cursors are located at the same place of the same file. *)
Definition same_site (a b : Cursor) : Prop :=
  ∃ f l c, location a = Some (mkLoc (Some f) l c)
           ∧ location b = Some (mkLoc (Some f) l c).

(** A call located at one of the matching call sites. *)
Definition site_call (calls : list Cursor) (s : Cursor) : Prop :=
  kind s = CALL_EXPR ∧ ∃ m, m ∈ calls ∧ same_site m s.

(** The return statement [ret] returns a matching call directly: its
    expression, stripped, is a call at a matching call site. (Should the
    statement have several children, the first one that strips to such a
    call, with no operator at the root of an earlier one.) *)
Definition direct_return (calls : list Cursor) (ret : Cursor) : Prop :=
  ∃ pre e post s,
    get_children ret = pre ++ e :: post
    ∧ strips_to e s ∧ site_call calls s
    ∧ Forall (λ p, ∃ sp, strips_to p sp ∧ ¬ operator_root sp) pre.

(** [count_where P l n]: [n] elements of [l] satisfy [P]. *)
Inductive count_where {A} (P : A → Prop) : list A → nat → Prop :=
  | count_nil : count_where P [] 0
  | count_yes x l n : P x → count_where P l n → count_where P (x :: l) (S n)
  | count_no x l n : ¬ P x → count_where P l n → count_where P (x :: l) n.

(** ** Further cursors and a host for the examples *)

Module MoreExamples.

Import Examples.

(** The call [h2(fd)] of line 14 and the call [h(fd)] of line 12. *)
Definition h2_call : Cursor :=
  call "h2" 1407 (at_ 14 31) 1300 (Some 1300%N) [ref_to "fd" 1410 (at_ 14 34) 1401].

Definition h_call : Cursor :=
  call "h" 1203 (at_ 12 19) 1100 (Some 1100%N) [ref_to "fd" 1206 (at_ 12 21) 1201].

(** The two statements of the block of line 14, each in a block of its own. *)
Definition block_h2 : Cursor := node COMPOUND_STMT 1420 (at_ 14 29) [h2_call].
Definition block_close : Cursor :=
  node COMPOUND_STMT 1421 (at_ 14 39) [close_call 1412 14 39 1401].

(** The argument [fd] of [close(fd)] in line 6, as clang wraps it, and the
    reference inside. *)
Definition wd_arg : Cursor := ref_to "fd" 607 (at_ 6 30) 601.
Definition wd_ref : Cursor :=
  mkCursor DECL_REF_EXPR "fd" "fd" 608 (at_ 6 30) None (Some 601%N) None ["fd"] None "" [].

(** The body of [wd] and of [so], and the string literal of line 15. *)
Definition wd_body : Cursor :=
  node COMPOUND_STMT 602 (at_ 6 15) [node RETURN_STMT 603 (at_ 6 17) [wd_close]].

Definition so_body : Cursor :=
  node COMPOUND_STMT 1502 (at_ 15 16)
    [node RETURN_STMT 1503 (at_ 15 18) [sys_openat_call]].

Definition so_literal : Cursor := node STRING_LITERAL 1511 (at_ 15 49) [].

(** The call [sync()] of line 8. *)
Definition sync_call : Cursor := call "sync" 802 (at_ 8 14) 3 None [].

(** Further lines of [w.c]:
<<
16  long wn(int fd){ if(fd<0) { return -1; } return (long)(close(fd)); }
17  static int big(int fd){ ;;;;;;; h(fd); return 0; }
18  static int h3(int fd){ h2(fd); return 0; }
19  static int f2(int fd){ h3(fd); h2(fd); return 0; }
20  void v3(int fd){ big(fd); f2(fd); }
>>
*)

(** Line 16: the first return is inside the block of the [if], and its
    [-1] is converted to [long]; the second returns the call through a cast
    and a pair of parentheses. *)
Definition wn_fd : Cursor := param "fd" 1601 (at_ 16 13).
Definition wn_close : Cursor := close_call 1617 16 56 1601.

Definition wn_return_minus_one : Cursor :=
  node RETURN_STMT 1609 (at_ 16 29)
    [node UNEXPOSED_EXPR 1610 (at_ 16 36) [minus_one 1611 16 36]].

Definition wn_return_close : Cursor :=
  node RETURN_STMT 1614 (at_ 16 42)
    [node CSTYLE_CAST_EXPR 1615 (at_ 16 49)
       [node PAREN_EXPR 1616 (at_ 16 55) [wn_close]]].

Definition wn_nested : Cursor :=
  func "wn" "long" 1600 (at_ 16 6) [wn_fd]
    [node COMPOUND_STMT 1602 (at_ 16 16)
       [ node IF_STMT 1603 (at_ 16 18)
           [ fd_negative 1604 16 21 1601;
             node COMPOUND_STMT 1608 (at_ 16 27) [wn_return_minus_one] ];
         wn_return_close ]].

(** Line 17: a callee of nine statements, seven of them empty. *)
Definition big_fd : Cursor := param "fd" 1701 (at_ 17 20).

Definition big_h_call : Cursor :=
  call "h" 1710 (at_ 17 33) 1100 (Some 1100%N) [ref_to "fd" 1713 (at_ 17 35) 1701].

Definition big_body : Cursor :=
  node COMPOUND_STMT 1702 (at_ 17 23)
    [ node NULL_STMT 1703 (at_ 17 25) []; node NULL_STMT 1704 (at_ 17 26) [];
      node NULL_STMT 1705 (at_ 17 27) []; node NULL_STMT 1706 (at_ 17 28) [];
      node NULL_STMT 1707 (at_ 17 29) []; node NULL_STMT 1708 (at_ 17 30) [];
      node NULL_STMT 1709 (at_ 17 31) [];
      big_h_call;
      node RETURN_STMT 1716 (at_ 17 40) [int_lit 1717 (at_ 17 47)] ].

Definition big_helper : Cursor := func "big" "int" 1700 (at_ 17 12) [big_fd] [big_body].

(** Line 18 *)
Definition h3_fd : Cursor := param "fd" 1801 (at_ 18 19).

Definition h3_helper : Cursor :=
  func "h3" "int" 1800 (at_ 18 12) [h3_fd]
    [node COMPOUND_STMT 1802 (at_ 18 22)
       [ call "h2" 1803 (at_ 18 24) 1300 (Some 1300%N)
           [ref_to "fd" 1806 (at_ 18 27) 1801];
         node RETURN_STMT 1808 (at_ 18 32) [int_lit 1809 (at_ 18 39)] ]].

(** Line 19: the body calls [h3] and then [h2], which [h3] calls too. *)
Definition f2_fd : Cursor := param "fd" 1901 (at_ 19 19).

Definition f2_h2_call : Cursor :=
  call "h2" 1908 (at_ 19 32) 1300 (Some 1300%N) [ref_to "fd" 1911 (at_ 19 35) 1901].

Definition f2_body : Cursor :=
  node COMPOUND_STMT 1902 (at_ 19 22)
    [ call "h3" 1903 (at_ 19 24) 1800 (Some 1800%N)
        [ref_to "fd" 1906 (at_ 19 27) 1901];
      f2_h2_call;
      node RETURN_STMT 1913 (at_ 19 40) [int_lit 1914 (at_ 19 47)] ].

Definition f2_helper : Cursor := func "f2" "int" 1900 (at_ 19 12) [f2_fd] [f2_body].

(** Line 20: the calls [big(fd)] and [f2(fd)]. *)
Definition v3_fd : Cursor := param "fd" 2001 (at_ 20 13).

Definition big_call : Cursor :=
  call "big" 2003 (at_ 20 18) 1700 (Some 1700%N) [ref_to "fd" 2006 (at_ 20 22) 2001].

Definition f2_call : Cursor :=
  call "f2" 2008 (at_ 20 27) 1900 (Some 1900%N) [ref_to "fd" 2011 (at_ 20 30) 2001].

Definition v3_caller : Cursor :=
  func "v3" "void" 2000 (at_ 20 6) [v3_fd]
    [node COMPOUND_STMT 2002 (at_ 20 16) [big_call; f2_call]].

(** The call [h(fd)] of line 13, inside [h2], and the call [close(fd)] of
    line 11, inside [h], with the two bodies. *)
Definition h2_h_call : Cursor :=
  call "h" 1303 (at_ 13 24) 1100 (Some 1100%N) [ref_to "fd" 1306 (at_ 13 26) 1301].

Definition h2_body : Cursor :=
  node COMPOUND_STMT 1302 (at_ 13 22)
    [h2_h_call; node RETURN_STMT 1308 (at_ 13 31) [int_lit 1309 (at_ 13 38)]].

Definition h_close : Cursor := close_call 1103 11 23 1101.

Definition h_body : Cursor :=
  node COMPOUND_STMT 1102 (at_ 11 21)
    [h_close; node RETURN_STMT 1108 (at_ 11 34) [int_lit 1109 (at_ 11 41)]].

(** The translation unit with the lines 16 to 20. *)
Definition tu2 : gmap N Cursor :=
  list_to_map
    [ (1600%N, wn_nested); (1601%N, wn_fd); (1700%N, big_helper); (1701%N, big_fd);
      (1800%N, h3_helper); (1801%N, h3_fd); (1900%N, f2_helper); (1901%N, f2_fd);
      (2000%N, v3_caller); (2001%N, v3_fd) ]
  ∪ tu.

(** A helper configuration in which [close] is benign. *)
Definition close_benign : HelperConfig := mkHelperConfig {["close"]} [] ∅ [].

(** A host for absolute and relative paths: a relative path is taken
    below the working directory [/cwd]; no response files, no symbolic
    links, no multiarch directory, no clang resource directory. *)
Definition absolute (p : string) : string :=
  if Py.startswith "/" p then p else "/cwd/" +:+ p.

Definition posix_host : Host :=
  mkHost false (λ _, None) (Py.startswith "/") id absolute
         (λ base p, absolute base +:+ "/" +:+ p)
         (λ p, absolute (dirname (absolute p)))
         (λ _, false) (λ _, false) [] None.

End MoreExamples.

(** ** callgraph.py: the aggregation of [write_callgraph] *)

(** An edge of the call graph. [Edge(caller, callee, loc)] has no keys
    ([getattr(e, "caller_key", None)] is [None]); [DetailedEdge] has them. *)
Record CallEdge := mkCallEdge {
  e_caller_key : option string;
  e_callee_key : option string;
  e_caller : string;
  e_callee : string;
  e_loc : option string }.

(** [x or y] for an attribute that may be [None] *)
Definition opt_or (x : option string) (y : string) : string :=
  match x with
  | Some s => Py.str_or s y
  | None => y
  end.

Definition caller_k (e : CallEdge) : string := opt_or (e_caller_key e) (e_caller e).
Definition callee_k (e : CallEdge) : string := opt_or (e_callee_key e) (e_callee e).

(** [(str(loc), str(caller_k), str(callee_k))] *)
Definition edge_key (e : CallEdge) : string * string * string :=
  (opt_or (e_loc e) "<unknown>", caller_k e, callee_k e).

(** The first loop: the edges kept, in order, with [seen_edge_keys]. *)
Definition dedup_edges (edges : list CallEdge) : list CallEdge :=
  snd (foldl (λ '(seen_edge_keys, dedup) e,
                if decide (edge_key e ∈ seen_edge_keys) then (seen_edge_keys, dedup)
                else ({[edge_key e]} ∪ seen_edge_keys, dedup ++ [e]))
             ((∅ : gset (string * string * string)), []) edges).

(** The second loop: [counts] and [callers_by_callee]. *)
Definition call_counts (dedup : list CallEdge)
    : gmap string nat * gmap string (gset string) :=
  foldl (λ '(counts, callers_by_callee) e,
           if negb (Py.truthy (callee_k e)) then (counts, callers_by_callee)
           else
             (<[callee_k e := default 0 (counts !! callee_k e) + 1]> counts,
              if Py.truthy (caller_k e)
              then <[callee_k e := {[caller_k e]}
                                   ∪ default ∅ (callers_by_callee !! callee_k e)]>
                     callers_by_callee
              else callers_by_callee))
        ((∅ : gmap string nat), (∅ : gmap string (gset string))) dedup.

(** * Properties *)

Section Properties.

Context (tu : gmap N Cursor).

(** ** Strict-plus: the early rejections *)


(** ** The per-path counter, case by case *)

(** Splits the three parts of [pr_ok]. *)
Ltac split3 := (split; [|split]); simpl.

Section Counter.

Context (T : gset string) (H : HelperConfig).

Lemma analyze_stmt_call stmt h :
  kind stmt = CALL_EXPR →
  analyze_stmt tu stmt T H h =
    if is_helper_call tu stmt H which_benign then mkPathResult {[0]} false
    else mkPathResult
           {[ if decide (_callee_name tu stmt ∈ T) then 1
              else if mapped_in (resolve_syscall_indirection tu stmt) T then 1
              else if _call_hits_target_via_one_hop tu stmt T
                      || ((1 <? h) && _call_hits_target_via_n_hops tu stmt T h)
              then 1 else 0 ]} false.
Proof. destruct stmt; simpl; intros ->; reflexivity. Qed.

Lemma analyze_stmt_loop_eq stmt h :
  is_loop_kind (kind stmt) = true →
  analyze_stmt tu stmt T H h =
    match foldl (λ body ch,
                   if decide (kind ch = COMPOUND_STMT)
                   then Some (analyze_stmt tu ch T H 1) else body)
                None (get_children stmt) with
    | None => mkPathResult {[2]} true
    | Some pr_body => spec_loop_result pr_body
    end.
Proof.
  destruct stmt as [k ? ? ? ? ? ? ? ? ? ? kids]; simpl; intros Hk.
  destruct k; try discriminate Hk; reflexivity.
Qed.

Lemma elem_of_012 (x : nat) : x ∈ ({[0; 1; 2]} : gset nat) ↔ x ≤ 2.
Proof. set_unfold. lia. Qed.

Lemma pr_ok_single n : n ≤ 2 → pr_ok (mkPathResult {[n]} false).
Proof.
  intros Hn. split3; [set_solver | | done].
  intros x ->%elem_of_singleton. by apply elem_of_012.
Qed.

Lemma pr_ok_merge a b : pr_ok a → pr_ok b → pr_ok (_merge_pr a b).
Proof.
  intros (Ha1 & Ha2 & Ha3) (Hb1 & Hb2 & Hb3). split3.
  - set_solver.
  - set_solver.
  - intros [?|?]%orb_true_iff; set_solver.
Qed.

Lemma cap_union_spec acc v x :
  acc ≠ ∅ →
  x ∈ cap_union acc v ↔ ∃ a, a ∈ acc ∧ x = (if a + v <=? 2 then a + v else 2).
Proof.
  intros Hne. unfold cap_union. rewrite decide_False by done.
  rewrite elem_of_map. naive_solver.
Qed.

(** One step of the loop of a compound statement keeps the shape. *)
Lemma compound_step_ok acc unk child :
  pr_ok (mkPathResult acc unk) → pr_ok child →
  pr_ok (mkPathResult (set_bind (cap_union acc) (counts child))
                      (unk || unknown child)).
Proof.
  intros (Ha1 & Ha2 & Ha3) (Hc1 & Hc2 & Hc3); simpl in *.
  apply set_choose_L in Ha1 as [a Ha]. apply set_choose_L in Hc1 as [v Hv].
  assert (Hne : acc ≠ ∅) by set_solver.
  split3.
  - apply (non_empty_inhabited_L (if a + v <=? 2 then a + v else 2)).
    apply elem_of_set_bind. exists v. split; [done|].
    apply cap_union_spec; eauto.
  - intros x (v' & Hv' & Hx)%elem_of_set_bind.
    apply cap_union_spec in Hx as (a' & _ & ->); [|done].
    apply elem_of_012. case_match; [by apply Nat.leb_le | lia].
  - intros [Hu|Hu]%orb_true_iff.
    + apply elem_of_set_bind. exists v. split; [done|].
      apply cap_union_spec; [done|]. exists 2. split; [auto|].
      case_match eqn:E; [apply Nat.leb_le in E; lia | done].
    + apply elem_of_set_bind. exists 2. split; [auto|].
      apply cap_union_spec; [done|]. exists a. split; [done|].
      case_match eqn:E; [apply Nat.leb_le in E; lia | done].
Qed.

Lemma spec_loop_result_ok B : pr_ok B → pr_ok (spec_loop_result B).
Proof.
  intros (HB1 & HB2 & HB3). unfold spec_loop_result.
  case_bool_decide as Hex.
  - split3; [set_solver | | set_solver].
    intros x ->%elem_of_singleton. by apply elem_of_012.
  - split3.
    + set_solver.
    + intros x [?|?]%elem_of_union; [auto|]. apply elem_of_012. set_unfold. lia.
    + intros Hu. exfalso. apply Hex. exists 2. split; [auto | lia].
Qed.

(** In the second case of the loop rule the summary is never unknown. *)
Lemma spec_loop_result_known B :
  pr_ok B → ¬ set_Exists (λ x, 2 ≤ x) (counts B) → unknown B = false.
Proof.
  intros (_ & _ & HB) Hno. destruct (unknown B); [|done].
  exfalso. apply Hno. exists 2. split; [auto | lia].
Qed.

(** Every summary of [analyze_stmt] has the shape [pr_ok], for every
    statement, hop bound included. *)
Lemma analyze_stmt_ok stmt : (ok_at tu T H) stmt.
Proof.
  cut ((ok_at tu T H) stmt ∧ Forall (ok_at tu T H) (get_children stmt)); [tauto|].
  induction stmt as [c IH] using Cursor_nested_ind.
  assert (Hkids : Forall (ok_at tu T H) (get_children c)).
  { eapply Forall_impl; [exact IH|]. by intros ? [? _]. }
  assert (Hgrand : Forall (λ ch, Forall (ok_at tu T H) (get_children ch)) (get_children c)).
  { eapply Forall_impl; [exact IH|]. by intros ? [_ ?]. }
  split; [|done]. clear IH. intros h.
  destruct c as [k sp dn hs lc df rf cn tk ev rt kids]; simpl in Hkids, Hgrand.
  simpl.
  destruct (decide (k = RETURN_STMT)).
  { apply pr_ok_single. case_match eqn:E; [by apply Nat.leb_le | lia]. }
  destruct (decide (k = CALL_EXPR)).
  { case_match; apply pr_ok_single; repeat case_match; lia. }
  destruct (decide (k = IF_STMT)).
  { apply (pr_ok_merge
             (match kids with _ :: b :: _ => analyze_stmt tu b T H h
                         | _ => mkPathResult {[0]} false end)
             (match kids with _ :: _ :: b :: _ => analyze_stmt tu b T H h
                         | _ => mkPathResult {[0]} false end)).
    - destruct kids as [|? [|b ?]]; try (apply pr_ok_single; lia).
      inversion Hkids as [|? ? _ Hk2]; inversion Hk2; subst; auto.
    - destruct kids as [|? [|? [|b ?]]]; try (apply pr_ok_single; lia).
      inversion Hkids as [|? ? _ Hk2]; inversion Hk2 as [|? ? _ Hk3];
        inversion Hk3; subst; auto. }
  destruct (decide (k = SWITCH_STMT)).
  { match goal with |- context [foldl ?f ?a kids] => set (acc := foldl f a kids) end.
    assert (Hacc : counts acc ⊆ {[0; 1; 2]} ∧ (unknown acc = true → 2 ∈ counts acc)).
    { subst acc.
      cut (∀ a, (counts a ⊆ {[0; 1; 2]} ∧ (unknown a = true → 2 ∈ counts a)) →
                let r := foldl (λ acc_pr ch,
                    if decide (kind ch = CASE_STMT ∨ kind ch = DEFAULT_STMT)
                    then _merge_pr acc_pr
                           match get_children ch with
                           | _ :: body :: _ => analyze_stmt tu body T H h
                           | _ => mkPathResult {[0]} false
                           end
                    else acc_pr) a kids in
                counts r ⊆ {[0; 1; 2]} ∧ (unknown r = true → 2 ∈ counts r)).
      { intros Hcut. apply Hcut. simpl. split; [set_solver | done]. }
      clear Hkids. induction kids as [|ch rest IHr]; intros a Ha; [exact Ha|].
      inversion Hgrand as [|? ? Hch Hrest]; subst. simpl.
      apply IHr; [done|]. case_decide; [|done].
      assert (Hb : pr_ok match get_children ch with
                         | _ :: body :: _ => analyze_stmt tu body T H h
                         | _ => mkPathResult {[0]} false
                         end).
      { destruct (get_children ch) as [|? [|b ?]]; try (apply pr_ok_single; lia).
        inversion Hch as [|? ? _ Hk2]; inversion Hk2; subst; auto. }
      destruct Ha as [Ha1 Ha2], Hb as (Hb1 & Hb2 & Hb3). split; simpl.
      - set_solver.
      - intros [?|?]%orb_true_iff; set_solver. }
    destruct Hacc as [Hacc1 Hacc2]. case_decide as Hem.
    - split3; [set_solver | set_solver | ].
      intros Hu. specialize (Hacc2 Hu). set_solver.
    - by split3. }
  destruct (decide (k = CONDITIONAL_OPERATOR)).
  { apply pr_ok_merge.
    - destruct kids as [|? [|b ?]]; try (apply pr_ok_single; lia).
      inversion Hkids as [|? ? _ Hk2]; inversion Hk2; subst; auto.
    - destruct kids as [|? [|? [|b ?]]]; try (apply pr_ok_single; lia).
      inversion Hkids as [|? ? _ Hk2]; inversion Hk2 as [|? ? _ Hk3];
        inversion Hk3; subst; auto. }
  destruct (is_loop_kind k).
  { match goal with |- context [foldl ?f None kids] => set (body := foldl f None kids) end.
    assert (Hbody : ∀ pr, body = Some pr → pr_ok pr).
    { subst body.
      cut (∀ b, (∀ pr, b = Some pr → pr_ok pr) →
                ∀ pr, foldl (λ body ch,
                        if decide (kind ch = COMPOUND_STMT)
                        then Some (analyze_stmt tu ch T H 1) else body) b kids = Some pr →
                      pr_ok pr).
      { intros Hcut. apply Hcut. discriminate. }
      clear Hgrand. induction kids as [|ch rest IHr]; intros b Hb pr; simpl; [auto|].
      inversion Hkids; subst. apply IHr; [done|].
      case_decide; [|done]. intros ? [= <-]. auto. }
    destruct body as [pr|].
    - apply (spec_loop_result_ok pr). auto.
    - split3; [set_solver | | set_solver].
      intros x ->%elem_of_singleton. by apply elem_of_012. }
  destruct (decide (k = COMPOUND_STMT)).
  { cut (∀ acc unk, pr_ok (mkPathResult acc unk) →
           pr_ok (let '(acc, unknown_) :=
                    foldl (λ '(acc, unknown_) ch,
                             let child := analyze_stmt tu ch T H h in
                             (set_bind (cap_union acc) (counts child),
                              unknown_ || unknown child)) (acc, unk) kids in
                  mkPathResult acc unknown_)).
    { intros Hcut. apply Hcut. apply pr_ok_single. lia. }
    clear Hgrand. induction kids as [|ch rest IHr]; intros acc unk Ha; simpl; [done|].
    inversion Hkids; subst. apply IHr; [done|]. apply compound_step_ok; auto. }
  cut (∀ a, pr_ok a →
         pr_ok (foldl (λ acc_pr ch, _merge_pr acc_pr (analyze_stmt tu ch T H h)) a kids)).
  { intros Hcut. apply Hcut. apply pr_ok_single. lia. }
  clear Hgrand. induction kids as [|ch rest IHr]; intros a Ha; simpl; [done|].
  inversion Hkids; subst. apply IHr; [done|]. apply pr_ok_merge; auto.
Qed.

(** The candidate body the loop over the children ends with. *)
Lemma loop_body_fold {A} (f : Cursor → A) (kids : list Cursor) :
  foldl (λ body ch, if decide (kind ch = COMPOUND_STMT) then Some (f ch) else body)
        None kids
  = f <$> last (filter (λ ch, kind ch = COMPOUND_STMT) kids).
Proof.
  induction kids as [|x l IHl] using rev_ind; [done|].
  rewrite foldl_app, filter_app. simpl. rewrite IHl.
  rewrite filter_cons, filter_nil. case_decide.
  - by rewrite last_snoc.
  - by rewrite app_nil_r.
Qed.

(** The summary of a loop, exactly: the rule applied to the summary of
    the last compound-statement child under the hop bound 1. *)
Lemma analyze_stmt_loop_bound_1 (stmt : Cursor) (h : nat) :
  is_loop_kind (kind stmt) = true →
  analyze_stmt tu stmt T H h
  = match loop_body stmt with
    | None => mkPathResult {[2]} true
    | Some body => spec_loop_result (analyze_stmt tu body T H 1)
    end.
Proof.
  intros Hk. rewrite (analyze_stmt_loop_eq stmt h Hk), loop_body_fold.
  unfold loop_body. by destruct (last _).
Qed.

(** C4. For every statement, target set, helper configuration and hop
    bound, the counts of the summary of [analyze_stmt] are a non-empty
    subset of {0, 1, 2}, so their maximum is at most 2, whether the summary
    is unknown or not. *)
Theorem analyze_stmt_saturation (stmt : Cursor) (h : nat) :
  let pr := analyze_stmt tu stmt T H h in
  counts pr ≠ ∅ ∧ counts pr ⊆ {[0; 1; 2]} ∧ Py.max_or_0 (counts pr) ≤ 2.
Proof.
  destruct (analyze_stmt_ok stmt h) as (Hne & Hsub & _). simpl.
  split; [done|]. split; [done|].
  unfold Py.max_or_0.
  assert (Hall : ∀ x, x ∈ elements (counts (analyze_stmt tu stmt T H h)) → x ≤ 2).
  { intros x Hx%elem_of_elements. by apply elem_of_012, Hsub. }
  induction (elements (counts (analyze_stmt tu stmt T H h))) as [|x l IHl]; simpl.
  - lia.
  - apply Nat.max_lub.
    + apply Hall. by left.
    + apply IHl. intros y Hy. apply Hall. by right.
Qed.

(** C2 (amended). For a for, while or do statement without a
    compound-statement child the summary is counts {2} and unknown. When it
    has one, let [B] be the summary of the last such child, for the same
    targets and helpers (and some hop bound): if some count of [B] is at
    least 2 the summary of the loop is counts {2} and unknown; otherwise it
    is the counts of [B] with 0 and 1 added and the unknown flag of [B],
    which is false. *)
Theorem analyze_stmt_loop (stmt : Cursor) (h : nat) :
  is_loop_kind (kind stmt) = true →
  match loop_body stmt with
  | None => analyze_stmt tu stmt T H h = mkPathResult {[2]} true
  | Some body =>
      ∃ h', let B := analyze_stmt tu body T H h' in
        (set_Exists (λ x, 2 ≤ x) (counts B) →
           analyze_stmt tu stmt T H h = mkPathResult {[2]} true)
        ∧ (¬ set_Exists (λ x, 2 ≤ x) (counts B) →
           analyze_stmt tu stmt T H h = mkPathResult (counts B ∪ {[0; 1]}) (unknown B)
           ∧ unknown B = false)
  end.
Proof.
  intros Hk. rewrite (analyze_stmt_loop_eq stmt h Hk), loop_body_fold.
  unfold loop_body. destruct (last _) as [body|]; simpl; [|done].
  exists 1. simpl. unfold spec_loop_result. split.
  - intros Hex. by rewrite bool_decide_eq_true_2.
  - intros Hno. rewrite bool_decide_eq_false_2 by done. split; [done|].
    eapply spec_loop_result_known; [apply analyze_stmt_ok | done].
Qed.

Lemma search_sys_truthy txt m : search_sys txt = Some m → Py.truthy m = true.
Proof.
  induction txt as [|c r IH]; simpl.
  - unfold match_sys_here. simpl. discriminate.
  - destruct (match_sys_here (String c r)) as [w|] eqn:E; [|exact IH].
    intros [= <-]. revert E. unfold match_sys_here.
    repeat case_match; naive_solver.
Qed.

Lemma resolve_syscall_indirection_spec call :
  resolve_syscall_indirection tu call = spec_syscall_target tu call.
Proof.
  unfold resolve_syscall_indirection, spec_syscall_target.
  destruct (decide (_callee_name tu call = "syscall")) as [->|Hn].
  - rewrite decide_False by (intros Hc; by apply Hc).
    destruct (get_children call) as [|? [|sel ?]]; try done.
    destruct (search_sys _); [done|].
    destruct (evaluated sel) as [num|]; [|done].
    unfold SYSNR_TO_NAME. rewrite lookup_empty. by destruct (Py.truthy num).
  - by rewrite decide_True.
Qed.

Lemma mapped_in_spec call :
  mapped_in (resolve_syscall_indirection tu call) T
  = match spec_syscall_target tu call with
    | Some foo => bool_decide (foo ∈ T)
    | None => false
    end.
Proof.
  rewrite resolve_syscall_indirection_spec. unfold mapped_in, spec_syscall_target.
  case_decide; [|done].
  destruct (get_children call) as [|? [|sel ?]]; try done.
  destruct (search_sys _) as [m|] eqn:E; [|done].
  by rewrite (search_sys_truthy _ _ E).
Qed.

End Counter.

(** ** The early-guard test *)

(** A branch whose children are neither return statements nor compound
    statements, as the children of a bare [return <expr>;] are, is not
    recognised. *)
Lemma branch_of_expressions_not_immediate (node : Cursor) :
  Forall (λ ch, kind ch ≠ RETURN_STMT ∧ kind ch ≠ COMPOUND_STMT) (get_children node) →
  branch_has_immediate_return (Some node) = false.
Proof.
  simpl. induction 1 as [|ch rest [Hr Hc] _ IH]; simpl; [done|].
  rewrite IH. by rewrite !bool_decide_eq_false_2.
Qed.

(** A branch with a return statement among its children, as a compound
    statement that starts with a return has, is recognised. *)
Lemma branch_with_return_child_immediate (node ret : Cursor) :
  ret ∈ get_children node → kind ret = RETURN_STMT →
  branch_has_immediate_return (Some node) = true.
Proof.
  intros Hin Hk. simpl. apply existsb_exists. exists ret.
  split; [by apply list_elem_of_In|]. by rewrite bool_decide_eq_true_2.
Qed.

(** A function whose first statement after the declarations and the
    helper calls is an if-statement with a return statement among the
    children of its then- or else-branch has the early guard. *)
Lemma early_guard_compound_branch (func body s branch ret : Cursor)
    (helpers : HelperConfig) (rest : list Cursor) :
  _function_body_cursor func = Some body →
  skip_helper_calls tu helpers (filter (λ c, kind c ≠ DECL_STMT) (get_children body))
  = s :: rest →
  kind s = IF_STMT →
  get_children s !! 1 = Some branch ∨ get_children s !! 2 = Some branch →
  ret ∈ get_children branch → kind ret = RETURN_STMT →
  has_early_guard_return tu func helpers = true.
Proof.
  intros Hbody Hskip Hif Hbranch Hin Hret. unfold has_early_guard_return.
  rewrite Hbody, Hskip. rewrite decide_False by (intros Hn; by apply Hn).
  apply orb_true_iff.
  destruct Hbranch as [-> | ->]; [left | right];
    by eapply branch_with_return_child_immediate.
Qed.

(** A function whose first statement after the declarations and the
    helper calls is an if-statement without else-branch whose then-branch
    has only expressions as children, as [if (c) return e;], has not. *)
Lemma early_guard_bare_return_branch (func body s branch : Cursor)
    (helpers : HelperConfig) (rest : list Cursor) :
  _function_body_cursor func = Some body →
  skip_helper_calls tu helpers (filter (λ c, kind c ≠ DECL_STMT) (get_children body))
  = s :: rest →
  get_children s !! 1 = Some branch → get_children s !! 2 = None →
  Forall (λ ch, kind ch ≠ RETURN_STMT ∧ kind ch ≠ COMPOUND_STMT) (get_children branch) →
  has_early_guard_return tu func helpers = false.
Proof.
  intros Hbody Hskip Hthen Helse Hexpr. unfold has_early_guard_return.
  rewrite Hbody, Hskip. case_decide; [done|]. rewrite Hthen, Helse.
  by rewrite branch_of_expressions_not_immediate.
Qed.

(** ** The relaxed analyzer *)

Lemma resolve_target_name_in call catalog nm :
  _resolve_target_name_for_call tu call catalog = Some nm → nm ∈ target_names catalog.
Proof.
  unfold _resolve_target_name_for_call. case_decide as Hin; [by intros [= <-]|].
  destruct (mapped_in _ _) eqn:Hm.
  - destruct (resolve_syscall_indirection tu call) as [m|]; [|done].
    simpl in Hm. apply andb_true_iff in Hm as [_ Hm%bool_decide_eq_true].
    by intros [= <-].
  - case_match; [|done]. destruct (_inner_target_from_one_hop _ _ _) as [inner|]; [|done].
    destruct (Py.truthy inner && _) eqn:Hi; [|done].
    apply andb_true_iff in Hi as [_ Hi%bool_decide_eq_true]. by intros [= <-].
Qed.

Lemma truthy_ne (s : string) : Py.truthy s = true ↔ s ≠ "".
Proof. destruct s; simpl; split; congruence. Qed.

Lemma resolved_hits_elem fn catalog nm loc :
  (nm, loc) ∈ resolved_hits tu fn catalog ↔
  ∃ call, (call, loc) ∈ collect_target_calls tu fn (target_names catalog)
          ∧ _resolve_target_name_for_call tu call catalog = Some nm ∧ nm ≠ "".
Proof.
  unfold resolved_hits. rewrite list_elem_of_omap. split.
  - intros ([call loc'] & Hin & Hres).
    destruct (_resolve_target_name_for_call tu call catalog) as [nm'|] eqn:E; [|done].
    destruct (Py.truthy nm') eqn:Ht; [|done]. injection Hres as <- <-.
    exists call. by rewrite <- truthy_ne.
  - intros (call & Hin & Hres & Hne). exists (call, loc). split; [done|].
    rewrite Hres. apply truthy_ne in Hne. by rewrite Hne.
Qed.

(** C7. For a function with a body, the relaxed analyzer accepts exactly
    when the per-path counter, run with hop bound 2, yields a count above 0
    and some collected call resolves to a target name (a non-empty one, as
    every name is); an unknown summary does not reject. On acceptance [per_path_single] tells whether the
    counts are within {0, 1}, [derived_from_params] is true with an empty
    trace, [pair_used] and [via_helper_hop] are false and the reason is
    ["ok"]. *)
Theorem relaxed_accepts_iff (func body : Cursor) (catalog : ApiCatalog) :
  _function_body_cursor func = Some body →
  let pr := analyze_stmt tu body (target_names catalog) (cat_helpers catalog) 2 in
  let v := analyze_wrapper_relaxed tu func catalog in
  (keep v = true ↔
     (∃ c, c ∈ counts pr ∧ 0 < c)
     ∧ (∃ call loc nm,
          (call, loc) ∈ collect_target_calls tu func (target_names catalog)
          ∧ _resolve_target_name_for_call tu call catalog = Some nm
          ∧ nm ∈ target_names catalog ∧ nm ≠ ""))
  ∧ (keep v = true →
       per_path_single v = bool_decide (counts pr ⊆ {[0; 1]})
       ∧ derived_from_params v = true ∧ derivation_trace v = []
       ∧ pair_used v = false ∧ via_helper_hop v = false ∧ reason v = "ok").
Proof.
  intros Hbody pr v. subst v. unfold analyze_wrapper_relaxed. rewrite Hbody.
  cbn zeta. fold pr.
  assert (Hhits : resolved_hits tu func catalog ≠ [] ↔
            ∃ call loc nm,
              (call, loc) ∈ collect_target_calls tu func (target_names catalog)
              ∧ _resolve_target_name_for_call tu call catalog = Some nm
              ∧ nm ∈ target_names catalog ∧ nm ≠ "").
  { split.
    - destruct (resolved_hits tu func catalog) as [|[nm loc] rest] eqn:E; [done|].
      intros _. assert (Hin : (nm, loc) ∈ resolved_hits tu func catalog).
      { rewrite E. by left. }
      apply resolved_hits_elem in Hin as (call & Hin & Hres & Hne).
      exists call, loc, nm. eauto using resolve_target_name_in.
    - intros (call & loc & nm & Hin & Hres & _ & Hne) Hnil.
      assert (Hx : (nm, loc) ∈ resolved_hits tu func catalog).
      { apply resolved_hits_elem. eauto. }
      rewrite Hnil in Hx. by apply elem_of_nil in Hx. }
  case_bool_decide as Hany; simpl.
  - case_decide as Hlen; simpl.
    + split; [|done]. split; [done|]. intros [_ Hex]. apply Hhits in Hex.
      rewrite length_map in Hlen. by destruct (resolved_hits tu func catalog).
    + split; [|done]. split; [|done]. intros _. split; [exact Hany|].
      apply Hhits. intros Hnil. by rewrite Hnil in Hlen.
  - split; [|done]. split; [done|]. intros [Hex _]. by destruct Hany.
Qed.

(** ** Provenance with nothing to test *)

Lemma provenance_no_args_fold (state : TaintState) helpers (calls : list Cursor) acc :
  Forall (λ call, extract_call_args call = []) calls →
  foldl (λ '(ok, trace_out) call,
           foldl (λ '(ok, trace_out) '(i, arg),
                    let '(t, tr) := taint_expr tu arg state helpers in
                    (ok && t, trace_out ++ [arg_line i t tr]))
                 (ok, trace_out) (imap pair (extract_call_args call)))
        acc calls = acc.
Proof.
  intros Hall. revert acc. induction Hall as [|call rest Hc _ IH]; intros acc; [done|].
  cbn [foldl]. destruct acc as [ok trace_out]. rewrite Hc. cbn [imap foldl]. apply IH.
Qed.

Lemma provenance_no_args func calls helpers body :
  _function_body_cursor func = Some body →
  Forall (λ call, extract_call_args call = []) calls →
  check_arguments_provenance tu func calls helpers = (true, []).
Proof.
  intros Hbody Hall. unfold check_arguments_provenance. rewrite Hbody.
  by apply provenance_no_args_fold.
Qed.

(** C10. For a function with a body, [check_arguments_provenance] answers
    true, with an empty trace, when the list of counted call sites is empty
    or every counted site has no argument; so a wrapper that strict-plus
    accepts and whose target calls take no argument is reported with
    [derived_from_params = true]. *)
Theorem provenance_vacuous (func body : Cursor) (calls : list Cursor)
    (helpers : HelperConfig) :
  _function_body_cursor func = Some body →
  (calls = [] ∨ Forall (λ call, extract_call_args call = []) calls →
     check_arguments_provenance tu func calls helpers = (true, []))
  ∧ (∀ catalog thin_policy,
       Forall (λ site, extract_call_args site.1 = [])
              (collect_target_calls tu func (target_names catalog)) →
       keep (analyze_wrapper_strict_plus tu func catalog thin_policy) = true →
       derived_from_params (analyze_wrapper_strict_plus tu func catalog thin_policy) = true).
Proof.
  intros Hbody. split.
  - intros [->|Hall]; by eapply provenance_no_args.
  - intros catalog pol Hall. unfold analyze_wrapper_strict_plus. rewrite Hbody.
    cbn zeta.
    rewrite (provenance_no_args func _ (cat_helpers catalog) body Hbody)
      by (by apply Forall_fmap).
    repeat (case_match; simpl; try done).
Qed.

(** ** Return pass-through *)

Lemma strip_noop_eq (n : Cursor) :
  _strip_noop n
  = if is_noop_kind (kind n) then
      match last (get_children n) with
      | Some x => _strip_noop x
      | None => n
      end
    else n.
Proof.
  destruct n as [k sp dn hs lc df rf cn tk ev rt kids]. simpl.
  destruct (is_noop_kind k); [|done].
  set (n := mkCursor k sp dn hs lc df rf cn tk ev rt kids). clearbody n.
  induction kids as [|x [|y l] IH]; [done..|]. exact IH.
Qed.

Lemma strips_to_strip_noop n : strips_to n (_strip_noop n).
Proof.
  induction n as [n IH] using Cursor_nested_ind.
  rewrite strip_noop_eq. unfold is_noop_kind. case_bool_decide as Hk.
  - destruct (last (get_children n)) as [x|] eqn:Hl.
    + apply (strips_in n x); [done..|].
      apply last_Some in Hl as [l' Hl]. rewrite Hl in IH.
      by apply Forall_app in IH as [_ [? _]%Forall_cons].
    + apply strips_here. right. by apply last_None.
  - apply strips_here. by left.
Qed.

Lemma strips_to_fun n s : strips_to n s → s = _strip_noop n.
Proof.
  induction 1 as [e [Hk|Hc]|e x s Hk Hl _ IH]; rewrite strip_noop_eq.
  - unfold is_noop_kind. by rewrite bool_decide_eq_false_2.
  - rewrite Hc. simpl. by case_match.
  - unfold is_noop_kind. by rewrite bool_decide_eq_true_2, Hl.
Qed.

Lemma popped_subtree n : popped n ≡ₚ subtree n.
Proof.
  induction n as [n IH] using Cursor_nested_ind.
  destruct n as [k sp dn hs lc df rf cn tk ev rt kids]. simpl in *.
  constructor. induction IH as [|ch rest Hch _ IHr]; [done|].
  simpl. rewrite <- IHr, <- Hch. apply Permutation_app_comm.
Qed.

Lemma count_where_fun {A} (P : A → Prop) l n m :
  count_where P l n → count_where P l m → n = m.
Proof.
  intros Hn. revert m. induction Hn as [|x l n Hx _ IH|x l n Hx _ IH];
    intros m Hm; inversion Hm; subst; try done; auto.
Qed.

Lemma count_where_le {A} (P : A → Prop) l n : count_where P l n → n ≤ length l.
Proof. induction 1; simpl; lia. Qed.

Lemma count_where_filter {A} (P : A → Prop) (f : A → bool) l :
  (∀ x, f x = true ↔ P x) →
  count_where P l (length (filter (λ x, f x = true) l)).
Proof.
  intros Hf. induction l as [|x l IH]; [constructor|].
  rewrite filter_cons. case_decide as Hx.
  - apply count_yes; [by apply Hf | done].
  - apply count_no; [by rewrite <- Hf | done].
Qed.

Lemma count_where_none {A} (P : A → Prop) l n :
  Forall (λ x, ¬ P x) l → count_where P l n → n = 0.
Proof.
  intros Hall Hn. induction Hn as [|x l n Hx _ IH|x l n Hx _ IH]; [done| |].
  - by inversion Hall.
  - inversion Hall; auto.
Qed.

Lemma loc_key_same_site (calls : list Cursor) (s : Cursor) :
  match _cursor_loc_key s with
  | Some key => bool_decide (key ∈ (list_to_set (omap _cursor_loc_key calls)
                                     : gset (string * nat * nat)))
  | None => false
  end = true
  ↔ ∃ m, m ∈ calls ∧ same_site m s.
Proof.
  unfold _cursor_loc_key at 1. split.
  - destruct (location s) as [[[f|] l c]|] eqn:Hs; try done.
    intros Hin%bool_decide_eq_true. apply elem_of_list_to_set in Hin.
    apply list_elem_of_omap in Hin as (m & Hm & Hkey). exists m. split; [done|].
    exists f, l, c. split; [|done]. revert Hkey. unfold _cursor_loc_key.
    destruct (location m) as [[[f'|] l' c']|]; try done. by intros [= -> -> ->].
  - intros (m & Hm & f & l & c & Hlm & Hls). rewrite Hls. simpl.
    apply bool_decide_eq_true. apply elem_of_list_to_set, list_elem_of_omap.
    exists m. split; [done|]. unfold _cursor_loc_key. by rewrite Hlm.
Qed.

(** The test of the code on a return statement is the direct return of the
    words. *)
Lemma return_directly_call_iff (calls : list Cursor) (ret : Cursor) :
  _return_directly_call (list_to_set (omap _cursor_loc_key calls)) ret = true
  ↔ direct_return calls ret.
Proof.
  unfold _return_directly_call, direct_return.
  generalize (get_children ret). intros l. induction l as [|ec rest IH].
  - split; [done|]. intros (pre & e & post & s & Heq & _). by destruct pre.
  - case_bool_decide as Hop.
    + split; [done|]. intros (pre & e & post & s & Heq & Hs & [Hk _] & Hpre).
      destruct pre as [|p pre]; simplify_eq/=.
      * apply strips_to_fun in Hs as ->. rewrite Hk in Hop.
        by destruct Hop as [?|[?|?]].
      * apply Forall_cons in Hpre as [(sp & Hsp & Hno) _].
        apply strips_to_fun in Hsp as ->. by destruct Hno.
    + destruct (bool_decide (kind (_strip_noop ec) = CALL_EXPR) && _) eqn:Hhit.
      * split; [intros _|done].
        apply andb_true_iff in Hhit as [Hk%bool_decide_eq_true Hsite].
        exists [], ec, rest, (_strip_noop ec). split; [done|].
        split; [apply strips_to_strip_noop|]. split; [|done].
        split; [done|]. by apply loc_key_same_site.
      * rewrite IH. split.
        -- intros (pre & e & post & s & Heq & Hs & Hc & Hpre).
           exists (ec :: pre), e, post, s. rewrite Heq. split; [done|].
           split; [done|]. split; [done|]. constructor; [|done].
           exists (_strip_noop ec). split; [apply strips_to_strip_noop | done].
        -- intros (pre & e & post & s & Heq & Hs & [Hk Hsite] & Hpre).
           destruct pre as [|p pre]; simplify_eq/=.
           ++ apply strips_to_fun in Hs as ->.
              apply loc_key_same_site in Hsite.
              rewrite bool_decide_eq_true_2 in Hhit by done. simpl in Hhit.
              congruence.
           ++ apply Forall_cons in Hpre as [_ Hpre].
              by exists pre, e, post, s.
Qed.

Lemma return_stmts_returns_of fn : return_stmts fn ≡ₚ returns_of fn.
Proof.
  unfold return_stmts, returns_of. destruct (_function_body_cursor fn); [|done].
  by rewrite popped_subtree.
Qed.

Lemma count_where_Permutation {A} (P : A → Prop) l l' n :
  l ≡ₚ l' → count_where P l n → count_where P l' n.
Proof.
  intros Hp. revert n. induction Hp as [|x l l' _ IH|x y l|l l' l'' _ IH1 _ IH2];
    intros n Hn; auto.
  - inversion Hn; subst; [apply count_yes | apply count_no]; auto.
  - inversion Hn as [|? ? ? Hy H1|? ? ? Hy H1]; subst;
      inversion H1; subst; repeat (first [by apply count_yes | by apply count_no | done]);
      auto using count_where.
Qed.

(** C8. For a function and a non-empty list of matching call sites, let
    [total_returns] be the number of return statements anywhere in the body
    and [direct_returns] the number of those that return a matching call
    directly: the expression, with its parentheses, casts and unexposed
    wrappers taken off, is a call located at a matching call site, and not
    an operator. Then [ret_pass] is ["no"] when the return type is spelled
    ["void"] (the code compares the spelling without surrounding white
    space) or no return statement has an expression; otherwise it is
    ["yes - all"] when the two numbers are equal and not zero,
    ["yes - <n>"] when [0 < direct_returns < total_returns], and ["no"] in
    the remaining case. *)
Theorem ret_pass_classification (fn : Cursor) (matching_calls : list Cursor) :
  matching_calls ≠ [] →
  let returns := returns_of fn in
  let total_returns := length returns in
  let ret_pass := (compute_arg_ret_pass_multi tu fn matching_calls).2 in
  ∃ direct_returns,
    count_where (direct_return matching_calls) returns direct_returns
    ∧ direct_returns ≤ total_returns
    ∧ (result_type fn = "void" ∨ Py.strip (result_type fn) = "void"
       ∨ Forall (λ r, get_children r = []) returns → ret_pass = "no")
    ∧ (Py.strip (result_type fn) ≠ "void" →
       Exists (λ r, get_children r ≠ []) returns →
         (direct_returns = total_returns → total_returns ≠ 0 → ret_pass = "yes - all")
         ∧ (0 < direct_returns < total_returns →
            ret_pass = "yes - " +:+ pretty direct_returns)
         ∧ (¬ (direct_returns = total_returns ∧ total_returns ≠ 0) →
            ¬ (0 < direct_returns < total_returns) → ret_pass = "no")).
Proof.
  intros Hne returns total_returns ret_pass.
  set (keys := list_to_set (omap _cursor_loc_key matching_calls)
               : gset (string * nat * nat)).
  set (direct_returns :=
         length (filter (λ r, _return_directly_call keys r = true) (return_stmts fn))).
  assert (Htot : length (return_stmts fn) = total_returns).
  { subst total_returns returns. by rewrite (return_stmts_returns_of fn). }
  assert (Hcount : count_where (direct_return matching_calls) returns direct_returns).
  { apply (count_where_Permutation _ (return_stmts fn)); [apply return_stmts_returns_of|].
    apply count_where_filter. intros r. apply return_directly_call_iff. }
  assert (Hle : direct_returns ≤ total_returns)
    by (apply count_where_le in Hcount; done).
  assert (Hret : ret_pass =
            if bool_decide (Py.strip (result_type fn) = "void") || (total_returns =? 0)
            then "no"
            else if direct_returns =? total_returns then "yes - all"
            else if 0 <? direct_returns then "yes - " +:+ pretty direct_returns
            else "no").
  { subst ret_pass. unfold compute_arg_ret_pass_multi.
    destruct matching_calls as [|c0 cs]; [done|].
    destruct (arg_loop _ _ _ _) as [a u]. rewrite Htot. reflexivity. }
  exists direct_returns. split; [done|]. split; [done|]. split.
  - intros [Hvoid|[Hvoid|Hnone]]; rewrite Hret.
    + rewrite Hvoid. by rewrite bool_decide_eq_true_2.
    + by rewrite bool_decide_eq_true_2.
    + assert (Hd : direct_returns = 0).
      { eapply count_where_none; [|exact Hcount].
        eapply Forall_impl; [exact Hnone|]. simpl.
        intros r Hr (pre & e & post & s & Heq & _). rewrite Hr in Heq. by destruct pre. }
      rewrite Hd. destruct (bool_decide _ || _) eqn:E; [done|].
      apply orb_false_iff in E as [_ E%Nat.eqb_neq].
      rewrite (proj2 (Nat.eqb_neq 0 total_returns)) by lia. done.
  - intros Hnv Hex.
    assert (Hnz : total_returns ≠ 0).
    { subst total_returns. apply Exists_exists in Hex as (r & Hr & _).
      destruct returns; [by apply elem_of_nil in Hr | done]. }
    rewrite Hret, bool_decide_eq_false_2 by done.
    rewrite (proj2 (Nat.eqb_neq total_returns 0)) by done. simpl.
    split; [|split].
    + intros -> _. by rewrite Nat.eqb_refl.
    + intros [Hpos Hlt]. rewrite (proj2 (Nat.eqb_neq direct_returns total_returns)) by lia.
      by rewrite (proj2 (Nat.ltb_lt 0 direct_returns)).
    + intros Hn1 Hn2. rewrite (proj2 (Nat.eqb_neq direct_returns total_returns)) by lia.
      rewrite (proj2 (Nat.ltb_ge 0 direct_returns)) by lia. done.
Qed.

(** ** The thin-alias policy *)

Lemma relaxed_no_hop func catalog :
  via_helper_hop (analyze_wrapper_relaxed tu func catalog) = false.
Proof. unfold analyze_wrapper_relaxed. by repeat case_match. Qed.

(** An accepted strict-plus verdict under the policies [default] and
    [direct-only] never names a thin alias reached through a helper. *)
Lemma strict_plus_accepted_thin func catalog pol a :
  pol = "default" ∨ pol = "direct-only" →
  keep (analyze_wrapper_strict_plus tu func catalog pol) = true →
  api_name (analyze_wrapper_strict_plus tu func catalog pol) = Some a →
  a ≠ "" → a ∈ thin_aliases catalog →
  via_helper_hop (analyze_wrapper_strict_plus tu func catalog pol) = false.
Proof.
  intros Hpol. unfold analyze_wrapper_strict_plus.
  destruct (_function_body_cursor func) as [body|]; [|done]. cbn zeta.
  destruct (unknown _); [done|].
  destruct (bool_decide (0 ∈ _) && negb _); [done|].
  set (st := walk_calls tu _ _ body _).
  destruct (decide (length (w_hit_locs st) = 0)); [done|].
  destruct (head (w_apis st)) as [first_api|] eqn:Hhead; cbn match.
  - destruct (Py.truthy first_api && bool_decide (first_api ∈ thin_aliases catalog)) eqn:Hthin.
    + assert (Hp : Py.str_or pol "default" = "default"
                   ∨ Py.str_or pol "default" = "direct-only")
        by (destruct Hpol as [->| ->]; auto).
      rewrite (bool_decide_eq_true_2 _ Hp).
      destruct (w_via_helper_hop st) eqn:Hvia; [done|].
      destruct ((2 <=? _) && _); [done|]. destruct (check_arguments_provenance _ _ _ _).
      simpl. done.
    + destruct ((2 <=? _) && _); [done|]. destruct (check_arguments_provenance _ _ _ _).
      simpl. intros _ [= <-] Hne Hin. exfalso.
      apply truthy_ne in Hne. rewrite Hne in Hthin.
      by rewrite bool_decide_eq_true_2 in Hthin.
  - destruct ((2 <=? _) && _); [done|]. destruct (check_arguments_provenance _ _ _ _).
    simpl. done.
Qed.

(** Every row of a run comes from the row of one of its functions. *)
Lemma run_rows_from mode pol catalog src in_project functions r :
  r ∈ run_rows tu mode pol catalog src in_project functions →
  ∃ cursor key, cursor ∈ functions
                ∧ function_row tu mode pol catalog src cursor = Some (key, r).
Proof.
  unfold run_rows.
  cut (∀ acc : gset (string * string * string) * list Row,
         r ∈ (foldl
                (λ '(seen_keys, rows) cursor,
                   if negb (bool_decide (kind cursor = FUNCTION_DECL)) then (seen_keys, rows)
                   else if negb (in_project cursor) then (seen_keys, rows)
                   else
                     match function_row tu mode pol catalog src cursor with
                     | None => (seen_keys, rows)
                     | Some (dedup_key, r) =>
                         if decide (dedup_key ∈ seen_keys) then (seen_keys, rows)
                         else ({[dedup_key]} ∪ seen_keys, rows ++ [r])
                     end) acc functions).2 →
         r ∈ acc.2 ∨ ∃ cursor key, cursor ∈ functions
                ∧ function_row tu mode pol catalog src cursor = Some (key, r)).
  { intros Hcut Hin. apply Hcut in Hin as [Hin|?]; [|done]. by apply elem_of_nil in Hin. }
  induction functions as [|f rest IH]; intros [seen rows]; cbn [foldl]; [by left|].
  intros Hin. apply IH in Hin as [Hin|(cursor & key & Hc & Hrow)].
  - repeat case_match; simpl in Hin; try (by left).
    apply elem_of_app in Hin as [Hin|Hin%list_elem_of_singleton]; [by left|].
    subst. right. eexists f, _. split; [by left | done].
  - right. exists cursor, key. split; [by right | done].
Qed.

(** In the modes [accurate] and [relaxed] a row is the accepted verdict of
    its analyzer. *)
Lemma function_row_accepted mode pol catalog src cursor key r :
  legacy_map mode = "accurate" ∨ legacy_map mode = "relaxed" →
  function_row tu mode pol catalog src cursor = Some (key, r) →
  ∃ v, (legacy_map mode = "accurate" ∧ v = analyze_wrapper_strict_plus tu cursor catalog pol
        ∨ legacy_map mode = "relaxed" ∧ v = analyze_wrapper_relaxed tu cursor catalog)
       ∧ keep v = true ∧ api_name v = Some (row_api_called r)
       ∧ row_api_called r ≠ "" ∧ row_via_helper_hop r = via_helper_hop v.
Proof.
  intros Hmode. unfold function_row. cbn zeta.
  set (v := if decide (legacy_map mode = "relaxed")
            then analyze_wrapper_relaxed tu cursor catalog
            else analyze_wrapper_strict_plus tu cursor catalog pol).
  assert (Hv : legacy_map mode = "accurate" ∧ v = analyze_wrapper_strict_plus tu cursor catalog pol
               ∨ legacy_map mode = "relaxed" ∧ v = analyze_wrapper_relaxed tu cursor catalog).
  { subst v. destruct Hmode as [Hm|Hm]; rewrite Hm; [left | right]; done. }
  match goal with
  | |- context [match ?t with (_, _) => _ end] =>
      assert (Htuple : t = (v, total_hits v, hit_locs v));
      [subst v; destruct Hmode as [Hm|Hm]; rewrite Hm; done
      |rewrite Htuple; clear Htuple]
  end.
  rewrite (bool_decide_eq_true_2 (legacy_map mode = "relaxed" ∨ legacy_map mode = "accurate"))
    by tauto.
  rewrite andb_true_l.
  destruct (keep v) eqn:Hkeep; [|done]. simpl.
  destruct (total_hits v =? 0); [done|]. simpl.
  destruct (api_name v) as [a|] eqn:Ha; simpl; [|done].
  destruct (Py.truthy a) eqn:Ht; simpl; [|done].
  destruct (negb _); [done|].
  rewrite (bool_decide_eq_false_2 (legacy_map mode = "all"))
    by (destruct Hmode as [->| ->]; discriminate).
  simpl. destruct (compute_arg_ret_pass_multi _ _ _) as [ap rp].
  intros [= <- <-]. simpl. exists v.
  split; [done|]. split; [done|]. split; [done|]. split; [|done].
  by apply truthy_ne.
Qed.

(** C6 (amended). Under the thin-alias policy [default] or [direct-only]:
    when a function has a body, known control flow, passes the path-count
    guard and has a recorded hit, and the first collected API name is a thin
    alias while a target was reached through a helper hop, strict-plus
    rejects with the reason ["reject: thin-alias-via-helper"]; no accepted
    strict-plus verdict names a thin alias with [via_helper_hop = true]; and
    no row emitted in the modes [accurate] and [relaxed] whose [api_called]
    is a thin alias has [via_helper_hop = true]. *)
Theorem thin_alias_policy (catalog : ApiCatalog) (pol : string) :
  pol = "default" ∨ pol = "direct-only" →
  (∀ func body first_api,
     let targets := target_names catalog in
     let helpers := cat_helpers catalog in
     let pr := analyze_stmt tu body targets helpers 2 in
     let st := walk_calls tu targets helpers body (mkWalkState false ∅ [] []) in
     _function_body_cursor func = Some body →
     unknown pr = false →
     (0 ∈ counts pr → has_early_guard_return tu func helpers = true) →
     w_hit_locs st ≠ [] →
     head (w_apis st) = Some first_api → first_api ≠ "" →
     first_api ∈ thin_aliases catalog →
     w_via_helper_hop st = true →
     analyze_wrapper_strict_plus tu func catalog pol
     = mkVerdict false false (length (w_hit_locs st)) "reject: thin-alias-via-helper"
                 (w_hit_locs st) (Some first_api) false [] false true
                 (Py.sorted_str (w_ignored_helpers st)))
  ∧ (∀ func a,
       let v := analyze_wrapper_strict_plus tu func catalog pol in
       keep v = true → api_name v = Some a → a ≠ "" → a ∈ thin_aliases catalog →
       via_helper_hop v = false)
  ∧ (∀ mode src in_project functions r,
       legacy_map mode = "accurate" ∨ legacy_map mode = "relaxed" →
       r ∈ run_rows tu mode pol catalog src in_project functions →
       row_api_called r ∈ thin_aliases catalog →
       row_via_helper_hop r = false).
Proof.
  intros Hpol. split; [|split].
  - intros func body first_api targets helpers pr st Hbody Hunk Hguard Hhits Hhead
      Hne Hthin Hvia.
    unfold analyze_wrapper_strict_plus. rewrite Hbody. cbn zeta.
    fold targets helpers. fold pr. rewrite Hunk. fold st.
    assert (Hg : bool_decide (0 ∈ counts pr)
                 && negb (bool_decide (0 ∈ counts pr)
                          && has_early_guard_return tu func helpers) = false).
    { case_bool_decide as H0; [|done]. by rewrite (Hguard H0). }
    rewrite Hg. rewrite decide_False by (by destruct (w_hit_locs st)).
    rewrite Hhead. apply truthy_ne in Hne. rewrite Hne.
    rewrite (bool_decide_eq_true_2 _ Hthin). simpl.
    assert (Hp : Py.str_or pol "default" = "default"
                 ∨ Py.str_or pol "default" = "direct-only")
      by (destruct Hpol as [->| ->]; auto).
    by rewrite (bool_decide_eq_true_2 _ Hp), Hvia.
  - intros func a v. by apply strict_plus_accepted_thin.
  - intros mode src in_project functions r Hmode Hin Hthin.
    apply run_rows_from in Hin as (cursor & key & _ & Hrow).
    apply (function_row_accepted _ _ _ _ _ _ _ Hmode) in Hrow
      as (v & Hv & Hkeep & Hapi & Hne & ->).
    destruct Hv as [[_ ->]|[_ ->]].
    + by eapply strict_plus_accepted_thin.
    + apply relaxed_no_hop.
Qed.

End Properties.

(** ** The sanitizer never keeps a working-directory token *)

Section SanitizerProperties.

Context (host : Host).

(** [pathlib] gives paths, not options: an absolute or resolved path does
    not start with a dash. *)
Hypothesis abspath_no_dash :
  ∀ candidate base_dir, Py.startswith "-" (_abspath host candidate base_dir) = false.

Lemma startswith_both (p q a : string) :
  Py.startswith p a = true → Py.startswith q a = true →
  Py.startswith p q = true ∨ Py.startswith q p = true.
Proof.
  revert q a. induction p as [|c p IH]; intros q a; simpl; [by left|].
  destruct a as [|d a]; [done|]. case_decide; [subst d | done]. intros Hp.
  destruct q as [|e q]; simpl; [by right|].
  case_decide; [subst e | done]. intros Hq.
  rewrite decide_True by done. eauto.
Qed.

(** A token that starts with a prefix unrelated to [-working-directory]
    is not a working-directory token. *)
Lemma prefix_not_working_directory (p tok : string) :
  Py.startswith p tok = true →
  Py.startswith p "-working-directory" = false →
  Py.startswith p "-working-directory=" = false →
  Py.startswith "-working-directory=" p = false →
  is_working_directory tok = false.
Proof.
  intros Htok H1 H2 H3. unfold is_working_directory. apply orb_false_iff. split.
  - apply bool_decide_eq_false. intros ->. congruence.
  - destruct (Py.startswith "-working-directory=" tok) eqn:E; [|done].
    destruct (startswith_both _ _ _ Htok E); congruence.
Qed.

Lemma no_dash_not_working_directory (tok : string) :
  Py.startswith "-" tok = false → is_working_directory tok = false.
Proof.
  intros Hd. unfold is_working_directory. apply orb_false_iff. split.
  - apply bool_decide_eq_false. by intros ->.
  - destruct tok as [|c tok]; [done|]. simpl in *. by case_decide.
Qed.

Lemma listed_not_working_directory (tok : string) (l : list string) :
  in_list tok l = true → forallb (λ t, negb (is_working_directory t)) l = true →
  is_working_directory tok = false.
Proof.
  intros Hin%bool_decide_eq_true Hall. rewrite forallb_forall in Hall.
  apply negb_true_iff, Hall. by apply list_elem_of_In.
Qed.

Lemma kept_ok_add (st : Scan) (extra : list string) (b1 b2 b3 : bool) :
  kept_ok st → Forall (λ a, is_working_directory a = false) extra →
  kept_ok (mkScan (filtered st ++ extra) b1 b2 b3).
Proof. intros Hst Hex. unfold kept_ok. simpl. by apply Forall_app. Qed.

Lemma kept_ok_glued (flag tok entry_dir : string) (st : Scan) :
  is_working_directory flag = false → kept_ok st →
  kept_ok (glued host flag tok entry_dir st).
Proof.
  intros Hflag Hst. unfold glued. repeat case_match; try done.
  apply kept_ok_add; [done|]. repeat constructor; [done|].
  by apply no_dash_not_working_directory.
Qed.

(** Whatever the tokens, no argument the main loop keeps is
    [-working-directory] or starts with [-working-directory=]: the test
    that guards the injection of the token always finds none. *)
Lemma scan_never_keeps_working_directory (entry_dir : string) (tokens : list string) :
  ∀ first st, kept_ok st → kept_ok (scan host entry_dir first tokens st).
Proof.
  assert (Hlen : ∀ n tokens, length tokens ≤ n →
            ∀ first st, kept_ok st → kept_ok (scan host entry_dir first tokens st)).
  { clear tokens. induction n as [|n IH]; intros tokens Hn first st Hst.
    { destruct tokens; [done | simpl in Hn; lia]. }
    destruct tokens as [|tok rest]; [done|]. simpl in Hn.
    assert (Hrest : ∀ st', kept_ok st' → kept_ok (scan host entry_dir false rest st')).
    { intros st' Hst'. apply IH; [lia | done]. }
    cbn [scan].
    repeat match goal with
           | |- kept_ok (if ?c then _ else _) => destruct c eqn:?
           end; try (by apply Hrest).
    - (* a flag of PAIR_FLAGS *)
      destruct rest as [|val rest']; [done|]. simpl in Hn.
      repeat match goal with
             | |- kept_ok (if ?c then _ else _) => destruct c eqn:?
             end; try (apply IH; [lia | done]); try (by apply Hrest).
      apply IH; [lia|]. apply kept_ok_add; [done|].
      constructor; [by eapply listed_not_working_directory|].
      constructor; [|done]. case_match.
      + by apply no_dash_not_working_directory.
      + apply no_dash_not_working_directory. by apply negb_true_iff.
    - apply Hrest, kept_ok_add; [done|]. repeat constructor.
      by eapply (prefix_not_working_directory "-std=").
    - by apply Hrest, kept_ok_glued.
    - by apply Hrest, kept_ok_glued.
    - by apply Hrest, kept_ok_glued.
    - by apply Hrest, kept_ok_glued.
    - (* the three glued forms start with their flag, which decides *)
      apply Hrest, kept_ok_add; [done|]. by repeat constructor.
    - apply Hrest, kept_ok_add; [done|]. by repeat constructor.
    - apply Hrest, kept_ok_add; [done|]. by repeat constructor.
    - apply Hrest, kept_ok_add; [done|]. repeat constructor.
      by eapply (prefix_not_working_directory "-D").
    - apply Hrest, kept_ok_add; [done|]. repeat constructor.
      by eapply listed_not_working_directory.
    - apply Hrest, kept_ok_add; [done|]. repeat constructor.
      by eapply (prefix_not_working_directory "-O"). }
  eauto.
Qed.

(** So every run appends the working-directory token behind the arguments
    its loop kept. *)
Lemma working_directory_guard_is_dead (entry_dir : string) (tokens : list string) :
  existsb is_working_directory
    (filtered (scan host entry_dir true tokens (mkScan [] false false false))) = false.
Proof.
  assert (Hk := scan_never_keeps_working_directory entry_dir tokens true
                  (mkScan [] false false false) (Forall_nil_2 _)).
  unfold kept_ok in Hk. induction Hk as [|a l Ha _ IH]; simpl; [done|].
  by rewrite Ha, IH.
Qed.

End SanitizerProperties.

(** * The properties on concrete translation units *)

(** Membership in a finite set, by evaluation. *)
Ltac by_compute :=
  lazymatch goal with
  | |- ¬ ?P => apply (bool_decide_eq_false_1 P); vm_compute; reflexivity
  | |- ?P => apply (bool_decide_eq_true_1 P); vm_compute; reflexivity
  end.


(** C2, as stated, fails on [for(;;) close(fd);]: the body, the call
    [close(fd)], has the summary counts {1}, known, so the loop rule gives
    counts {0, 1}, known; [analyze_stmt] finds no compound-statement child
    and answers counts {2}, unknown. *)
Lemma loop_rule_counterexample :
  is_loop_kind (kind Examples.for_close) = true
  ∧ get_children Examples.for_close = [Examples.f_close]
  ∧ analyze_stmt Examples.tu Examples.f_close Examples.targets Examples.no_helpers 2
    = mkPathResult {[1]} false
  ∧ analyze_stmt Examples.tu Examples.for_close Examples.targets Examples.no_helpers 2
    = mkPathResult {[2]} true
  ∧ ¬ spec_loop_claim Examples.tu Examples.for_close Examples.f_close
        Examples.targets Examples.no_helpers 2.
Proof.
  split; [reflexivity|]. split; [reflexivity|].
  split; [vm_compute; reflexivity|]. split; [vm_compute; reflexivity|].
  unfold spec_loop_claim. intros Heq. apply (f_equal unknown) in Heq.
  vm_compute in Heq. discriminate Heq.
Qed.

(** [while(fd) { close(fd); }] *)
Lemma analyze_stmt_loop_witness :
  is_loop_kind (kind Examples.while_close) = true
  ∧ loop_body Examples.while_close = Some Examples.wl_block
  ∧ ∃ h', let B := analyze_stmt Examples.tu Examples.wl_block Examples.targets
                     Examples.no_helpers h' in
      (set_Exists (λ x, 2 ≤ x) (counts B) →
         analyze_stmt Examples.tu Examples.while_close Examples.targets
           Examples.no_helpers 2
         = mkPathResult {[2]} true)
      ∧ (¬ set_Exists (λ x, 2 ≤ x) (counts B) →
         analyze_stmt Examples.tu Examples.while_close Examples.targets
           Examples.no_helpers 2
         = mkPathResult (counts B ∪ {[0; 1]}) (unknown B)
         ∧ unknown B = false).
Proof.
  split; [reflexivity|]. split; [reflexivity|].
  apply (analyze_stmt_loop Examples.tu Examples.targets Examples.no_helpers
           Examples.while_close 2).
  reflexivity.
Defined.

(** C5. On [int w(int fd){ if(fd<0) return -1; return close(fd); }], with
    [close] a target, the early-guard test answers false: the branch test
    looks at the children of the branch, and the branch is the return
    statement itself. The counts of the body are {0} and strict-plus rejects
    the function with the reason ["path-counts=[0]"]. *)
Theorem guard_wrapper_bare_return :
  branch_has_immediate_return (get_children Examples.w_guard_if !! 1) = false
  ∧ has_early_guard_return Examples.tu Examples.w_guard Examples.no_helpers = false
  ∧ analyze_stmt Examples.tu Examples.w_guard_body Examples.targets Examples.no_helpers 2
    = mkPathResult {[0]} false
  ∧ analyze_wrapper_strict_plus Examples.tu Examples.w_guard Examples.catalog "default"
    = reject "path-counts=[0]".
Proof. repeat split; vm_compute; reflexivity. Qed.

(** C6, as stated, fails in the mode [all]: for
    [static int h(int fd){ close(fd); return 0; }] and
    [void via(int fd){ h(fd); }], with [close] a thin alias and the policy
    [default], strict-plus rejects [via] and the runner still emits its row,
    with [api_called = "close"] and [via_helper_hop = true]. *)
Lemma thin_alias_row_counterexample :
  "close" ∈ thin_aliases Examples.catalog
  ∧ map (λ r, (row_function r, row_api_called r, row_via_helper_hop r, row_reason r))
        (run_rows Examples.tu "all" "default" Examples.catalog "w.c" (λ _, true)
                  [Examples.via_helper])
    = [("via", "close", true, "reject: thin-alias-via-helper")].
Proof. split; [by_compute | vm_compute; reflexivity]. Qed.

(** The same function under strict-plus. *)
Lemma thin_alias_policy_witness :
  ("default" = "default" ∨ "default" = "direct-only")
  ∧ analyze_wrapper_strict_plus Examples.tu Examples.via_helper Examples.catalog "default"
    = mkVerdict false false 1 "reject: thin-alias-via-helper" ["12:19"] (Some "close")
                false [] false true [].
Proof.
  split; [by left|].
  destruct (thin_alias_policy Examples.tu Examples.catalog "default" (or_introl eq_refl))
    as (Hreject & _ & _).
  etrans.
  - apply (Hreject Examples.via_helper Examples.via_body "close").
    + reflexivity.
    + vm_compute; reflexivity.
    + intros H0. exfalso. revert H0. by_compute.
    + vm_compute. discriminate.
    + vm_compute; reflexivity.
    + discriminate.
    + by_compute.
    + vm_compute; reflexivity.
  - vm_compute; reflexivity.
Defined.

(** [void v(int fd){ close(fd); }] is accepted by the relaxed analyzer. *)
Lemma relaxed_accepts_iff_witness :
  _function_body_cursor Examples.v_stmt = Some Examples.v_body
  ∧ keep (analyze_wrapper_relaxed Examples.tu Examples.v_stmt Examples.catalog) = true
  ∧ per_path_single (analyze_wrapper_relaxed Examples.tu Examples.v_stmt Examples.catalog)
    = true
  ∧ reason (analyze_wrapper_relaxed Examples.tu Examples.v_stmt Examples.catalog) = "ok".
Proof.
  split; [reflexivity|].
  destruct (relaxed_accepts_iff Examples.tu Examples.v_stmt Examples.v_body
              Examples.catalog eq_refl) as [Hiff Hfields].
  assert (Hkeep : keep (analyze_wrapper_relaxed Examples.tu Examples.v_stmt
                          Examples.catalog) = true).
  { apply Hiff. split.
    - exists 1. split; [by_compute | constructor].
    - exists Examples.v_close, "7:17", "close".
      split.
      { replace (collect_target_calls Examples.tu Examples.v_stmt
                   (target_names Examples.catalog))
          with [(Examples.v_close, "7:17")] by (vm_compute; reflexivity).
        by left. }
      split; [vm_compute; reflexivity|].
      split; [by_compute | discriminate]. }
  split; [exact Hkeep|].
  destruct (Hfields Hkeep) as (Hsingle & _ & _ & _ & _ & Hreason).
  split; [|exact Hreason].
  etrans; [exact Hsingle|]. vm_compute; reflexivity.
Defined.

(** [long wn(int fd){ if(fd<0) { return -1; } return (long)(close(fd)); }],
    with the call [close(fd)] as the matching call site. There are two
    return statements, the first inside the block of the [if]; the second
    returns the call directly, through the cast and the parentheses, and
    the first, whose expression is an operator below a conversion, does
    not. *)
Lemma ret_pass_classification_witness :
  [MoreExamples.wn_close] ≠ []
  ∧ returns_of MoreExamples.wn_nested
    = [MoreExamples.wn_return_minus_one; MoreExamples.wn_return_close]
  ∧ direct_return [MoreExamples.wn_close] MoreExamples.wn_return_close
  ∧ ¬ direct_return [MoreExamples.wn_close] MoreExamples.wn_return_minus_one
  ∧ (compute_arg_ret_pass_multi MoreExamples.tu2 MoreExamples.wn_nested
       [MoreExamples.wn_close]).2
    = "yes - 1".
Proof.
  split; [discriminate|].
  assert (Hreturns : returns_of MoreExamples.wn_nested
                     = [MoreExamples.wn_return_minus_one; MoreExamples.wn_return_close])
    by (vm_compute; reflexivity).
  assert (Hdirect : direct_return [MoreExamples.wn_close] MoreExamples.wn_return_close).
  { exists [], (Examples.node CSTYLE_CAST_EXPR 1615 (Examples.at_ 16 49)
                  [Examples.node PAREN_EXPR 1616 (Examples.at_ 16 55)
                     [MoreExamples.wn_close]]), [], MoreExamples.wn_close.
    split; [reflexivity|]. split; [|split; [|constructor]].
    - apply (strips_in _ (Examples.node PAREN_EXPR 1616 (Examples.at_ 16 55)
                            [MoreExamples.wn_close]));
        [right; left; reflexivity | reflexivity |].
      apply (strips_in _ MoreExamples.wn_close); [left; reflexivity | reflexivity |].
      apply strips_here. left. intros [Hk|[Hk|Hk]]; discriminate Hk.
    - split; [reflexivity|]. exists MoreExamples.wn_close. split; [by left|].
      exists "w.c", 16, 56. split; reflexivity. }
  assert (Hother : ¬ direct_return [MoreExamples.wn_close]
                       MoreExamples.wn_return_minus_one).
  { intros Hd%return_directly_call_iff. vm_compute in Hd. discriminate Hd. }
  split; [exact Hreturns|]. split; [exact Hdirect|]. split; [exact Hother|].
  destruct (ret_pass_classification MoreExamples.tu2 MoreExamples.wn_nested
              [MoreExamples.wn_close]) as (d & Hcount & _ & _ & Hyes); [discriminate|].
  rewrite Hreturns in Hcount, Hyes.
  assert (Hd : d = 1).
  { apply (count_where_fun _ _ _ _ Hcount).
    apply count_no; [exact Hother|]. apply count_yes; [exact Hdirect | constructor]. }
  subst d. destruct Hyes as (_ & Hsome & _).
  - vm_compute. discriminate.
  - apply Exists_cons_hd. discriminate.
  - apply Hsome. simpl. lia.
Defined.

(** C9. On the arguments [cc -DFOO -c a.c] of the source [/p/a.c] in the
    directory [/p], the sanitizer returns [-x c -DFOO -working-directory=/p
    -I /usr/include]; run on this output, its main loop has no rule that
    keeps [-working-directory=/p] and drops it, the test that looks for one
    among the kept arguments finds none, and the token is appended again,
    now behind [-I /usr/include]: the second output is not the first. The
    same happens on a host with the multiarch include directory and a clang
    resource directory. *)
Theorem sanitizer_second_run_reorders :
  let raw_args := ["cc"; "-DFOO"; "-c"; "a.c"] in
  let once :=
    _sanitize_clang_args_for_libclang Examples.plain_host raw_args "/p/a.c" "/p" in
  let twice := _sanitize_clang_args_for_libclang Examples.plain_host once "/p/a.c" "/p" in
  let once' :=
    _sanitize_clang_args_for_libclang Examples.debian_host raw_args "/p/a.c" "/p" in
  let twice' :=
    _sanitize_clang_args_for_libclang Examples.debian_host once' "/p/a.c" "/p" in
  once = ["-x"; "c"; "-DFOO"; "-working-directory=/p"; "-I"; "/usr/include"]
  ∧ filtered (scan Examples.plain_host "/p" true once (mkScan [] false false false))
    = ["-x"; "c"; "-DFOO"; "-I"; "/usr/include"]
  ∧ twice = ["-x"; "c"; "-DFOO"; "-I"; "/usr/include"; "-working-directory=/p"]
  ∧ twice ≠ once
  ∧ once' = ["-x"; "c"; "-DFOO"; "-working-directory=/p"; "-I"; "/usr/include";
             "-I"; "/usr/include/x86_64-linux-gnu";
             "-resource-dir=/usr/lib/llvm-18/lib/clang/18"]
  ∧ twice' = ["-x"; "c"; "-DFOO"; "-I"; "/usr/include";
              "-I"; "/usr/include/x86_64-linux-gnu";
              "-resource-dir=/usr/lib/llvm-18/lib/clang/18"; "-working-directory=/p"]
  ∧ twice' ≠ once'.
Proof.
  cbv zeta. split; [vm_compute; reflexivity|]. split; [vm_compute; reflexivity|].
  split; [vm_compute; reflexivity|]. split; [vm_compute; discriminate|].
  split; [vm_compute; reflexivity|]. split; [vm_compute; reflexivity|].
  vm_compute. discriminate.
Qed.

(** [int g(void){ sync(); return 0; }] has no parameter, its one target
    call takes no argument, and strict-plus accepts it with
    [derived_from_params = true]. *)
Lemma provenance_vacuous_witness :
  _function_body_cursor Examples.g_sync = Some Examples.g_body
  ∧ _gather_params Examples.g_sync = []
  ∧ keep (analyze_wrapper_strict_plus Examples.tu Examples.g_sync Examples.catalog "default")
    = true
  ∧ derived_from_params
      (analyze_wrapper_strict_plus Examples.tu Examples.g_sync Examples.catalog "default")
    = true.
Proof.
  split; [reflexivity|]. split; [reflexivity|].
  split; [vm_compute; reflexivity|].
  destruct (provenance_vacuous Examples.tu Examples.g_sync Examples.g_body
              [] Examples.no_helpers eq_refl) as [_ Haccepted].
  apply Haccepted.
  - vm_compute. repeat constructor.
  - vm_compute; reflexivity.
Defined.

(** ** Further evaluations *)

(** The pattern of the [syscall] indirection: the leftmost match, the
    longest run of word characters. *)
Lemma search_sys_examples :
  search_sys "SYS_openat" = Some "openat"
  ∧ search_sys "(long)__NR_read+1" = Some "read"
  ∧ search_sys "xSYS_SYS_a" = Some "SYS_a"
  ∧ search_sys "SYS_" = None
  ∧ search_sys "257" = None.
Proof. repeat split; vm_compute; reflexivity. Qed.

(** [syscall(SYS_openat, fd, "x", 0)] contributes 1 when [openat] is a
    target and 0 when only [open] is. *)
Lemma syscall_indirection_example :
  analyze_stmt Examples.tu Examples.sys_openat_call Examples.targets Examples.no_helpers 2
  = mkPathResult {[1]} false
  ∧ analyze_stmt Examples.tu Examples.sys_openat_call {["open"]} Examples.no_helpers 2
    = mkPathResult {[0]} false.
Proof. split; vm_compute; reflexivity. Qed.

(** The hop bound inside a loop. [h2] reaches [close] in two hops, so under
    the bound 2 the block [{ h2(fd); close(fd); }] has the count 2; as the
    body of a [while] analyzed under the same bound 2 it is summarised under
    the bound 1, where its count is 1, and the loop gets counts {0, 1},
    known. *)
Lemma loop_body_hop_bound_example :
  loop_body Examples.while_two_hops = Some Examples.two_hops_then_close
  ∧ analyze_stmt Examples.tu Examples.two_hops_then_close Examples.targets
      Examples.no_helpers 2
    = mkPathResult {[2]} false
  ∧ analyze_stmt Examples.tu Examples.two_hops_then_close Examples.targets
      Examples.no_helpers 1
    = mkPathResult {[1]} false
  ∧ analyze_stmt Examples.tu Examples.while_two_hops Examples.targets
      Examples.no_helpers 2
    = mkPathResult {[0; 1]} false.
Proof. repeat split; vm_compute; reflexivity. Qed.

(** With the return in braces the guard is recognised:
    [int wb(int fd){ if(fd<0) { return -1; } return close(fd); }] is
    accepted by strict-plus with the reason ["ok+ok-guard"]. *)
Lemma early_guard_braced_example :
  has_early_guard_return Examples.tu Examples.w_braced Examples.no_helpers = true
  ∧ analyze_wrapper_strict_plus Examples.tu Examples.w_braced Examples.catalog "default"
    = mkVerdict true true 1 "ok+ok-guard" ["5:48"] (Some "close") true
                ["arg0:tainted [fd is param]"] false false [].
Proof. split; vm_compute; reflexivity. Qed.

(** The pass-through fields of the guarded wrapper. *)
Lemma guard_wrapper_pass_through :
  compute_arg_ret_pass_multi Examples.tu Examples.w_guard [Examples.w_close]
  = ("yes - all", "yes - 1").
Proof. vm_compute; reflexivity. Qed.

(** [void f(int fd){ for(;;) close(fd); }]: the summary is unknown;
    strict-plus rejects, the relaxed analyzer accepts. *)
Lemma unknown_control_flow_example :
  analyze_wrapper_strict_plus Examples.tu Examples.f_for Examples.catalog "default"
  = reject "unknown-control-flow"
  ∧ analyze_wrapper_relaxed Examples.tu Examples.f_for Examples.catalog
    = mkVerdict true false 1 "ok" ["9:25"] (Some "close") true [] false false [].
Proof. split; vm_compute; reflexivity. Qed.

(** * Further properties *)

(** ** The hop resolver *)

Section Hops.

Context (tu : gmap N Cursor) (T : gset string).

(** The one-hop test holds exactly when the body of the callee has a direct
    child that calls a target. *)
Lemma one_hop_iff_reaches call :
  _call_hits_target_via_one_hop tu call T = true ↔ reaches tu T 1 call.
Proof.
  unfold _call_hits_target_via_one_hop. split.
  - destruct (_callee_definition tu call) as [callee|] eqn:Hc; [|done].
    destruct (_function_body_cursor callee) as [body|] eqn:Hb; [|done].
    intros (ch & Hin & Hch)%existsb_exists.
    apply andb_true_iff in Hch as [Hk%bool_decide_eq_true Hn%bool_decide_eq_true].
    apply (reaches_target tu T call ch); [|done].
    exists callee, body. by rewrite <- list_elem_of_In in Hin.
  - intros Hr. inversion Hr as [c ch Hcc Hn|k c ch Hcc Hr']; subst.
    + destruct Hcc as (callee & body & Hc & Hb & Hin & Hk). rewrite Hc, Hb.
      apply existsb_exists. exists ch. rewrite <- list_elem_of_In.
      split; [done|]. by rewrite !bool_decide_eq_true_2.
    + inversion Hr'.
Qed.

(** A hit of the bounded search, whatever the [seen] set it starts from, is
    a chain of at most [h] bodies. *)
Lemma n_hops_reaches h :
  ∀ call seen seen',
    n_hops tu h call T seen = (true, seen') →
    ∃ k, 1 ≤ k ≤ h ∧ reaches tu T k call.
Proof.
  induction h as [|h IH]; intros call seen seen' Hn; simpl in Hn; [done|].
  destruct (_callee_definition tu call) as [callee|] eqn:Hc; [|done].
  destruct (_is_small_function callee 6); simpl in Hn; [|done].
  destruct (decide (hash callee ∈ seen)); [done|].
  destruct (_function_body_cursor callee) as [body|] eqn:Hb; [|done].
  revert Hn. generalize ({[hash callee]} ∪ seen).
  assert (Hsub : ∀ ch, ch ∈ get_children body → ch ∈ get_children body) by done.
  revert Hsub. generalize (get_children body) at 1 3. intros l.
  induction l as [|ch rest IHl]; intros Hsub s Hn; [done|].
  destruct (decide (kind ch = CALL_EXPR)) as [Hk|Hk].
  - assert (Hcc : callee_calls tu call ch).
    { exists callee, body. repeat split; [done..| |done]. apply Hsub. by left. }
    destruct (decide (_callee_name tu ch ∈ T)) as [Hin|Hin].
    + exists 1. split; [lia|]. by eapply reaches_target.
    + destruct (n_hops tu h ch T s) as [hit s'] eqn:Hrec. destruct hit.
      * destruct (IH _ _ _ Hrec) as (k & Hk' & Hr).
        exists (S k). split; [lia|]. by eapply reaches_hop.
      * destruct (IHl (λ c Hc', Hsub c (list_elem_of_further _ _ _ Hc')) s' Hn)
          as (k & ? & ?). by exists k.
  - destruct (IHl (λ c Hc', Hsub c (list_elem_of_further _ _ _ Hc')) s Hn)
      as (k & ? & ?). by exists k.
Qed.

(** X1. When the bounded search [_call_hits_target_via_n_hops] answers
    true for the bound [h], there is a chain of [k] function bodies, with
    [1 ≤ k ≤ h], from the call to a call of a target: the search never
    reports a target it cannot reach within the bound. *)
Theorem n_hops_sound (call : Cursor) (h : nat) :
  _call_hits_target_via_n_hops tu call T h = true →
  ∃ k, 1 ≤ k ≤ h ∧ reaches tu T k call.
Proof.
  unfold _call_hits_target_via_n_hops.
  destruct (n_hops tu h call T ∅) as [hit s] eqn:Hn. simpl. intros ->.
  by eapply n_hops_reaches.
Qed.

(** X2. With the bound 1 the bounded search is the one-hop test restricted
    to small callees (at most 6 statements that are not declarations). *)
Theorem n_hops_bound_1 call :
  _call_hits_target_via_n_hops tu call T 1
  = match _callee_definition tu call with
    | Some callee => _is_small_function callee 6
    | None => false
    end
    && _call_hits_target_via_one_hop tu call T.
Proof.
  unfold _call_hits_target_via_n_hops, _call_hits_target_via_one_hop. simpl.
  destruct (_callee_definition tu call) as [callee|]; [|done].
  destruct (_is_small_function callee 6) eqn:Hs; simpl; [|done].
  rewrite decide_False by set_solver.
  unfold _is_small_function in Hs.
  destruct (_function_body_cursor callee) as [body|]; [|done]. clear Hs.
  generalize ({[hash callee]} ∪ (∅ : gset N)).
  induction (get_children body) as [|ch rest IHl]; intros s; [done|].
  simpl. destruct (decide (kind ch = CALL_EXPR)) as [Hk|Hk].
  - rewrite (bool_decide_eq_true_2 _ Hk). simpl.
    destruct (decide (_callee_name tu ch ∈ T)) as [Hin|Hin].
    + by rewrite (bool_decide_eq_true_2 _ Hin).
    + rewrite (bool_decide_eq_false_2 _ Hin). simpl. apply IHl.
  - rewrite (bool_decide_eq_false_2 _ Hk). simpl. apply IHl.
Qed.

(** X3. When the one-hop test holds for a call whose callee is small, the
    bounded search holds for every bound of at least 1. *)
Theorem one_hop_within_n_hops call callee h :
  _callee_definition tu call = Some callee →
  _is_small_function callee 6 = true →
  _call_hits_target_via_one_hop tu call T = true →
  1 ≤ h →
  _call_hits_target_via_n_hops tu call T h = true.
Proof.
  intros Hc Hs Hone Hh. destruct h as [|h]; [lia|]. clear Hh.
  revert Hone. unfold _call_hits_target_via_n_hops, _call_hits_target_via_one_hop.
  simpl. rewrite Hc, Hs. simpl. rewrite decide_False by set_solver.
  destruct (_function_body_cursor callee) as [body|]; [|done].
  generalize ({[hash callee]} ∪ (∅ : gset N)).
  induction (get_children body) as [|ch rest IHl]; intros s; [done|].
  simpl. destruct (decide (kind ch = CALL_EXPR)) as [Hk|Hk].
  - rewrite (bool_decide_eq_true_2 _ Hk). simpl.
    destruct (decide (_callee_name tu ch ∈ T)) as [Hin|Hin]; [done|].
    rewrite (bool_decide_eq_false_2 _ Hin). simpl. intros Hrest.
    destruct (n_hops tu h ch T s) as [[] s']; [done|]. by apply IHl.
  - rewrite (bool_decide_eq_false_2 _ Hk). simpl. apply IHl.
Qed.

End Hops.

(** ** The summaries of [analyze_stmt] *)

Section Summaries.

Context (tu : gmap N Cursor) (T : gset string) (H : HelperConfig).

(** The loop of [analyze_stmt] over the children of a compound statement. *)
Lemma analyze_stmt_compound_eq stmt h :
  kind stmt = COMPOUND_STMT →
  analyze_stmt tu stmt T H h =
    let '(acc, unknown_) :=
      foldl (λ '(acc, unknown_) ch,
               let child := analyze_stmt tu ch T H h in
               (set_bind (cap_union acc) (counts child), unknown_ || unknown child))
            ({[0]}, false) (get_children stmt) in
    mkPathResult acc unknown_.
Proof. destruct stmt; simpl; intros ->; reflexivity. Qed.

Lemma elem_of_sat_add (A B : gset nat) x :
  x ∈ sat_add A B ↔ ∃ a b, a ∈ A ∧ b ∈ B ∧ x = (a + b) `min` 2.
Proof.
  unfold sat_add. rewrite elem_of_set_bind. split.
  - intros (a & Ha & (b & -> & Hb)%elem_of_map). by exists a, b.
  - intros (a & b & Ha & Hb & ->). exists a. split; [done|].
    apply elem_of_map. eauto.
Qed.

Lemma cap_union_sat_add (A C : gset nat) :
  A ≠ ∅ → set_bind (cap_union A) C = sat_add A C.
Proof.
  intros Hne. apply set_eq. intros x.
  rewrite elem_of_sat_add, elem_of_set_bind. split.
  - intros (v & Hv & (a & Ha & ->)%cap_union_spec); [|done].
    exists a, v. split; [done|]. split; [done|].
    case_match eqn:E; [apply Nat.leb_le in E|apply Nat.leb_gt in E]; lia.
  - intros (a & v & Ha & Hv & ->). exists v. split; [done|].
    apply cap_union_spec; [done|]. exists a. split; [done|].
    case_match eqn:E; [apply Nat.leb_le in E|apply Nat.leb_gt in E]; lia.
Qed.

Lemma sat_add_assoc (A B C : gset nat) :
  sat_add (sat_add A B) C = sat_add A (sat_add B C).
Proof.
  apply set_eq. intros x. rewrite !elem_of_sat_add. split.
  - intros (ab & c & (a & b & Ha & Hb & ->)%elem_of_sat_add & Hc & ->).
    exists a, ((b + c) `min` 2). split; [done|]. split; [|lia].
    apply elem_of_sat_add. eauto.
  - intros (a & bc & Ha & (b & c & Hb & Hc & ->)%elem_of_sat_add & ->).
    exists ((a + b) `min` 2), c. split; [|split; [done|lia]].
    apply elem_of_sat_add. eauto.
Qed.

Lemma sat_add_0_l (C : gset nat) : C ⊆ {[0; 1; 2]} → sat_add {[0]} C = C.
Proof.
  intros Hs. apply set_eq. intros x. rewrite elem_of_sat_add. split.
  - intros (a & b & ->%elem_of_singleton & Hb & ->).
    specialize (Hs b Hb). apply elem_of_012 in Hs.
    by replace ((0 + b) `min` 2) with b by lia.
  - intros Hx. exists 0, x. split; [set_solver|]. split; [done|].
    specialize (Hs x Hx). apply elem_of_012 in Hs. lia.
Qed.

Lemma sat_add_nonempty (A B : gset nat) : A ≠ ∅ → B ≠ ∅ → sat_add A B ≠ ∅.
Proof.
  intros [a Ha]%set_choose_L [b Hb]%set_choose_L.
  apply (non_empty_inhabited_L ((a + b) `min` 2)), elem_of_sat_add. eauto.
Qed.

Lemma sat_add_0_r (A : gset nat) : A ⊆ {[0; 1; 2]} → sat_add A {[0]} = A.
Proof.
  intros Hs. apply set_eq. intros x. rewrite elem_of_sat_add. split.
  - intros (a & b & Ha & ->%elem_of_singleton & ->).
    specialize (Hs a Ha). apply elem_of_012 in Hs.
    by replace ((a + 0) `min` 2) with a by lia.
  - intros Hx. exists x, 0. split; [done|]. split; [set_solver|].
    specialize (Hs x Hx). apply elem_of_012 in Hs. lia.
Qed.

Lemma sat_add_bounded (A B : gset nat) : sat_add A B ⊆ {[0; 1; 2]}.
Proof.
  intros x (a & b & _ & _ & ->)%elem_of_sat_add. apply elem_of_012. lia.
Qed.

(** The summary of a compound statement: the counts of the children added
    up from {0}, and unknown when some child is. *)
Lemma compound_fold h (l : list Cursor) :
  ∀ (A : gset nat) (u : bool), A ≠ ∅ →
    foldl (λ '(acc, unknown_) ch,
             let child := analyze_stmt tu ch T H h in
             (set_bind (cap_union acc) (counts child), unknown_ || unknown child))
          (A, u) l
    = (foldl (λ acc ch, sat_add acc (counts (analyze_stmt tu ch T H h))) A l,
       u || existsb (λ ch, unknown (analyze_stmt tu ch T H h)) l).
Proof.
  induction l as [|ch rest IH]; intros A u Hne; simpl.
  - by rewrite orb_false_r.
  - rewrite cap_union_sat_add by done. rewrite IH.
    + by rewrite orb_assoc.
    + apply sat_add_nonempty; [done|]. apply (analyze_stmt_ok tu T H ch h).
Qed.

Lemma analyze_stmt_compound stmt h :
  kind stmt = COMPOUND_STMT →
  analyze_stmt tu stmt T H h
  = mkPathResult
      (foldl (λ acc ch, sat_add acc (counts (analyze_stmt tu ch T H h)))
             {[0]} (get_children stmt))
      (existsb (λ ch, unknown (analyze_stmt tu ch T H h)) (get_children stmt)).
Proof.
  intros Hk. rewrite (analyze_stmt_compound_eq stmt h Hk).
  rewrite compound_fold by set_solver. done.
Qed.

Lemma sat_add_fold h (l : list Cursor) (A : gset nat) :
  A ⊆ {[0; 1; 2]} →
  foldl (λ acc ch, sat_add acc (counts (analyze_stmt tu ch T H h))) A l
  = sat_add A (foldl (λ acc ch, sat_add acc (counts (analyze_stmt tu ch T H h)))
                     {[0]} l).
Proof.
  intros Hsub. induction l as [|ch rest IH] using rev_ind.
  - simpl. by rewrite sat_add_0_r.
  - by rewrite !foldl_snoc, IH, sat_add_assoc.
Qed.

(** The summary of a compound statement is unknown exactly when the summary
    of one of its children is. *)
Theorem compound_unknown (stmt : Cursor) (h : nat) :
  kind stmt = COMPOUND_STMT →
  unknown (analyze_stmt tu stmt T H h)
  = existsb (λ ch, unknown (analyze_stmt tu ch T H h)) (get_children stmt).
Proof. intros Hk. by rewrite (analyze_stmt_compound stmt h Hk). Qed.

(** X4. Sequencing: for compound statements [c1], [c2] and [c] where the
    children of [c] are those of [c1] followed by those of [c2], the counts
    of [c] are the sums of a count of [c1] and a count of [c2], saturated at
    2, and [c] is unknown exactly when [c1] or [c2] is. *)
Theorem compound_append (c1 c2 c : Cursor) (h : nat) :
  kind c1 = COMPOUND_STMT → kind c2 = COMPOUND_STMT → kind c = COMPOUND_STMT →
  get_children c = get_children c1 ++ get_children c2 →
  counts (analyze_stmt tu c T H h)
  = sat_add (counts (analyze_stmt tu c1 T H h)) (counts (analyze_stmt tu c2 T H h))
  ∧ unknown (analyze_stmt tu c T H h)
    = unknown (analyze_stmt tu c1 T H h) || unknown (analyze_stmt tu c2 T H h).
Proof.
  intros Hk1 Hk2 Hk Hkids.
  destruct (analyze_stmt_ok tu T H c1 h) as (_ & Hsub1 & _). revert Hsub1.
  rewrite (analyze_stmt_compound c h Hk), (analyze_stmt_compound c1 h Hk1),
    (analyze_stmt_compound c2 h Hk2), Hkids, foldl_app, existsb_app. simpl.
  intros Hsub1. split; [|done]. by apply sat_add_fold.
Qed.

(** An empty block has the summary ({0}, known); a block of one statement
    has the summary of that statement. *)
Theorem compound_single (c s : Cursor) (h : nat) :
  kind c = COMPOUND_STMT →
  (get_children c = [] → analyze_stmt tu c T H h = mkPathResult {[0]} false)
  ∧ (get_children c = [s] → analyze_stmt tu c T H h = analyze_stmt tu s T H h).
Proof.
  intros Hk. rewrite (analyze_stmt_compound c h Hk). split; intros ->; [done|].
  simpl. destruct (analyze_stmt_ok tu T H s h) as (_ & Hsub & _).
  destruct (analyze_stmt tu s T H h) as [cs us]. simpl in *.
  by rewrite orb_false_r, sat_add_0_l.
Qed.

Lemma analyze_stmt_call_contribution stmt h :
  kind stmt = CALL_EXPR →
  analyze_stmt tu stmt T H h
  = mkPathResult {[ spec_call_contribution tu stmt T H h ]} false.
Proof.
  intros Hk. rewrite (analyze_stmt_call tu T H stmt h Hk).
  unfold spec_call_contribution, is_helper_call. rewrite mapped_in_spec.
  by repeat case_match.
Qed.

(** X5. A compound statement whose children are all call expressions has
    one count, the number of its calls that contribute (by the ordered rule
    for a call), saturated at 2, and is not unknown. *)
Theorem straight_line_block (c : Cursor) (h : nat) :
  kind c = COMPOUND_STMT →
  Forall (λ ch, kind ch = CALL_EXPR) (get_children c) →
  analyze_stmt tu c T H h
  = mkPathResult
      {[ sum_list (map (λ ch, spec_call_contribution tu ch T H h) (get_children c))
         `min` 2 ]} false.
Proof.
  intros Hk Hall. rewrite (analyze_stmt_compound c h Hk). f_equal.
  - cut (∀ n, foldl (λ acc ch, sat_add acc (counts (analyze_stmt tu ch T H h)))
                {[n `min` 2]} (get_children c)
              = {[ (n + sum_list (map (λ ch, spec_call_contribution tu ch T H h)
                                      (get_children c))) `min` 2 ]}).
    { intros Hcut. apply (Hcut 0). }
    induction Hall as [|ch rest Hch _ IH]; intros n; simpl.
    + by rewrite Nat.add_0_r.
    + rewrite (analyze_stmt_call_contribution ch h Hch). simpl.
      replace (sat_add {[n `min` 2]} {[spec_call_contribution tu ch T H h]})
        with ({[ (n + spec_call_contribution tu ch T H h) `min` 2 ]} : gset nat).
      * rewrite IH. f_equal. lia.
      * apply set_eq. intros x. rewrite elem_of_sat_add, elem_of_singleton. split.
        -- intros ->. eexists _, _. split; [by apply elem_of_singleton|].
           split; [by apply elem_of_singleton|]. lia.
        -- intros (a & b & ->%elem_of_singleton & ->%elem_of_singleton & ->). lia.
  - induction Hall as [|ch rest Hch _ IH]; simpl; [done|].
    by rewrite (analyze_stmt_call_contribution ch h Hch).
Qed.

Lemma max_or_0_le (s : gset nat) n : (∀ x, x ∈ s → x ≤ n) → Py.max_or_0 s ≤ n.
Proof.
  intros Hall. unfold Py.max_or_0.
  assert (Hl : ∀ x, x ∈ elements s → x ≤ n).
  { intros x Hx%elem_of_elements. auto. }
  induction (elements s) as [|x l IHl]; simpl; [lia|].
  apply Nat.max_lub; [apply Hl; by left|]. apply IHl. intros y Hy. apply Hl. by right.
Qed.

(** X7. Whenever the summary of a statement is unknown, 2 is one of its
    counts, so the maximum of the counts is 2. *)
Theorem unknown_counts_two (stmt : Cursor) (h : nat) :
  unknown (analyze_stmt tu stmt T H h) = true →
  2 ∈ counts (analyze_stmt tu stmt T H h)
  ∧ Py.max_or_0 (counts (analyze_stmt tu stmt T H h)) = 2.
Proof.
  intros Hu. destruct (analyze_stmt_ok tu T H stmt h) as (_ & Hsub & H2).
  specialize (H2 Hu). split; [done|]. apply Nat.le_antisymm.
  - apply max_or_0_le. intros x Hx. by apply elem_of_012, Hsub.
  - apply max_list_elem_of_le. by apply elem_of_elements.
Qed.

Lemma existsb_false_Forall {A} (f : A → bool) (l : list A) :
  existsb f l = false → Forall (λ x, f x = false) l.
Proof.
  induction l as [|x l IH]; simpl; [constructor|].
  intros [? ?]%orb_false_iff. constructor; auto.
Qed.

Lemma loop_free_known_all (stmt : Cursor) :
  (contains_loop stmt = false → ∀ h, unknown (analyze_stmt tu stmt T H h) = false)
  ∧ Forall (λ ch, contains_loop ch = false →
                  ∀ h, unknown (analyze_stmt tu ch T H h) = false)
           (get_children stmt).
Proof.
  induction stmt as [c IH] using Cursor_nested_ind.
  assert (Hkids : Forall (λ ch, contains_loop ch = false →
                    ∀ h, unknown (analyze_stmt tu ch T H h) = false) (get_children c)).
  { eapply Forall_impl; [exact IH|]. by intros ? [? _]. }
  assert (Hgrand : Forall (λ ch, Forall (λ g, contains_loop g = false →
                      ∀ h, unknown (analyze_stmt tu g T H h) = false) (get_children ch))
                     (get_children c)).
  { eapply Forall_impl; [exact IH|]. by intros ? [_ ?]. }
  split; [|done]. clear IH. intros Hfree h.
  destruct c as [k sp dn hs lc df rf cn tk ev rt kids]; simpl in Hkids, Hgrand.
  simpl in Hfree. apply orb_false_iff in Hfree as [Hloop Hfree].
  apply existsb_false_Forall in Hfree.
  assert (Hu : Forall (λ ch, ∀ h, unknown (analyze_stmt tu ch T H h) = false) kids).
  { clear Hgrand. induction Hkids as [|ch rest Hch _ IHr]; [constructor|].
    inversion Hfree; subst. constructor; auto. }
  assert (Hug : Forall (λ ch, Forall (λ g, ∀ h, unknown (analyze_stmt tu g T H h) = false)
                                  (get_children ch)) kids).
  { clear Hkids Hu. induction Hgrand as [|ch rest Hch _ IHr]; [constructor|].
    inversion Hfree as [|? ? Hc Hr]; subst. constructor; [|auto].
    destruct ch as [k' ? ? ? ? ? ? ? ? ? ? kids']. simpl in *.
    apply orb_false_iff in Hc as [_ Hc]. apply existsb_false_Forall in Hc.
    clear -Hch Hc. induction Hch; [constructor|]. inversion Hc; subst.
    constructor; auto. }
  clear Hkids Hgrand Hfree. simpl.
  destruct (decide (k = RETURN_STMT)); [done|].
  destruct (decide (k = CALL_EXPR)); [by case_match|].
  destruct (decide (k = IF_STMT)).
  { simpl. apply orb_false_iff. split.
    - destruct kids as [|? [|b ?]]; try done.
      inversion Hu as [|? ? _ Hk2]; inversion Hk2; subst; auto.
    - destruct kids as [|? [|? [|b ?]]]; try done.
      inversion Hu as [|? ? _ Hk2]; inversion Hk2 as [|? ? _ Hk3];
        inversion Hk3; subst; auto. }
  destruct (decide (k = SWITCH_STMT)).
  { match goal with |- context [foldl ?f ?a kids] => set (acc := foldl f a kids) end.
    assert (Hacc : unknown acc = false).
    { subst acc.
      cut (∀ a, unknown a = false →
             unknown (foldl (λ acc_pr ch,
                    if decide (kind ch = CASE_STMT ∨ kind ch = DEFAULT_STMT)
                    then _merge_pr acc_pr
                           match get_children ch with
                           | _ :: body :: _ => analyze_stmt tu body T H h
                           | _ => mkPathResult {[0]} false
                           end
                    else acc_pr) a kids) = false).
      { intros Hcut. by apply Hcut. }
      clear Hu. induction kids as [|ch rest IHr]; intros a Ha; [exact Ha|].
      inversion Hug as [|? ? Hch Hrest]; subst. simpl.
      apply IHr; [done|]. case_decide; [|done]. simpl. rewrite Ha. simpl.
      destruct (get_children ch) as [|? [|b ?]]; try done.
      inversion Hch as [|? ? _ Hk2]; inversion Hk2; subst; auto. }
    case_decide; simpl; done. }
  destruct (decide (k = CONDITIONAL_OPERATOR)).
  { simpl. apply orb_false_iff. split.
    - destruct kids as [|? [|b ?]]; try done.
      inversion Hu as [|? ? _ Hk2]; inversion Hk2; subst; auto.
    - destruct kids as [|? [|? [|b ?]]]; try done.
      inversion Hu as [|? ? _ Hk2]; inversion Hk2 as [|? ? _ Hk3];
        inversion Hk3; subst; auto. }
  rewrite Hloop.
  destruct (decide (k = COMPOUND_STMT)).
  { rewrite compound_fold by set_solver. simpl.
    clear Hug. induction Hu as [|ch rest Hch _ IHr]; simpl; [done|].
    by rewrite Hch. }
  cut (∀ a, unknown a = false →
         unknown (foldl (λ acc_pr ch, _merge_pr acc_pr (analyze_stmt tu ch T H h)) a kids)
         = false).
  { intros Hcut. by apply Hcut. }
  clear Hug. induction kids as [|ch rest IHr]; intros a Ha; simpl; [done|].
  inversion Hu; subst. apply IHr; [done|]. simpl. rewrite Ha. simpl. auto.
Qed.

(** X6. The summary of a statement with no [for], [while] or [do] node in
    its tree is never unknown: only loops make control flow unknown. *)
Theorem loop_free_known (stmt : Cursor) (h : nat) :
  contains_loop stmt = false → unknown (analyze_stmt tu stmt T H h) = false.
Proof. intros Hf. by apply loop_free_known_all. Qed.

End Summaries.

(** ** The walk of the strict-plus analyzer and the verdicts *)

Section Walk.

Context (tu : gmap N Cursor) (T : gset string) (H : HelperConfig).

Lemma foldl_app_concat {A B} (f : A → list B) (l : list A) (a : list B) :
  foldl (λ acc x, acc ++ f x) a l = a ++ concat (map f l).
Proof.
  revert a. induction l as [|x l IH]; intros a; simpl.
  - by rewrite app_nil_r.
  - by rewrite IH, app_assoc.
Qed.

Lemma collect_target_calls_eq fn :
  collect_target_calls tu fn T
  = site_of tu fn T ++ concat (map (λ ch, collect_target_calls tu ch T) (get_children fn)).
Proof.
  rewrite <- foldl_app_concat. destruct fn; reflexivity.
Qed.

Lemma walk_calls_eq n st :
  walk_calls tu T H n st
  = foldl (λ st ch,
             let st := if decide (kind ch = CALL_EXPR)
                       then walk_visit tu T H ch st else st in
             walk_calls tu T H ch st)
          st (get_children n).
Proof. destruct n; reflexivity. Qed.

Lemma mapped_in_elem m : mapped_in m T = true → default "" m ∈ T.
Proof.
  destruct m as [m|]; simpl; [|done].
  intros [_ ?%bool_decide_eq_true]%andb_true_iff. done.
Qed.

Lemma append_inner_targets inner apis :
  Forall (.∈ T) apis → Forall (.∈ T) (append_inner inner T apis).
Proof.
  intros Ha. unfold append_inner. destruct inner as [nm|]; [|done].
  destruct (Py.truthy nm && bool_decide (nm ∈ T)) eqn:E; [|done].
  apply andb_true_iff in E as [_ ?%bool_decide_eq_true].
  apply Forall_app. split; [done|]. by constructor.
Qed.

Lemma walk_visit_apis ch st :
  Forall (.∈ T) (w_apis st) → Forall (.∈ T) (w_apis (walk_visit tu T H ch st)).
Proof.
  intros Ha. unfold walk_visit.
  destruct (is_helper_call tu ch H which_helpers); [done|].
  destruct (decide (_callee_name tu ch ∈ T)); simpl.
  { apply Forall_app. split; [done|]. by constructor. }
  destruct (mapped_in (resolve_syscall_indirection tu ch) T) eqn:Hm; simpl.
  { apply Forall_app. split; [done|]. constructor; [|done]. by apply mapped_in_elem. }
  destruct (_call_hits_target_via_one_hop tu ch T); simpl.
  { by apply append_inner_targets. }
  destruct (_call_hits_target_via_n_hops tu ch T 2); simpl; [|done].
  by apply append_inner_targets.
Qed.

Lemma walk_calls_apis n :
  ∀ st, Forall (.∈ T) (w_apis st) → Forall (.∈ T) (w_apis (walk_calls tu T H n st)).
Proof.
  induction n as [n IH] using Cursor_nested_ind. intros st Hst.
  rewrite walk_calls_eq. revert st Hst.
  induction IH as [|ch rest Hch _ IHr]; intros st Hst; simpl; [done|].
  apply IHr, Hch. case_decide; [|done]. by apply walk_visit_apis.
Qed.

Lemma append_hit_sub ch hits :
  ∃ d, append_hit ch hits = hits ++ d
       ∧ d `sublist_of` [match location ch with
                         | Some loc => line_col loc
                         | None => "?"
                         end].
Proof.
  unfold append_hit. destruct (location ch) as [loc|].
  - destruct (file loc).
    + by exists [line_col loc].
    + exists []. rewrite app_nil_r. split; [done|]. apply sublist_nil_l.
  - exists []. rewrite app_nil_r. split; [done|]. apply sublist_nil_l.
Qed.

Lemma walk_visit_hits ch st :
  kind ch = CALL_EXPR →
  ∃ d, w_hit_locs (walk_visit tu T H ch st) = w_hit_locs st ++ d
       ∧ d `sublist_of` map snd (site_of tu ch T).
Proof.
  intros Hk. unfold walk_visit, site_of. rewrite (decide_True _ _ Hk).
  destruct (is_helper_call tu ch H which_helpers); simpl.
  { exists []. rewrite app_nil_r. split; [done|]. apply sublist_nil_l. }
  destruct (decide (_callee_name tu ch ∈ T)); simpl; [apply append_hit_sub|].
  destruct (mapped_in (resolve_syscall_indirection tu ch) T); simpl;
    [apply append_hit_sub|].
  destruct (_call_hits_target_via_one_hop tu ch T); simpl; [apply append_hit_sub|].
  destruct (_call_hits_target_via_n_hops tu ch T 2); simpl; [apply append_hit_sub|].
  exists []. rewrite app_nil_r. split; [done|]. apply sublist_nil_l.
Qed.

Lemma walk_calls_hits n :
  ∀ st, ∃ d,
    w_hit_locs (walk_calls tu T H n st) = w_hit_locs st ++ d
    ∧ d `sublist_of`
        map snd (concat (map (λ ch, collect_target_calls tu ch T) (get_children n))).
Proof.
  induction n as [n IH] using Cursor_nested_ind. intros st.
  rewrite walk_calls_eq. revert st.
  induction IH as [|ch rest Hch _ IHr]; intros st; cbn [foldl map concat].
  { exists []. by rewrite app_nil_r. }
  assert (Hv : ∃ d, w_hit_locs (if decide (kind ch = CALL_EXPR)
                                 then walk_visit tu T H ch st else st)
                    = w_hit_locs st ++ d
                    ∧ d `sublist_of` map snd (site_of tu ch T)).
  { case_decide as Hk; [by apply walk_visit_hits|].
    exists []. rewrite app_nil_r. split; [done|]. apply sublist_nil_l. }
  destruct Hv as (d1 & Hd1 & Hs1).
  destruct (Hch (if decide (kind ch = CALL_EXPR)
                 then walk_visit tu T H ch st else st)) as (d2 & Hd2 & Hs2).
  destruct (IHr (walk_calls tu T H ch
                   (if decide (kind ch = CALL_EXPR)
                    then walk_visit tu T H ch st else st))) as (d3 & Hd3 & Hs3).
  exists ((d1 ++ d2) ++ d3). split.
  - etrans; [exact Hd3|]. rewrite Hd2, Hd1. by rewrite !app_assoc.
  - rewrite map_app. apply sublist_app; [|done].
    rewrite (collect_target_calls_eq ch), map_app. by apply sublist_app.
Qed.

Lemma collect_child_sublist fn ch :
  ch ∈ get_children fn →
  collect_target_calls tu ch T `sublist_of` collect_target_calls tu fn T.
Proof.
  intros Hin. rewrite (collect_target_calls_eq fn). apply sublist_inserts_l.
  induction Hin as [x l|x y l _ IH]; simpl.
  - by apply sublist_inserts_r.
  - by apply sublist_inserts_l.
Qed.


Lemma sublist_map {A B} (f : A → B) (l k : list A) :
  l `sublist_of` k → map f l `sublist_of` map f k.
Proof. induction 1; simpl; by constructor. Qed.

Lemma body_in_children fn body :
  _function_body_cursor fn = Some body →
  body ∈ get_children fn ∧ kind body = COMPOUND_STMT.
Proof.
  unfold _function_body_cursor. intros [Hin Hk]%find_some.
  apply list_elem_of_In in Hin. by apply bool_decide_eq_true in Hk.
Qed.

End Walk.

Section Verdicts.

Context (tu : gmap N Cursor).

(** X8. The hit locations of a verdict, of the strict-plus analyzer and of
    the relaxed one, are locations of call sites that [collect_target_calls]
    finds in the function, in the same order: a sublist of them. *)
Theorem hit_locs_are_counted_sites (func : Cursor) (catalog : ApiCatalog)
    (thin_policy : string) :
  let sites := map snd (collect_target_calls tu func (target_names catalog)) in
  hit_locs (analyze_wrapper_strict_plus tu func catalog thin_policy) `sublist_of` sites
  ∧ hit_locs (analyze_wrapper_relaxed tu func catalog) `sublist_of` sites.
Proof.
  intros sites. subst sites. split.
  - unfold analyze_wrapper_strict_plus.
    destruct (_function_body_cursor func) as [body|] eqn:Hb; [|apply sublist_nil_l].
    cbn zeta. destruct (unknown _); [apply sublist_nil_l|].
    destruct (bool_decide (0 ∈ _) && negb _); [apply sublist_nil_l|].
    set (st := walk_calls tu _ _ body _).
    assert (Hsub : w_hit_locs st
                   `sublist_of` map snd (collect_target_calls tu func (target_names catalog))).
    { destruct (walk_calls_hits tu (target_names catalog) (cat_helpers catalog) body
                  (mkWalkState false ∅ [] [])) as (d & Hd & Hs).
      fold st in Hd. simpl in Hd. rewrite Hd.
      etrans; [exact Hs|]. apply sublist_map.
      etrans; [|apply collect_child_sublist; by apply body_in_children].
      rewrite (collect_target_calls_eq tu _ body). by apply sublist_inserts_l. }
    destruct (decide (length (w_hit_locs st) = 0)); [apply sublist_nil_l|].
    destruct (match head (w_apis st) with Some _ => _ | None => _ end); [done|].
    destruct ((2 <=? _) && _); [done|].
    by destruct (check_arguments_provenance _ _ _ _).
  - unfold analyze_wrapper_relaxed.
    destruct (_function_body_cursor func) as [body|]; [|apply sublist_nil_l].
    cbn zeta. destruct (negb _); [apply sublist_nil_l|].
    destruct (decide _); [apply sublist_nil_l|]. simpl.
    unfold resolved_hits.
    induction (collect_target_calls tu func (target_names catalog)) as [|[c loc] l IH];
      simpl; [done|].
    destruct (_resolve_target_name_for_call tu c catalog) as [nm|]; simpl.
    + destruct (Py.truthy nm); simpl; [by apply sublist_skip|by apply sublist_cons].
    + by apply sublist_cons.
Qed.


(** X9. Every strict-plus verdict has [total_hits] equal to the number of
    its hit locations and [per_path_single] equal to [keep]; an accepted one
    has at least one hit; a rejected one has [derived_from_params] false, an
    empty derivation trace and [pair_used] false; [pair_used] is true only
    with exactly two hits. *)
Theorem strict_plus_verdict_shape (func : Cursor) (catalog : ApiCatalog)
    (thin_policy : string) :
  let v := analyze_wrapper_strict_plus tu func catalog thin_policy in
  total_hits v = length (hit_locs v)
  ∧ per_path_single v = keep v
  ∧ (keep v = true → 0 < total_hits v)
  ∧ (keep v = false →
       derived_from_params v = false ∧ derivation_trace v = [] ∧ pair_used v = false)
  ∧ (pair_used v = true → total_hits v = 2).
Proof.
  unfold analyze_wrapper_strict_plus.
  destruct (_function_body_cursor func) as [body|]; [|by simpl].
  cbn zeta. destruct (unknown _); [by simpl|].
  destruct (bool_decide (0 ∈ _) && negb _); [by simpl|].
  set (st := walk_calls tu _ _ body _).
  destruct (decide (length (w_hit_locs st) = 0)) as [Hz|Hz].
  { simpl. split; [|done]. symmetry. done. }
  destruct (match head (w_apis st) with Some _ => _ | None => _ end); [by simpl|].
  destruct (2 <=? Py.max_or_0 _) eqn:Hle; cbn [andb].
  - destruct (negb _) eqn:Hmulti; [by simpl|].
    destruct (check_arguments_provenance _ _ _ _) as [ok tr]. simpl.
    split; [done|]. split; [done|]. split; [lia|]. split; [done|].
    intros _. apply negb_false_iff, andb_true_iff in Hmulti as [Hl _].
    by apply bool_decide_eq_true in Hl.
  - destruct (check_arguments_provenance _ _ _ _) as [ok tr]. simpl.
    split; [done|]. split; [done|]. split; [lia|]. done.
Qed.

Lemma strict_plus_api_target (func : Cursor) (catalog : ApiCatalog)
    (thin_policy a : string) :
  api_name (analyze_wrapper_strict_plus tu func catalog thin_policy) = Some a →
  a ∈ target_names catalog.
Proof.
  unfold analyze_wrapper_strict_plus.
  destruct (_function_body_cursor func) as [body|]; [|done].
  cbn zeta. destruct (unknown _); [done|].
  destruct (bool_decide (0 ∈ _) && negb _); [done|].
  set (st := walk_calls tu _ _ body _).
  assert (Hall : Forall (.∈ target_names catalog) (w_apis st)).
  { apply walk_calls_apis. constructor. }
  assert (Hhead : head (w_apis st) = Some a → a ∈ target_names catalog).
  { destruct (w_apis st) as [|x l]; [done|]. intros [= <-]. by inversion Hall. }
  destruct (decide (length (w_hit_locs st) = 0)); [done|].
  destruct (match head (w_apis st) with Some _ => _ | None => _ end); [done|].
  destruct ((2 <=? _) && _); [done|].
  by destruct (check_arguments_provenance _ _ _ _).
Qed.

(** X10. The API name of a verdict, when there is one, is a target name of
    the catalog, for both analyzers; the relaxed one never returns the
    empty name. *)
Theorem api_names_are_targets (func : Cursor) (catalog : ApiCatalog)
    (thin_policy : string) (a : string) :
  (api_name (analyze_wrapper_strict_plus tu func catalog thin_policy) = Some a →
   a ∈ target_names catalog)
  ∧ (api_name (analyze_wrapper_relaxed tu func catalog) = Some a →
     a ∈ target_names catalog ∧ a ≠ "").
Proof.
  split; [apply strict_plus_api_target|].
  unfold analyze_wrapper_relaxed.
  destruct (_function_body_cursor func) as [body|]; [|done].
  cbn zeta. destruct (negb _); [done|].
  destruct (decide _); [done|]. simpl.
  destruct (resolved_hits tu func catalog) as [|[nm loc] l] eqn:Hr; [done|].
  simpl. intros [= <-].
  assert (Hin : (nm, loc) ∈ resolved_hits tu func catalog) by (rewrite Hr; by left).
  apply resolved_hits_elem in Hin as (call & _ & Hres & Hne).
  split; [|done]. by eapply resolve_target_name_in.
Qed.

(** X11. Under the policy [allow-1-hop] the strict-plus verdict does not
    depend on the thin-alias set of the catalog, and its reason is never a
    thin-alias rejection: the flag the policy tests is never set. *)
Theorem allow_1_hop_ignores_thin_aliases (func : Cursor) (catalog : ApiCatalog)
    (thin : gset string) :
  let v := analyze_wrapper_strict_plus tu func catalog "allow-1-hop" in
  v = analyze_wrapper_strict_plus tu func
        (mkApiCatalog (libc catalog) (syscalls catalog) (target_names catalog)
                      (cat_helpers catalog) thin (name_to_category catalog))
        "allow-1-hop"
  ∧ reason v ≠ "reject: thin-alias-hop-depth>=2"
  ∧ reason v ≠ "reject: thin-alias-via-helper".
Proof.
  unfold analyze_wrapper_strict_plus. simpl.
  destruct (_function_body_cursor func) as [body|]; [|done].
  destruct (unknown _); [done|].
  destruct (bool_decide (0 ∈ _) && negb _); [by simpl|].
  set (st := walk_calls tu _ _ body _).
  destruct (decide (length (w_hit_locs st) = 0)); [done|].
  destruct (head (w_apis st)) as [first_api|]; simpl.
  - destruct (Py.truthy first_api && bool_decide (first_api ∈ thin_aliases catalog));
      destruct (Py.truthy first_api && bool_decide (first_api ∈ thin));
      (destruct (_ && negb (_ && is_atomic_pair _ _)); [done|]);
      by destruct (check_arguments_provenance _ _ _ _) as [ok tr].
  - destruct (_ && negb (_ && is_atomic_pair _ _)); [done|].
    by destruct (check_arguments_provenance _ _ _ _) as [ok tr].
Qed.

End Verdicts.

(** ** The taint analysis *)

Section Taint.

Context (tu : gmap N Cursor) (helpers : HelperConfig).

(** Whether [taint_expr] finds an expression tainted, without the trace. *)
Lemma taint_expr_refers (e : Cursor) (st : TaintState) :
  (taint_expr tu e st helpers).1 = refers_to tu (is_tainted st) e.
Proof.
  induction e as [e IH] using Cursor_nested_ind.
  destruct e as [k sp dn hs lc df rf cn tk ev rt kids]. simpl in *.
  destruct (decide (k = DECL_REF_EXPR)); [by case_match|].
  destruct (decide (k = CALL_EXPR)); [by case_match|].
  induction IH as [|ch rest Hch _ IHr]; simpl; [done|].
  rewrite <- Hch. destruct (taint_expr tu ch st helpers) as [[] tr]; simpl; [done|].
  exact IHr.
Qed.

Lemma refers_to_mono (P Q : string → bool) (e : Cursor) :
  (∀ k, P k = true → Q k = true) →
  refers_to tu P e = true → refers_to tu Q e = true.
Proof.
  intros HPQ. induction e as [e IH] using Cursor_nested_ind.
  destruct e as [k sp dn hs lc df rf cn tk ev rt kids]. simpl in *.
  destruct (decide (k = DECL_REF_EXPR)); [apply HPQ|].
  destruct (decide (k = CALL_EXPR)); [done|].
  induction IH as [|ch rest Hch _ IHr]; simpl; [done|].
  intros [?|?]%orb_true_iff; apply orb_true_iff; auto.
Qed.

Lemma refers_to_false (P : string → bool) (e : Cursor) :
  (∀ k, P k = false) → refers_to tu P e = false.
Proof.
  intros HP. induction e as [e IH] using Cursor_nested_ind.
  destruct e as [k sp dn hs lc df rf cn tk ev rt kids]. simpl in *.
  destruct (decide (k = DECL_REF_EXPR)); [apply HP|].
  destruct (decide (k = CALL_EXPR)); [done|].
  induction IH as [|ch rest Hch _ IHr]; simpl; [done|].
  by rewrite Hch, IHr.
Qed.

Lemma is_tainted_mark st key why k :
  is_tainted st k = true → is_tainted (mark st key why) k = true.
Proof.
  unfold is_tainted, mark. simpl. intros Hs%bool_decide_eq_true.
  apply bool_decide_eq_true. apply lookup_insert_is_Some.
  destruct (decide (key = k)); auto.
Qed.

Lemma is_tainted_mark_all st key reasons k :
  is_tainted st k = true → is_tainted (mark_all st key reasons) k = true.
Proof.
  unfold mark_all. revert st.
  induction reasons as [|r l IH]; intros st Hs; simpl; [done|].
  by apply IH, is_tainted_mark.
Qed.

Lemma taint_stmt_grows (stmt : Cursor) :
  ∀ st k, is_tainted st k = true → is_tainted (taint_stmt tu stmt st helpers) k = true.
Proof.
  induction stmt as [c IH] using Cursor_nested_ind. intros st k Hs.
  destruct c as [kd sp dn hs lc df rf cn tk ev rt kids]. simpl in *.
  destruct (decide (kd = VAR_DECL)).
  { clear IH. generalize (_var_key tu (mkCursor kd sp dn hs lc df rf cn tk ev rt kids)).
    intros lhs. revert st Hs. induction kids as [|ch rest IHr]; intros st Hs; simpl; [done|].
    apply IHr. destruct (taint_expr tu ch st helpers) as [[] tr]; [|done].
    by apply is_tainted_mark_all. }
  destruct (decide (kd = BINARY_OPERATOR)).
  { destruct kids as [|lhs [|rhs [|? ?]]]; try done.
    case_decide; [|done].
    destruct (taint_expr tu rhs st helpers) as [[] tr]; [|done].
    by apply is_tainted_mark_all. }
  destruct (decide (kd = RETURN_STMT)).
  { clear IH. revert st Hs. induction kids as [|ch rest IHr]; intros st Hs; simpl; [done|].
    apply IHr. by destruct (taint_expr tu ch st helpers) as [[] tr]. }
  revert st Hs. induction IH as [|ch rest Hch _ IHr]; intros st Hs; simpl; [done|].
  by apply IHr, Hch.
Qed.


(** Whether every argument of every call is tainted: the first component of
    [check_arguments_provenance]. *)
Lemma provenance_ok_fold (st : TaintState) (calls : list Cursor) :
  (foldl (λ '(ok, trace_out) call,
            foldl (λ '(ok, trace_out) '(i, arg),
                     let '(t, tr) := taint_expr tu arg st helpers in
                     (ok && t, trace_out ++ [arg_line i t tr]))
                  (ok, trace_out) (imap pair (extract_call_args call)))
         (true, []) calls).1
  = forallb (λ call, forallb (λ arg, refers_to tu (is_tainted st) arg)
                             (extract_call_args call)) calls.
Proof.
  cut (∀ ok tr,
         (foldl (λ '(ok, trace_out) call,
            foldl (λ '(ok, trace_out) '(i, arg),
                     let '(t, tr) := taint_expr tu arg st helpers in
                     (ok && t, trace_out ++ [arg_line i t tr]))
                  (ok, trace_out) (imap pair (extract_call_args call)))
         (ok, tr) calls).1
         = ok && forallb (λ call, forallb (λ arg, refers_to tu (is_tainted st) arg)
                                          (extract_call_args call)) calls).
  { intros Hcut. apply (Hcut true []). }
  induction calls as [|call rest IH]; intros ok tr; simpl.
  - by rewrite andb_true_r.
  - assert (Hin : ∀ (g : nat → Cursor → nat * Cursor) l ok tr,
              (∀ i a, (g i a).2 = a) →
              ∃ tr', foldl (λ '(ok, trace_out) '(i, arg),
                        let '(t, tr) := taint_expr tu arg st helpers in
                        (ok && t, trace_out ++ [arg_line i t tr]))
                     (ok, tr) (imap g l)
                   = (ok && forallb (λ arg, refers_to tu (is_tainted st) arg) l, tr')).
    { clear. intros g l. revert g.
      induction l as [|a l IHl]; intros g ok tr Hg; simpl.
      - exists tr. by rewrite andb_true_r.
      - specialize (Hg 0 a) as Hga. destruct (g 0 a) as [i a'] eqn:Eg. simpl in Hga. subst a'.
        rewrite <- taint_expr_refers.
        destruct (taint_expr tu a st helpers) as [t tr1]. simpl.
        destruct (IHl (g ∘ S) (ok && t) (tr ++ [arg_line i t tr1])) as (tr' & Heq).
        { intros j b. apply Hg. }
        exists tr'. rewrite Heq. by rewrite andb_assoc. }
    destruct (Hin pair (extract_call_args call) ok tr) as (tr' & Heq); [done|].
    rewrite Heq, IH. by rewrite andb_assoc.
Qed.

Lemma check_arguments_provenance_ok func body calls :
  _function_body_cursor func = Some body →
  (check_arguments_provenance tu func calls helpers).1
  = forallb (λ call,
               forallb (λ arg, refers_to tu
                                 (is_tainted (taint_stmt tu body (param_taint tu func) helpers))
                                 arg)
                       (extract_call_args call)) calls.
Proof.
  intros Hb. unfold check_arguments_provenance. rewrite Hb.
  apply provenance_ok_fold.
Qed.

Lemma param_taint_marks func p :
  p ∈ _gather_params func → is_tainted (param_taint tu func) (_var_key tu p) = true.
Proof.
  unfold _gather_params, param_taint. intros [Hp Hin]%list_elem_of_filter.
  revert Hin. generalize (mkTaintState ∅ false []).
  induction (get_children func) as [|ch rest IH]; intros st Hin; [by inversion Hin|].
  simpl. apply elem_of_cons in Hin as [<-|Hin]; [|by apply IH].
  rewrite Hp.
  assert (Hm : is_tainted (mark st (_var_key tu p) (spelling p +:+ " is param"))
                 (_var_key tu p) = true).
  { unfold is_tainted, mark. simpl. apply bool_decide_eq_true.
    rewrite lookup_insert_eq. eauto. }
  revert Hm. generalize (mark st (_var_key tu p) (spelling p +:+ " is param")).
  clear. induction rest as [|ch rest IH]; intros st Hm; simpl; [done|].
  apply IH. case_match; [by apply is_tainted_mark|done].
Qed.

(** X12. [taint_stmt] never removes taint: a variable that is tainted
    before a statement is tainted after it. *)
Theorem taint_only_grows (stmt : Cursor) (st : TaintState) (key : string) :
  is_tainted st key = true →
  is_tainted (taint_stmt tu stmt st helpers) key = true.
Proof. apply taint_stmt_grows. Qed.

(** X13. For a function with a body, when every argument of every counted
    call refers to a parameter of the function (a reference to it, reached
    through nodes that are neither references nor calls), the provenance
    check answers true. *)
Theorem parameter_arguments_derive (func body : Cursor) (calls : list Cursor) :
  _function_body_cursor func = Some body →
  (∀ call arg, call ∈ calls → arg ∈ extract_call_args call →
     refers_to tu (λ key, bool_decide (key ∈ map (_var_key tu) (_gather_params func)))
               arg = true) →
  (check_arguments_provenance tu func calls helpers).1 = true.
Proof.
  intros Hb Hall. rewrite (check_arguments_provenance_ok func body calls Hb).
  apply forallb_forall. intros call Hc%list_elem_of_In.
  apply forallb_forall. intros arg Ha%list_elem_of_In.
  eapply refers_to_mono; [|by apply (Hall call arg)].
  intros key (p & <- & Hp%list_elem_of_In)%bool_decide_eq_true%list_elem_of_In%in_map_iff.
  by apply taint_stmt_grows, param_taint_marks.
Qed.

(** X14. For a function with a body, when some argument of a counted call
    is itself a call expression, or a node without children that is not a
    reference (a literal), the provenance check answers false. *)
Theorem call_argument_not_derived (func body call arg : Cursor) (calls : list Cursor) :
  _function_body_cursor func = Some body →
  call ∈ calls → arg ∈ extract_call_args call →
  kind arg = CALL_EXPR ∨ (kind arg ≠ DECL_REF_EXPR ∧ get_children arg = []) →
  (check_arguments_provenance tu func calls helpers).1 = false.
Proof.
  intros Hb Hc Ha Hk. rewrite (check_arguments_provenance_ok func body calls Hb).
  apply not_true_iff_false. intros Hall.
  rewrite forallb_forall in Hall. apply list_elem_of_In, Hall in Hc.
  rewrite forallb_forall in Hc. apply list_elem_of_In, Hc in Ha.
  destruct arg as [k sp dn hs lc df rf cn tk ev rt kids]. simpl in *.
  destruct Hk as [->|[Hn ->]].
  - by rewrite decide_False in Ha.
  - rewrite decide_False in Ha by done. by case_decide.
Qed.


Lemma untainted_expr (e : Cursor) (st : TaintState) :
  taint st = ∅ → (taint_expr tu e st helpers).1 = false.
Proof.
  intros He. rewrite taint_expr_refers. apply refers_to_false.
  intros k. unfold is_tainted. rewrite He, lookup_empty.
  apply bool_decide_eq_false. by intros [? ?].
Qed.

Lemma taint_stmt_empty (stmt : Cursor) :
  ∀ st, taint st = ∅ → taint (taint_stmt tu stmt st helpers) = ∅.
Proof.
  induction stmt as [c IH] using Cursor_nested_ind. intros st Hs.
  destruct c as [kd sp dn hs lc df rf cn tk ev rt kids]. simpl in *.
  destruct (decide (kd = VAR_DECL)).
  { clear IH. generalize (_var_key tu (mkCursor kd sp dn hs lc df rf cn tk ev rt kids)).
    intros lhs. revert st Hs. induction kids as [|ch rest IHr]; intros st Hs; simpl; [done|].
    apply IHr. pose proof (untainted_expr ch st Hs) as Hu.
    by destruct (taint_expr tu ch st helpers) as [[] tr]. }
  destruct (decide (kd = BINARY_OPERATOR)).
  { destruct kids as [|lhs [|rhs [|? ?]]]; try done.
    case_decide; [|done]. pose proof (untainted_expr rhs st Hs) as Hu.
    by destruct (taint_expr tu rhs st helpers) as [[] tr]. }
  destruct (decide (kd = RETURN_STMT)).
  { clear IH. revert st Hs. induction kids as [|ch rest IHr]; intros st Hs; simpl; [done|].
    apply IHr. by destruct (taint_expr tu ch st helpers) as [[] tr]. }
  revert st Hs. induction IH as [|ch rest Hch _ IHr]; intros st Hs; simpl; [done|].
  by apply IHr, Hch.
Qed.

Lemma param_taint_empty func :
  _gather_params func = [] → taint (param_taint tu func) = ∅.
Proof.
  unfold param_taint, _gather_params.
  assert (Hgen : ∀ st : TaintState, taint st = ∅ →
            filter (λ ch, _is_param ch = true) (get_children func) = [] →
            taint (foldl (λ st ch,
                     if _is_param ch
                     then mark st (_var_key tu ch) (spelling ch +:+ " is param")
                     else st) st (get_children func)) = ∅).
  { induction (get_children func) as [|ch rest IH]; intros st Hs Hf; simpl; [done|].
    rewrite filter_cons in Hf. destruct (decide (_is_param ch = true)) as [|Hn]; [done|].
    apply not_true_is_false in Hn. rewrite Hn. by apply IH. }
  by apply Hgen.
Qed.

(** X15. For a function with a body and without parameters, the
    provenance check answers true exactly when no counted call has an
    argument. *)
Theorem no_parameters_provenance (func body : Cursor) (calls : list Cursor) :
  _function_body_cursor func = Some body →
  _gather_params func = [] →
  (check_arguments_provenance tu func calls helpers).1 = true
  ↔ ∀ call, call ∈ calls → extract_call_args call = [].
Proof.
  intros Hb Hp. rewrite (check_arguments_provenance_ok func body calls Hb).
  assert (He : taint (taint_stmt tu body (param_taint tu func) helpers) = ∅).
  { by apply taint_stmt_empty, param_taint_empty. }
  assert (Hf : ∀ arg, refers_to tu
                 (is_tainted (taint_stmt tu body (param_taint tu func) helpers)) arg = false).
  { intros arg. rewrite <- taint_expr_refers. by apply untainted_expr. }
  rewrite forallb_forall. split.
  - intros Hall call Hc. apply list_elem_of_In, Hall in Hc.
    destruct (extract_call_args call) as [|a l]; [done|].
    simpl in Hc. by rewrite Hf in Hc.
  - intros Hall call Hc%list_elem_of_In. by rewrite (Hall call Hc).
Qed.

End Taint.

(** ** Argument pass-through *)

Section ArgPass.

Context (tu : gmap N Cursor).

Lemma pretty_N_go_ne_all x s : s ≠ "all" → pretty_N_go x s ≠ "all".
Proof.
  revert s. induction (N.lt_wf_0 x) as [x _ IH]; intros s ?.
  assert (x = 0 ∨ 0 < x)%N as [->|?] by lia.
  - by rewrite pretty_N_go_0.
  - rewrite pretty_N_go_step by done. apply IH.
    { by apply N.div_lt. }
    unfold pretty_N_char. by repeat case_match.
Qed.

Lemma pretty_nat_ne_all (n : nat) : pretty n ≠ "all".
Proof.
  unfold pretty, pretty_nat, pretty, pretty_N. case_decide; [done|].
  by apply pretty_N_go_ne_all.
Qed.

Lemma arg_loop_hit (pk : gset string) (calls : list Cursor) (used : gset string) :
  (arg_loop tu pk calls used).1 = true
  ↔ size pk ≠ 0 ∧ ∃ call, call ∈ calls ∧ all_direct tu pk call = true.
Proof.
  revert used. induction calls as [|call rest IH]; intros used; simpl.
  - split; [done|]. intros (_ & call & Hin & _). by inversion Hin.
  - destruct (decide (size pk = 0)) as [Hz|Hz].
    + rewrite IH. split; [tauto|]. by intros [? _].
    + fold (direct_keys tu pk call). 
      destruct (forallb _ _ && bool_decide (NoDup _) && bool_decide (_ = _)) eqn:Hall.
      * simpl. split; [|done]. intros _. split; [done|]. exists call. split; [by left|].
        exact Hall.
      * rewrite IH. split.
        -- intros (_ & c & Hin & Hc). split; [done|]. exists c. split; [by right|done].
        -- intros (_ & c & Hin & Hc). split; [done|].
           apply elem_of_cons in Hin as [->|Hin]; [|by exists c].
           unfold all_direct in Hc. congruence.
Qed.

Lemma arg_loop_miss (pk : gset string) (calls : list Cursor) (used : gset string) :
  size pk ≠ 0 →
  (arg_loop tu pk calls used).1 = false →
  (arg_loop tu pk calls used).2
  = used ∪ ⋃ (map (λ call, list_to_set (direct_keys tu pk call)) calls).
Proof.
  intros Hz. revert used. induction calls as [|call rest IH]; intros used; simpl.
  - intros _. set_solver.
  - rewrite decide_False by done. fold (direct_keys tu pk call).
    destruct (forallb _ _ && bool_decide (NoDup _) && bool_decide (_ = _)); [done|].
    intros Hm. rewrite (IH _ Hm). set_solver.
Qed.


Lemma direct_keys_elem pk call k :
  k ∈ direct_keys tu pk call
  ↔ k ∈ pk ∧ ∃ arg, arg ∈ extract_call_args call ∧ _is_direct_param_ref tu arg = Some k.
Proof.
  unfold direct_keys. rewrite list_elem_of_omap. split.
  - intros (o & Ho & Hk). apply list_elem_of_In, in_map_iff in Ho as (arg & <- & Ha).
    destruct (_is_direct_param_ref tu arg) as [k'|] eqn:E; [|done].
    case_bool_decide; [|done]. injection Hk as ->.
    split; [done|]. exists arg. by rewrite <- list_elem_of_In in Ha.
  - intros (Hk & arg & Ha & Hr). exists (Some k). split.
    + apply list_elem_of_In, in_map_iff. exists arg. by rewrite <- list_elem_of_In.
    + by rewrite bool_decide_eq_true_2.
Qed.

Lemma all_direct_keys pk call :
  forallb (λ o, match o with
                | Some k => bool_decide (k ∈ pk)
                | None => false
                end) (map (_is_direct_param_ref tu) (extract_call_args call)) = true →
  map (_is_direct_param_ref tu) (extract_call_args call)
  = map Some (direct_keys tu pk call).
Proof.
  unfold direct_keys.
  induction (map (_is_direct_param_ref tu) (extract_call_args call)) as [|o l IH];
    simpl; [done|].
  intros [Ho Hl]%andb_true_iff. destruct o as [k|]; [|done].
  rewrite Ho. simpl. f_equal. by apply IH.
Qed.

Lemma direct_keys_all pk call keys :
  map (_is_direct_param_ref tu) (extract_call_args call) = map Some keys →
  (∀ k, k ∈ keys → k ∈ pk) →
  direct_keys tu pk call = keys
  ∧ forallb (λ o, match o with
                  | Some k => bool_decide (k ∈ pk)
                  | None => false
                  end) (map (_is_direct_param_ref tu) (extract_call_args call)) = true.
Proof.
  unfold direct_keys. intros ->. clear call.
  induction keys as [|k l IH]; intros Hin; simpl; [done|].
  rewrite bool_decide_eq_true_2 by (apply Hin; by left). simpl.
  destruct IH as [IH1 IH2]; [intros k' Hk'; apply Hin; by right|].
  split; [f_equal; exact IH1 | exact IH2].
Qed.

(** X16. With at least one matching call, [arg_pass] is ["yes - all"]
    exactly when some matching call passes every parameter of the function
    directly, each once and nothing else: its arguments are direct parameter
    references with distinct keys that are, as a set, the keys of the
    parameters, and there is at least one. *)
Theorem arg_pass_all_iff (fn : Cursor) (calls : list Cursor) :
  calls ≠ [] →
  (compute_arg_ret_pass_multi tu fn calls).1 = "yes - all"
  ↔ ∃ call keys,
      call ∈ calls
      ∧ map (_is_direct_param_ref tu) (extract_call_args call) = map Some keys
      ∧ NoDup keys ∧ keys ≠ []
      ∧ (list_to_set keys : gset string)
        = list_to_set (map (_var_key tu) (_gather_params fn)).
Proof.
  intros Hne. unfold compute_arg_ret_pass_multi.
  destruct calls as [|c0 rest]; [done|]. clear Hne.
  set (calls := c0 :: rest).
  set (pk := list_to_set (map (_var_key tu) (_gather_params fn)) : gset string).
  pose proof (arg_loop_hit pk calls ∅) as Hhit.
  destruct (arg_loop tu pk calls ∅) as [b used]. simpl in Hhit.
  destruct b; simpl.
  - split; [intros _|done].
    destruct (proj1 Hhit eq_refl) as (Hz & call & Hin & Hall).
    apply andb_true_iff in Hall as [Hall Hsize%bool_decide_eq_true].
    apply andb_true_iff in Hall as [Hgood Hnd%bool_decide_eq_true].
    exists call, (direct_keys tu pk call). split; [done|].
    split; [by apply all_direct_keys|]. split; [done|].
    assert (Hsub : (list_to_set (direct_keys tu pk call) : gset string) ⊆ pk).
    { intros k Hk%elem_of_list_to_set%direct_keys_elem. tauto. }
    split.
    + intros He. rewrite He, list_to_set_nil, size_empty in Hsize. done.
    + apply set_subseteq_size_eq; [done|lia].
  - split.
    + intros Heq. exfalso. case_decide.
      * simpl in Heq. injection Heq as Heq. by apply (pretty_nat_ne_all (size used)).
      * discriminate.
    + intros (call & keys & Hin & Hmap & Hnd & Hk & Hset). exfalso.
      assert (Htrue : false = true); [|done]. apply Hhit.
      destruct (direct_keys_all pk call keys Hmap) as [Hd Hg].
      { intros k Hkin. rewrite <- Hset. by apply elem_of_list_to_set. }
      split.
      * rewrite <- Hset. apply size_non_empty_iff. intros He.
        destruct keys as [|k l]; [done|]. set_solver.
      * exists call. split; [done|]. unfold all_direct. rewrite Hg, Hd. simpl.
        rewrite (bool_decide_eq_true_2 _ Hnd). simpl.
        apply bool_decide_eq_true. by rewrite Hset.
Qed.


Lemma arg_loop_no_keys (pk : gset string) (calls : list Cursor) (used : gset string) :
  size pk = 0 → arg_loop tu pk calls used = (false, used).
Proof.
  intros Hz. induction calls as [|call rest IH]; simpl; [done|].
  by rewrite decide_True.
Qed.

Lemma arg_pass_eq (fn : Cursor) (calls : list Cursor) :
  calls ≠ [] →
  (compute_arg_ret_pass_multi tu fn calls).1
  = let r := arg_loop tu (list_to_set (map (_var_key tu) (_gather_params fn))) calls ∅ in
    if r.1 then "yes - all"
    else if decide (r.2 ≠ ∅) then "yes - " +:+ pretty (size r.2)
    else "no".
Proof.
  intros Hne. unfold compute_arg_ret_pass_multi.
  destruct calls as [|c0 rest]; [done|].
  by destruct (arg_loop tu _ (c0 :: rest) ∅) as [[] used].
Qed.

(** X17. [arg_pass] is ["no"] exactly when no argument of a matching call
    is a direct reference to a parameter of the function. *)
Theorem arg_pass_no_iff (fn : Cursor) (calls : list Cursor) :
  (compute_arg_ret_pass_multi tu fn calls).1 = "no"
  ↔ ∀ call arg k,
      call ∈ calls → arg ∈ extract_call_args call →
      _is_direct_param_ref tu arg = Some k →
      k ∉ map (_var_key tu) (_gather_params fn).
Proof.
  destruct (decide (calls = [])) as [->|Hne].
  { simpl. split; [|done]. intros _ call arg k Hin. by inversion Hin. }
  rewrite (arg_pass_eq fn calls Hne).
  set (pk := list_to_set (map (_var_key tu) (_gather_params fn)) : gset string).
  assert (Hpk : ∀ k, k ∈ pk ↔ k ∈ map (_var_key tu) (_gather_params fn)).
  { intros k. apply elem_of_list_to_set. }
  destruct (decide (size pk = 0)) as [Hz|Hz].
  { rewrite (arg_loop_no_keys pk calls ∅ Hz). simpl.
    rewrite decide_False by (intros Hc; by apply Hc). split; [|done].
    intros _ call arg k _ _ _ Hk%Hpk. apply size_empty_inv in Hz. set_solver. }
  pose proof (arg_loop_hit pk calls ∅) as Hhit.
  pose proof (arg_loop_miss pk calls ∅ Hz) as Hmiss.
  destruct (arg_loop tu pk calls ∅) as [b used]. simpl in Hhit, Hmiss.
  assert (Hin_used : ∀ k, k ∈ ⋃ map (λ call, list_to_set (direct_keys tu pk call) : gset string) calls
            ↔ k ∈ pk ∧ ∃ call arg, call ∈ calls ∧ arg ∈ extract_call_args call
                                    ∧ _is_direct_param_ref tu arg = Some k).
  { intros k. rewrite elem_of_union_list. split.
    - intros (X & HX & Hk).
      apply list_elem_of_In, in_map_iff in HX as (call & <- & Hin%list_elem_of_In).
      apply elem_of_list_to_set, direct_keys_elem in Hk as (Hk & arg & Ha & Hr).
      split; [done|]. by exists call, arg.
    - intros (Hk & call & arg & Hin & Ha & Hr).
      exists (list_to_set (direct_keys tu pk call)). split.
      + apply list_elem_of_In, in_map_iff. exists call. by rewrite <- list_elem_of_In.
      + apply elem_of_list_to_set, direct_keys_elem. eauto. }
  destruct b; simpl.
  - split; [done|]. intros Hall. exfalso.
    destruct (proj1 Hhit eq_refl) as (_ & call & Hin & Hd).
    apply andb_true_iff in Hd as [_ Hsize%bool_decide_eq_true].
    destruct (direct_keys tu pk call) as [|k l] eqn:Hdk.
    + rewrite list_to_set_nil, size_empty in Hsize. done.
    + assert (Hk : k ∈ direct_keys tu pk call) by (rewrite Hdk; by left).
      apply direct_keys_elem in Hk as (Hk & arg & Ha & Hr).
      by apply (Hall call arg k Hin Ha Hr), Hpk.
  - specialize (Hmiss eq_refl). subst used.
    destruct (decide (_ ≠ ∅)) as [Hu|Hu].
    + split; [discriminate|]. intros Hall. exfalso. apply Hu.
      apply set_eq. intros k. split; [|set_solver].
      intros [?|(Hk & call & arg & Hin & Ha & Hr)%Hin_used]%elem_of_union; [set_solver|].
      exfalso. by apply (Hall call arg k Hin Ha Hr), Hpk.
    + split; [|done]. intros _ call arg k Hin Ha Hr Hk%Hpk.
      apply Hu. apply (non_empty_inhabited_L k). apply elem_of_union. right.
      apply Hin_used. split; [done|]. by exists call, arg.
Qed.

End ArgPass.

Section StripNoop.

Context (tu : gmap N Cursor).

(** X18. [_strip_noop] is idempotent, and what it returns is not a paren,
    a cast or an unexposed node unless that node has no children. *)
Theorem strip_noop_idempotent (n : Cursor) :
  _strip_noop (_strip_noop n) = _strip_noop n
  ∧ (is_noop_kind (kind (_strip_noop n)) = true → get_children (_strip_noop n) = []).
Proof.
  induction n as [n IH] using Cursor_nested_ind.
  rewrite (strip_noop_eq n).
  destruct (is_noop_kind (kind n)) eqn:Hk.
  - destruct (last (get_children n)) as [x|] eqn:Hl.
    + apply last_Some in Hl as (l' & Hl). rewrite Hl in IH.
      apply Forall_app in IH as [_ IH]. by inversion IH.
    + rewrite (strip_noop_eq n), Hk, Hl. split; [done|]. intros _.
      by apply last_None.
  - rewrite (strip_noop_eq n), Hk. split; [done|]. congruence.
Qed.

(** X19. A paren, a cast or an unexposed node is transparent: it strips
    to what its last child strips to, and it is a direct parameter reference
    exactly when its last child is, with the same key. *)
Theorem noop_wrappers_transparent (n x : Cursor) :
  is_noop_kind (kind n) = true →
  last (get_children n) = Some x →
  _strip_noop n = _strip_noop x
  ∧ _is_direct_param_ref tu n = _is_direct_param_ref tu x.
Proof.
  intros Hk Hl. assert (Hs : _strip_noop n = _strip_noop x).
  { by rewrite (strip_noop_eq n), Hk, Hl. }
  split; [done|]. unfold _is_direct_param_ref. by rewrite Hs.
Qed.

End StripNoop.

(** ** The [syscall] indirection *)

Section Syscall.

Context (tu : gmap N Cursor).

Lemma take_word_all (name : string) :
  forallb Py.is_word (list_ascii_of_string name) = true → take_word name = name.
Proof.
  induction name as [|c r IH]; simpl; [done|].
  intros [-> Hr]%andb_true_iff. by rewrite IH.
Qed.

Lemma search_sys_prefixed (name : string) :
  name ≠ "" →
  forallb Py.is_word (list_ascii_of_string name) = true →
  search_sys ("SYS_" +:+ name) = Some name
  ∧ search_sys ("__NR_" +:+ name) = Some name.
Proof.
  intros Hne Hw. apply truthy_ne in Hne.
  split.
  - change ("SYS_" +:+ name) with (String "S" (String "Y" (String "S" (String "_" name)))).
    cbn [search_sys]. unfold match_sys_here. cbn [Py.strip_prefix].
    rewrite !decide_True by done. rewrite take_word_all by done. by rewrite Hne.
  - change ("__NR_" +:+ name)
      with (String "_" (String "_" (String "N" (String "R" (String "_" name))))).
    cbn [search_sys]. unfold match_sys_here. cbn [Py.strip_prefix].
    rewrite decide_False by done. rewrite !decide_True by done.
    rewrite take_word_all by done. by rewrite Hne.
Qed.

(** X20. A call of [syscall] whose first argument has the token text
    [SYS_<name>] or [__NR_<name>], for a non-empty [name] of word
    characters, resolves to [name]. *)
Theorem syscall_selector_resolves (call c0 selector : Cursor) (rest : list Cursor)
    (name : string) :
  _callee_name tu call = "syscall" →
  get_children call = c0 :: selector :: rest →
  Py.join "" (tokens selector) = "SYS_" +:+ name
  ∨ Py.join "" (tokens selector) = "__NR_" +:+ name →
  name ≠ "" →
  forallb Py.is_word (list_ascii_of_string name) = true →
  resolve_syscall_indirection tu call = Some name.
Proof.
  intros Hn Hk Htxt Hne Hw. unfold resolve_syscall_indirection.
  rewrite Hn, Hk. rewrite decide_False by (intros Hc; by apply Hc).
  destruct (search_sys_prefixed name Hne Hw) as [H1 H2].
  destruct Htxt as [-> | ->]; by rewrite ?H1, ?H2.
Qed.

End Syscall.

(** ** What the sanitizer returns *)

Section SanitizerOutput.

Context (host : Host).

(** A property of argument lists that survives what the sanitizer does
    after its main loop: appending arguments. *)
Lemma add_if_app (b : bool) (extra l : list string) :
  ∃ e, add_if b extra l = l ++ e.
Proof. destruct b; simpl; [by exists extra|]. exists []. by rewrite app_nil_r. Qed.

Lemma sanitize_tail (P : list string → Prop) (raw_args : list string)
    (src_path entry_dir : string) (k : nat) :
  (∀ l e, P l → P (l ++ e)) →
  (∀ l, P l → P (["-x"; lang_of src_path] ++ l)) →
  let st := scan host entry_dir true (flat_map (_split_response_file host) raw_args)
                 (mkScan [] false false false) in
  let f1 := add_if (negb (existsb is_working_directory (filtered st)))
                   ["-working-directory=" +:+ path_str host entry_dir] (filtered st) in
  let f2 := add_if (negb (bool_decide (parent_resolve host src_path = resolve host entry_dir))
                    && negb (_include_already_present f1 (parent_resolve host src_path)))
                   ["-I"; parent_resolve host src_path] f1 in
  let f3 := add_if (negb (_has_sys_include host f2 "/usr/include"))
                   ["-I"; "/usr/include"] f2 in
  let f4 := add_if (isdir host "/usr/include/x86_64-linux-gnu"
                    && negb (_has_sys_include host f3 "/usr/include/x86_64-linux-gnu"))
                   ["-I"; "/usr/include/x86_64-linux-gnu"] f3 in
  P (nth k [filtered st; f1; f2; f3; f4] f4) →
  P (_sanitize_clang_args_for_libclang host raw_args src_path entry_dir).
Proof.
  intros Happ Hpre st f1 f2 f3 f4 Hk.
  assert (H4 : P f4).
  { destruct (add_if_app (negb (existsb is_working_directory (filtered st)))
                ["-working-directory=" +:+ path_str host entry_dir] (filtered st))
      as (e1 & He1). fold f1 in He1.
    destruct (add_if_app (negb (bool_decide (parent_resolve host src_path
                                             = resolve host entry_dir))
                          && negb (_include_already_present f1 (parent_resolve host src_path)))
                ["-I"; parent_resolve host src_path] f1) as (e2 & He2). fold f2 in He2.
    destruct (add_if_app (negb (_has_sys_include host f2 "/usr/include"))
                ["-I"; "/usr/include"] f2) as (e3 & He3). fold f3 in He3.
    destruct (add_if_app (isdir host "/usr/include/x86_64-linux-gnu"
                          && negb (_has_sys_include host f3 "/usr/include/x86_64-linux-gnu"))
                ["-I"; "/usr/include/x86_64-linux-gnu"] f3) as (e4 & He4). fold f4 in He4.
    destruct k as [|[|[|[|k]]]]; simpl in Hk.
    - rewrite He4, He3, He2, He1. by do 4 apply Happ.
    - rewrite He4, He3, He2. by do 3 apply Happ.
    - rewrite He4, He3. by do 2 apply Happ.
    - rewrite He4. by apply Happ.
    - by destruct k as [|[|?]]. }
  clear Hk. unfold _sanitize_clang_args_for_libclang. cbn zeta.
  fold st. fold f1. fold f2. fold f3. fold f4.
  set (f5 := if saw_resource_dir st then f4 else _).
  assert (H5 : P f5).
  { subst f5. destruct (saw_resource_dir st); [done|].
    destruct (picked_resource_dir host) as [picked|]; [|done].
    destruct (Py.truthy picked); [by apply Happ|done]. }
  set (f6 := if ADD_DEFAULTS host && _ then _ else f5).
  assert (H6 : P f6).
  { subst f6. destruct (ADD_DEFAULTS host && _); [|done]. simpl.
    destruct (add_if_app (Py.truthy (resolve host entry_dir)
                          && negb (_include_already_present f5 (resolve host entry_dir)))
                ["-I"; resolve host entry_dir] f5) as (e & ->).
    destruct (add_if_app (Py.truthy (parent_resolve host src_path)
                          && negb (_include_already_present (f5 ++ e)
                                     (parent_resolve host src_path)))
                ["-I"; parent_resolve host src_path] (f5 ++ e)) as (e' & ->).
    by do 2 apply Happ. }
  destruct (saw_lang st); [done|]. by apply Hpre.
Qed.


(** When the main loop has seen [-x], it has kept it. *)
Lemma scan_saw_lang (entry_dir : string) (tokens : list string) :
  ∀ first st,
    (saw_lang st = true → "-x" ∈ filtered st) →
    saw_lang (scan host entry_dir first tokens st) = true →
    "-x" ∈ filtered (scan host entry_dir first tokens st).
Proof.
  assert (Hlen : ∀ n tokens, length tokens ≤ n →
            ∀ first st, (saw_lang st = true → "-x" ∈ filtered st) →
              saw_lang (scan host entry_dir first tokens st) = true →
              "-x" ∈ filtered (scan host entry_dir first tokens st)).
  { clear tokens. induction n as [|n IH]; intros tokens Hn first st Hst.
    { destruct tokens; [done | simpl in Hn; lia]. }
    destruct tokens as [|tok rest]; [done|]. simpl in Hn.
    assert (Hrest : ∀ st', (saw_lang st' = true → "-x" ∈ filtered st') →
              saw_lang (scan host entry_dir false rest st') = true →
              "-x" ∈ filtered (scan host entry_dir false rest st')).
    { intros st' Hst'. apply IH; [lia | done]. }
    assert (Hkeep : ∀ extra b2 b3,
              saw_lang (mkScan (filtered st ++ extra) (saw_lang st) b2 b3) = true →
              "-x" ∈ filtered (mkScan (filtered st ++ extra) (saw_lang st) b2 b3)).
    { simpl. intros extra _ _ Hs. apply elem_of_app. left. auto. }
    cbn [scan].
    repeat match goal with
           | |- saw_lang (if ?c then _ else _) = true → _ => destruct c eqn:?
           end; try (by apply Hrest); try (by apply Hrest, Hkeep).
    - destruct rest as [|val rest']; [done|]. simpl in Hn.
      repeat match goal with
             | |- saw_lang (if ?c then _ else _) = true → _ => destruct c eqn:?
             end; try (apply IH; [lia | done]); try (by apply Hrest).
      apply IH; [lia|]. simpl. intros [Hs|Hx%bool_decide_eq_true]%orb_true_iff.
      + apply elem_of_app. left. auto.
      + subst tok. apply elem_of_app. right. by left.
    - apply Hrest. unfold glued. repeat case_match; try done. apply Hkeep.
    - apply Hrest. unfold glued. repeat case_match; try done. apply Hkeep.
    - apply Hrest. unfold glued. repeat case_match; try done. apply Hkeep.
    - apply Hrest. unfold glued. repeat case_match; try done. apply Hkeep. }
  eauto.
Qed.

(** X21. The sanitized arguments always name a language: [-x] is among
    them, kept from the input or put in front. *)
Theorem sanitized_names_language (raw_args : list string) (src_path entry_dir : string) :
  "-x" ∈ _sanitize_clang_args_for_libclang host raw_args src_path entry_dir.
Proof.
  destruct (saw_lang (scan host entry_dir true
                        (flat_map (_split_response_file host) raw_args)
                        (mkScan [] false false false))) eqn:Hs.
  - apply (sanitize_tail (λ l, "-x" ∈ l) raw_args src_path entry_dir 0).
    + intros l e Hl. apply elem_of_app. by left.
    + intros l Hl. by left.
    + simpl. by apply scan_saw_lang.
  - unfold _sanitize_clang_args_for_libclang. cbn zeta. rewrite Hs. by left.
Qed.


Lemma has_sys_include_app (l e : list string) (abs_path : string) :
  _has_sys_include_from host l abs_path = true →
  _has_sys_include_from host (l ++ e) abs_path = true.
Proof.
  induction l as [|t rest IH]; [done|]. cbn [_has_sys_include_from app].
  destruct (in_list t INCLUDE_FLAGS) eqn:Hf; cbn [andb].
  - destruct rest as [|v rest']; cbn [app].
    + destruct (glued_I t) as [w|]; [|done]. case_decide; [|done]. intros _.
      by destruct (match e with [] => false | v :: _ => _ end).
    + destruct (bool_decide (resolve host v = abs_path)); [done|].
      destruct (glued_I t) as [w|]; [|exact IH]. case_decide; [done|exact IH].
  - destruct (glued_I t) as [w|]; [|exact IH]. case_decide; [done|exact IH].
Qed.

Lemma has_sys_include_added (l : list string) (p : string) :
  _has_sys_include_from host (l ++ ["-I"; p]) (resolve host p) = true.
Proof.
  induction l as [|t rest IH].
  - simpl. by rewrite bool_decide_eq_true_2.
  - cbn [_has_sys_include_from app].
    destruct (in_list t INCLUDE_FLAGS && _); [done|].
    destruct (glued_I t) as [w|]; [|exact IH]. case_decide; [done|exact IH].
Qed.

Lemma include_present_app (l e : list string) (p : string) :
  _include_already_present_from l p = true →
  _include_already_present_from (l ++ e) p = true.
Proof.
  induction l as [|a rest IH]; [done|]. cbn [_include_already_present_from app].
  destruct (decide (a = "-I")).
  - destruct rest as [|v rest']; cbn [app]; [done|].
    destruct (decide (v = p)); [done|exact IH].
  - destruct (Py.startswith "-I" a && _); [done|exact IH].
Qed.

Lemma include_present_added (l : list string) (p : string) :
  _include_already_present_from (l ++ ["-I"; p]) p = true.
Proof.
  induction l as [|a rest IH].
  - simpl. by rewrite decide_True.
  - cbn [_include_already_present_from app].
    destruct (decide (a = "-I")).
    + destruct (rest ++ ["-I"; p]) as [|v r] eqn:E; [by destruct rest|].
      destruct (decide (v = p)); [done|exact IH].
    + destruct (Py.startswith "-I" a && _); [done|exact IH].
Qed.

Lemma lang_of_cases (src_path : string) :
  lang_of src_path ∈ ["c"; "c++"; "objective-c"; "objective-c++"].
Proof.
  unfold lang_of. repeat case_match; set_solver.
Qed.

(** X22. The sanitized arguments always have [/usr/include] on the include
    path, the multiarch directory when it exists, and the directory of the
    source file when it is not the entry directory (and not empty). *)
Theorem sanitized_include_paths (raw_args : list string) (src_path entry_dir : string) :
  let out := _sanitize_clang_args_for_libclang host raw_args src_path entry_dir in
  _has_sys_include host out "/usr/include" = true
  ∧ (isdir host "/usr/include/x86_64-linux-gnu" = true →
     _has_sys_include host out "/usr/include/x86_64-linux-gnu" = true)
  ∧ (parent_resolve host src_path ≠ resolve host entry_dir →
     parent_resolve host src_path ≠ "" →
     _include_already_present out (parent_resolve host src_path) = true).
Proof.
  assert (Hx : ∀ p l, _has_sys_include_from host l p = true →
                 _has_sys_include_from host (["-x"; lang_of src_path] ++ l) p = true).
  { intros p l Hl. pose proof (lang_of_cases src_path) as Hc.
    set (lang := lang_of src_path) in *. clearbody lang.
    assert (lang = "c" ∨ lang = "c++" ∨ lang = "objective-c" ∨ lang = "objective-c++")
      as [->|[->|[->| ->]]] by set_solver; exact Hl. }
  assert (Hy : ∀ p l, _include_already_present_from l p = true →
                 _include_already_present_from (["-x"; lang_of src_path] ++ l) p = true).
  { intros p l Hl. pose proof (lang_of_cases src_path) as Hc.
    set (lang := lang_of src_path) in *. clearbody lang.
    assert (lang = "c" ∨ lang = "c++" ∨ lang = "objective-c" ∨ lang = "objective-c++")
      as [->|[->|[->| ->]]] by set_solver; exact Hl. }
  intros out. subst out. split; [|split].
  - apply (sanitize_tail (λ l, _has_sys_include host l "/usr/include" = true)
             raw_args src_path entry_dir 3).
    + intros l e. apply has_sys_include_app.
    + intros l. apply Hx.
    + cbn [nth]. unfold add_if.
      destruct (negb _) eqn:E.
      * apply has_sys_include_added.
      * by apply negb_false_iff in E.
  - intros Hdir.
    apply (sanitize_tail (λ l, _has_sys_include host l "/usr/include/x86_64-linux-gnu" = true)
             raw_args src_path entry_dir 4).
    + intros l e. apply has_sys_include_app.
    + intros l. apply Hx.
    + cbn [nth]. unfold add_if at 1. rewrite Hdir. cbn [andb].
      destruct (negb _) eqn:E.
      * apply has_sys_include_added.
      * by apply negb_false_iff in E.
  - intros Hne Hs. apply truthy_ne in Hs.
    unfold _include_already_present. rewrite Hs.
    apply (sanitize_tail (λ l, _include_already_present_from l (parent_resolve host src_path)
                               = true) raw_args src_path entry_dir 2).
    + intros l e. apply include_present_app.
    + intros l. apply Hy.
    + cbn [nth]. unfold add_if at 1. rewrite (bool_decide_eq_false_2 _ Hne). cbn [negb andb].
      destruct (negb _) eqn:E.
      * apply include_present_added.
      * apply negb_false_iff in E. unfold _include_already_present in E.
        by rewrite Hs in E.
Qed.

Lemma startswith_append (p x : string) : Py.startswith p (p +:+ x) = true.
Proof. induction p as [|c p IH]; simpl; [done|]. by rewrite decide_True. Qed.

Lemma startswith_trans (p q a : string) :
  Py.startswith p q = true → Py.startswith q a = true → Py.startswith p a = true.
Proof.
  revert q a. induction p as [|c p IH]; intros q a; simpl; [done|].
  destruct q as [|d q]; [done|]. case_decide; [subst d|done]. intros Hp.
  destruct a as [|e a]; simpl; [done|]. case_decide; [subst e|done]. eauto.
Qed.

Lemma no_dash_not_dropped (tok : string) :
  Py.startswith "-" tok = false → dropped_flag tok = false.
Proof.
  intros Hd. unfold dropped_flag.
  assert (Hl : ∀ l, forallb (Py.startswith "-") l = true → in_list tok l = false).
  { intros l Hall. apply bool_decide_eq_false. intros Hin.
    rewrite forallb_forall in Hall. apply list_elem_of_In, Hall in Hin. congruence. }
  rewrite (Hl DROP_EXACT) by done. rewrite (Hl ["-o"; "-MF"; "-MT"; "-MQ"; "-MJ"]) by done.
  assert (Hp : ∀ pref, Py.startswith "-" pref = true → Py.startswith pref tok = false).
  { intros pref Hpref. destruct (Py.startswith pref tok) eqn:E; [|done].
    by rewrite (startswith_trans _ _ _ Hpref E) in Hd. }
  unfold _is_warning. rewrite (Hp "-Wl,"), (Hp "-W") by done.
  rewrite orb_false_r. unfold DROP_PREFIXES. cbn [existsb]. by rewrite !Hp.
Qed.

Lemma passed_not_dropped (tok : string) :
  in_list tok DROP_EXACT = false →
  existsb (λ pref, Py.startswith pref tok) DROP_PREFIXES = false →
  _is_warning tok = false →
  in_list tok PAIR_FLAGS = false →
  dropped_flag tok = false.
Proof.
  intros H1 H2 H3 H4. unfold dropped_flag. rewrite H1, H2, H3. simpl.
  apply bool_decide_eq_false. intros Hin. apply bool_decide_eq_false in H4.
  apply H4. unfold PAIR_FLAGS. set_solver.
Qed.

Lemma clean_add (st : Scan) (extra : list string) (b1 b2 b3 : bool) :
  kept_clean st → Forall (λ a, dropped_flag a = false) extra →
  kept_clean (mkScan (filtered st ++ extra) b1 b2 b3).
Proof. intros Hst Hex. unfold kept_clean. simpl. by apply Forall_app. Qed.

Lemma scan_clean (entry_dir : string) (tokens : list string) :
  (∀ candidate, Py.startswith "-" (_abspath host candidate entry_dir) = false) →
  ∀ first st, kept_clean st → kept_clean (scan host entry_dir first tokens st).
Proof.
  intros Habs.
  assert (Hglued : ∀ flag tok st, dropped_flag flag = false → kept_clean st →
            kept_clean (glued host flag tok entry_dir st)).
  { intros flag tok st Hflag Hst. unfold glued. repeat case_match; try done.
    apply clean_add; [done|]. repeat constructor; [done|].
    by apply no_dash_not_dropped. }
  assert (Hlen : ∀ n tokens, length tokens ≤ n →
            ∀ first st, kept_clean st → kept_clean (scan host entry_dir first tokens st)).
  { clear tokens. induction n as [|n IH]; intros tokens Hn first st Hst.
    { destruct tokens; [done | simpl in Hn; lia]. }
    destruct tokens as [|tok rest]; [done|]. simpl in Hn.
    assert (Hrest : ∀ st', kept_clean st' → kept_clean (scan host entry_dir false rest st')).
    { intros st' Hst'. apply IH; [lia | done]. }
    cbn [scan].
    repeat match goal with
           | |- kept_clean (if ?c then _ else _) => destruct c eqn:?
           end; try (by apply Hrest).
    - (* a flag of PAIR_FLAGS *)
      destruct rest as [|val rest']; [done|]. simpl in Hn.
      repeat match goal with
             | |- kept_clean (if ?c then _ else _) => destruct c eqn:?
             end; try (apply IH; [lia | done]); try (by apply Hrest).
      apply IH; [lia|]. apply clean_add; [done|].
      constructor.
      { unfold dropped_flag.
        repeat match goal with Hc : _ = false |- _ => rewrite Hc; clear Hc end. done. }
      constructor; [|done]. case_match.
      + by apply no_dash_not_dropped.
      + apply no_dash_not_dropped. by apply negb_true_iff.
    - apply Hrest, clean_add; [done|]. repeat constructor. by apply passed_not_dropped.
    - by apply Hrest, Hglued.
    - by apply Hrest, Hglued.
    - by apply Hrest, Hglued.
    - by apply Hrest, Hglued.
    - apply Hrest, clean_add; [done|]. by repeat constructor.
    - apply Hrest, clean_add; [done|]. by repeat constructor.
    - apply Hrest, clean_add; [done|]. by repeat constructor.
    - apply Hrest, clean_add; [done|]. repeat constructor. by apply passed_not_dropped.
    - apply Hrest, clean_add; [done|]. repeat constructor. by apply passed_not_dropped.
    - apply Hrest, clean_add; [done|]. repeat constructor. by apply passed_not_dropped. }
  eauto.
Qed.


(** X23. On a host whose paths do not start with a dash, no sanitized
    argument is a flag the main loop drops: none of the exact flags and
    prefixes of its lists, no warning flag, no output or dependency-file
    flag. *)
Theorem sanitized_drops_flags (raw_args : list string) (src_path entry_dir : string) :
  posix_paths host →
  Forall (λ a, dropped_flag a = false)
         (_sanitize_clang_args_for_libclang host raw_args src_path entry_dir).
Proof.
  intros (Habs & Hres & Hpar).
  unfold _sanitize_clang_args_for_libclang. cbn zeta.
  set (st := scan host entry_dir true _ _).
  assert (H0 : Forall (λ a, dropped_flag a = false) (filtered st)).
  { apply scan_clean; [done|]. constructor. }
  assert (Hadd : ∀ b extra l,
            Forall (λ a, dropped_flag a = false) l →
            Forall (λ a, dropped_flag a = false) extra →
            Forall (λ a, dropped_flag a = false) (add_if b extra l)).
  { intros [] extra l Hl He; simpl; [by apply Forall_app|done]. }
  assert (HI : ∀ p, Py.startswith "-" p = false →
            Forall (λ a, dropped_flag a = false) ["-I"; p]).
  { intros p Hp. repeat constructor. by apply no_dash_not_dropped. }
  set (f1 := add_if _ _ (filtered st)).
  assert (H1 : Forall (λ a, dropped_flag a = false) f1).
  { apply Hadd; [done|]. by repeat constructor. }
  set (f2 := add_if _ _ f1).
  assert (H2 : Forall (λ a, dropped_flag a = false) f2) by (apply Hadd; auto).
  set (f3 := add_if _ _ f2).
  assert (H3 : Forall (λ a, dropped_flag a = false) f3) by (apply Hadd; auto).
  set (f4 := add_if _ _ f3).
  assert (H4 : Forall (λ a, dropped_flag a = false) f4) by (apply Hadd; auto).
  set (f5 := if saw_resource_dir st then f4 else _).
  assert (H5 : Forall (λ a, dropped_flag a = false) f5).
  { subst f5. destruct (saw_resource_dir st); [done|].
    destruct (picked_resource_dir host) as [picked|]; [|done].
    destruct (Py.truthy picked); [|done]. apply Forall_app. split; [done|].
    by repeat constructor. }
  set (f6 := if ADD_DEFAULTS host && _ then _ else f5).
  assert (H6 : Forall (λ a, dropped_flag a = false) f6).
  { subst f6. destruct (ADD_DEFAULTS host && _); [|done]. simpl.
    apply Hadd; [apply Hadd|]; auto. }
  destruct (saw_lang st); [done|].
  apply Forall_app. split; [|done]. constructor; [done|]. constructor; [|done].
  apply no_dash_not_dropped. pose proof (lang_of_cases src_path) as Hc.
  set (lang := lang_of src_path) in *. clearbody lang.
  assert (lang = "c" ∨ lang = "c++" ∨ lang = "objective-c" ∨ lang = "objective-c++")
    as [->|[->|[->| ->]]] by set_solver; done.
Qed.

(** X24. On a host whose paths do not start with a dash, the sanitized
    arguments hold exactly one working-directory token, the one built from
    the entry directory, whatever the input held. *)
Theorem sanitized_working_directory (raw_args : list string)
    (src_path entry_dir : string) :
  posix_paths host →
  filter (λ a, is_working_directory a = true)
         (_sanitize_clang_args_for_libclang host raw_args src_path entry_dir)
  = ["-working-directory=" +:+ path_str host entry_dir].
Proof.
  intros (Habs & Hres & Hpar).
  unfold _sanitize_clang_args_for_libclang. cbn zeta.
  set (st := scan host entry_dir true _ _).
  set (wd := "-working-directory=" +:+ path_str host entry_dir).
  assert (H0 : Forall (λ a, is_working_directory a = false) (filtered st)).
  { apply (scan_never_keeps_working_directory host Habs); constructor. }
  assert (Hwd : is_working_directory wd = true).
  { unfold is_working_directory. subst wd. rewrite startswith_append. apply orb_true_r. }
  assert (Hnone : ∀ l, Forall (λ a, is_working_directory a = false) l →
            filter (λ a, is_working_directory a = true) l = []).
  { intros l Hl. induction Hl as [|a l Ha _ IH]; [done|].
    rewrite filter_cons, decide_False by congruence. exact IH. }
  assert (Hadd : ∀ b extra l,
            filter (λ a, is_working_directory a = true) l = [wd] →
            Forall (λ a, is_working_directory a = false) extra →
            filter (λ a, is_working_directory a = true) (add_if b extra l) = [wd]).
  { intros [] extra l Hl He; simpl; [|done]. by rewrite filter_app, Hl, Hnone. }
  assert (HI : ∀ p, Py.startswith "-" p = false →
            Forall (λ a, is_working_directory a = false) ["-I"; p]).
  { intros p Hp. repeat constructor. by apply no_dash_not_working_directory. }
  set (f1 := add_if _ _ (filtered st)).
  assert (H1 : filter (λ a, is_working_directory a = true) f1 = [wd]).
  { subst f1.
    assert (Hex : existsb is_working_directory (filtered st) = false).
    { clear -H0. induction H0 as [|a l Ha _ IH]; simpl; [done|]. by rewrite Ha, IH. }
    rewrite Hex. simpl.
    rewrite filter_app, (Hnone _ H0). simpl.
    by rewrite filter_cons, decide_True, filter_nil. }
  set (f2 := add_if _ _ f1).
  assert (H2 : filter (λ a, is_working_directory a = true) f2 = [wd])
    by (apply Hadd; auto).
  set (f3 := add_if _ _ f2).
  assert (H3 : filter (λ a, is_working_directory a = true) f3 = [wd])
    by (apply Hadd; auto).
  set (f4 := add_if _ _ f3).
  assert (H4 : filter (λ a, is_working_directory a = true) f4 = [wd])
    by (apply Hadd; auto).
  set (f5 := if saw_resource_dir st then f4 else _).
  assert (H5 : filter (λ a, is_working_directory a = true) f5 = [wd]).
  { subst f5. destruct (saw_resource_dir st); [done|].
    destruct (picked_resource_dir host) as [picked|]; [|done].
    destruct (Py.truthy picked); [|done]. rewrite filter_app, H4, Hnone; [done|].
    by repeat constructor. }
  set (f6 := if ADD_DEFAULTS host && _ then _ else f5).
  assert (H6 : filter (λ a, is_working_directory a = true) f6 = [wd]).
  { subst f6. destruct (ADD_DEFAULTS host && _); [|done]. simpl.
    apply Hadd; [apply Hadd|]; auto. }
  destruct (saw_lang st); [done|].
  rewrite filter_app, H6, Hnone; [done|].
  constructor; [done|]. constructor; [|done].
  apply no_dash_not_working_directory. pose proof (lang_of_cases src_path) as Hc.
  set (lang := lang_of src_path) in *. clearbody lang.
  assert (lang = "c" ∨ lang = "c++" ∨ lang = "objective-c" ∨ lang = "objective-c++")
    as [->|[->|[->| ->]]] by set_solver; done.
Qed.

End SanitizerOutput.

(** ** The rows of a run *)

Section Rows.

Context (tu : gmap N Cursor).

Lemma strict_plus_hits func catalog pol :
  let v := analyze_wrapper_strict_plus tu func catalog pol in
  total_hits v = length (hit_locs v) ∧ (keep v = true → 0 < total_hits v).
Proof.
  unfold analyze_wrapper_strict_plus.
  destruct (_function_body_cursor func) as [body|]; [|by simpl].
  cbn zeta. destruct (unknown _); [by simpl|].
  destruct (bool_decide (0 ∈ _) && negb _); [by simpl|].
  set (st := walk_calls tu _ _ body _).
  destruct (decide (length (w_hit_locs st) = 0)) as [Hz|Hz]; [by simpl|].
  destruct (match head (w_apis st) with Some _ => _ | None => _ end); [by simpl|].
  destruct (_ && negb (_ && is_atomic_pair _ _)); [by simpl|].
  destruct (check_arguments_provenance _ _ _ _) as [ok tr]. simpl.
  split; [done|]. lia.
Qed.

Lemma relaxed_hits func catalog :
  let v := analyze_wrapper_relaxed tu func catalog in
  total_hits v = length (hit_locs v) ∧ (keep v = true → 0 < total_hits v).
Proof.
  unfold analyze_wrapper_relaxed.
  destruct (_function_body_cursor func) as [body|]; [|by simpl].
  cbn zeta. destruct (negb _); [by simpl|].
  destruct (decide _) as [Hz|Hz]; [by simpl|]. simpl.
  rewrite !length_map in *. split; [done|]. lia.
Qed.

Lemma str_or_idem (s d : string) : Py.str_or (Py.str_or s d) d = Py.str_or s d.
Proof. destruct s; [|done]. simpl. by destruct d. Qed.

Lemma function_row_key mode pol catalog src cursor key r :
  function_row tu mode pol catalog src cursor = Some (key, r) → key = row_key r.
Proof.
  unfold function_row. cbn zeta.
  destruct (if decide (legacy_map mode = "relaxed") then _ else _) as [[v th] hl].
  destruct (bool_decide _ && _); [done|].
  destruct (if bool_decide (legacy_map mode = "all") && no_name (api_name v) then _ else _)
    as [ap rp].
  intros [= <- <-]. unfold row_key. simpl.
  destruct (bool_decide (legacy_map mode = "all") && no_name (api_name v)); [|done].
  by rewrite str_or_idem.
Qed.

(** X25. The rows of a run have pairwise distinct keys (function name,
    function location, API name or ["other"]): the de-duplication leaves
    one row per key. *)
Theorem run_rows_distinct_keys (mode pol : string) (catalog : ApiCatalog) (src : string)
    (in_project : Cursor → bool) (functions : list Cursor) :
  NoDup (map row_key (run_rows tu mode pol catalog src in_project functions)).
Proof.
  unfold run_rows.
  cut (∀ acc : gset (string * string * string) * list Row,
         NoDup (map row_key acc.2) →
         (∀ k, k ∈ map row_key acc.2 → k ∈ acc.1) →
         let res := foldl
                (λ '(seen_keys, rows) cursor,
                   if negb (bool_decide (kind cursor = FUNCTION_DECL)) then (seen_keys, rows)
                   else if negb (in_project cursor) then (seen_keys, rows)
                   else
                     match function_row tu mode pol catalog src cursor with
                     | None => (seen_keys, rows)
                     | Some (dedup_key, r) =>
                         if decide (dedup_key ∈ seen_keys) then (seen_keys, rows)
                         else ({[dedup_key]} ∪ seen_keys, rows ++ [r])
                     end) acc functions in
         NoDup (map row_key res.2)).
  { intros Hcut. apply (Hcut (∅, [])); simpl; [constructor|].
    intros k Hk. by apply elem_of_nil in Hk. }
  induction functions as [|f rest IH]; intros [seen rows] Hnd Hsub; cbn [foldl]; [done|].
  apply IH.
  - repeat case_match; simpl in *; try done.
    rewrite map_app. apply NoDup_app. split; [done|]. split; [|apply NoDup_singleton].
    intros k Hk ->%list_elem_of_singleton.
    match goal with Hf : function_row _ _ _ _ _ _ = Some _ |- _ =>
      apply function_row_key in Hf; subst end.
    auto.
  - repeat case_match; simpl in *; try done.
    intros k. rewrite map_app. intros [Hk|Hk%list_elem_of_singleton]%elem_of_app.
    + apply elem_of_union. right. auto.
    + subst k. 
      match goal with Hf : function_row _ _ _ _ _ _ = Some _ |- _ =>
        apply function_row_key in Hf; subst end.
      set_solver.
Qed.


(** X26. In the modes [accurate] and [relaxed] every row names a target of
    the catalog (never the empty name), has at least one hit and as many
    hits as hit locations, has the category of its API and is flagged thin
    alias exactly when the API is one. *)
Theorem accepted_rows (mode pol : string) (catalog : ApiCatalog) (src : string)
    (in_project : Cursor → bool) (functions : list Cursor) (r : Row) :
  legacy_map mode = "accurate" ∨ legacy_map mode = "relaxed" →
  r ∈ run_rows tu mode pol catalog src in_project functions →
  row_api_called r ∈ target_names catalog
  ∧ row_api_called r ≠ ""
  ∧ 0 < row_total_target_calls r
  ∧ row_total_target_calls r = length (row_hit_locs r)
  ∧ row_category r = category_of catalog (row_api_called r)
  ∧ row_is_thin_alias r = bool_decide (row_api_called r ∈ thin_aliases catalog).
Proof.
  intros Hmode (cursor & key & _ & Hrow)%run_rows_from. revert Hrow.
  unfold function_row. cbn zeta.
  set (v := if decide (legacy_map mode = "relaxed")
            then analyze_wrapper_relaxed tu cursor catalog
            else analyze_wrapper_strict_plus tu cursor catalog pol).
  assert (Hv : total_hits v = length (hit_locs v) ∧ (keep v = true → 0 < total_hits v)).
  { subst v. case_decide; [apply relaxed_hits | apply strict_plus_hits]. }
  match goal with
  | |- context [match ?t with (_, _) => _ end] =>
      assert (Htuple : t = (v, total_hits v, hit_locs v));
      [subst v; destruct Hmode as [Hm|Hm]; rewrite Hm; done
      |rewrite Htuple; clear Htuple]
  end.
  rewrite (bool_decide_eq_true_2 (legacy_map mode = "relaxed" ∨ legacy_map mode = "accurate"))
    by tauto.
  rewrite andb_true_l.
  destruct (keep v) eqn:Hkeep; [|done]. simpl.
  destruct (total_hits v =? 0); [done|]. simpl.
  destruct (api_name v) as [a|] eqn:Ha; simpl; [|done].
  destruct (Py.truthy a) eqn:Ht; simpl; [|done].
  destruct (bool_decide (a ∈ target_names catalog)) eqn:Hin; simpl; [|done].
  rewrite (bool_decide_eq_false_2 (legacy_map mode = "all"))
    by (destruct Hmode as [->| ->]; discriminate).
  simpl. destruct (compute_arg_ret_pass_multi _ _ _) as [ap rp].
  intros [= <- <-]. simpl. destruct Hv as [Hlen Hpos].
  split; [by apply bool_decide_eq_true in Hin|]. split; [by apply truthy_ne|].
  split; [auto|]. done.
Qed.


(** X27. In the mode [all] every function gets a row; its hit count and
    hit locations are those of the collected calls that resolve to a target.
    Without such a call the row is the placeholder (["other"], ["N/A"]);
    with one its API is a target of the catalog. *)
Theorem all_mode_rows (pol : string) (catalog : ApiCatalog) (src : string)
    (cursor : Cursor) :
  let hits := resolved_hits tu cursor catalog in
  ∃ key r,
    function_row tu "all" pol catalog src cursor = Some (key, r)
    ∧ row_total_target_calls r = length hits
    ∧ row_hit_locs r = map snd hits
    ∧ (hits = [] →
       row_api_called r = "other" ∧ row_category r = "N/A" ∧ row_reason r = "N/A"
       ∧ row_arg_pass r = "N/A" ∧ row_ret_pass r = "N/A"
       ∧ row_is_thin_alias r = false)
    ∧ (hits ≠ [] →
       row_api_called r ∈ target_names catalog ∧ row_api_called r ≠ "").
Proof.
  intros hits. unfold function_row. cbn zeta.
  change (legacy_map "all") with "all".
  rewrite (decide_False (P := "all" = "relaxed")) by done.
  rewrite (decide_False (P := "all" = "accurate")) by done.
  rewrite (bool_decide_eq_false_2 ("all" = "relaxed" ∨ "all" = "accurate"))
    by (intros [?|?]; done).
  rewrite (bool_decide_eq_true_2 ("all" = "all")) by done.
  cbn [andb]. fold hits. rewrite length_map.
  destruct hits as [|[nm loc] l] eqn:Hh.
  - simpl. eexists _, _. split; [reflexivity|]. simpl. done.
  - assert (Hnm : nm ∈ target_names catalog ∧ nm ≠ "").
    { assert (Hin : (nm, loc) ∈ resolved_hits tu cursor catalog).
      { fold hits. rewrite Hh. by left. }
      apply resolved_hits_elem in Hin as (call & _ & Hres & Hne).
      split; [|done]. by eapply resolve_target_name_in. }
    destruct Hnm as [Hin Hne]. cbn [Nat.ltb Nat.leb length map fst head].
    set (v := analyze_wrapper_strict_plus tu cursor catalog pol).
    pose proof (strict_plus_api_target tu cursor catalog pol) as Hv. fold v in Hv.
    cbn [api_name keep reason].
    destruct (api_name v) as [a|] eqn:Ha; cbn [no_name].
    + destruct (Py.truthy a) eqn:Ht; cbn [negb default andb].
      * repeat (progress (cbn [no_name negb default andb api_name]; rewrite ?Ht)).
        destruct (compute_arg_ret_pass_multi _ _ _) as [ap rp].
        eexists _, _. split; [reflexivity|]. cbn [row_total_target_calls row_hit_locs
          row_api_called row_category row_reason row_arg_pass row_ret_pass
          row_is_thin_alias].
        split; [done|]. split; [done|]. split; [done|]. intros _.
        split; [by apply Hv|]. by apply truthy_ne.
      * apply truthy_ne in Hne as Ht'.
        repeat (progress (cbn [no_name negb default andb api_name]; rewrite ?Ht')).
        destruct (compute_arg_ret_pass_multi _ _ _) as [ap rp].
        eexists _, _. split; [reflexivity|]. cbn [row_total_target_calls row_hit_locs
          row_api_called row_category row_reason row_arg_pass row_ret_pass
          row_is_thin_alias].
        done.
    + apply truthy_ne in Hne as Ht'.
      repeat (progress (cbn [no_name negb default andb api_name]; rewrite ?Ht')).
      destruct (compute_arg_ret_pass_multi _ _ _) as [ap rp].
      eexists _, _. split; [reflexivity|]. cbn [row_total_target_calls row_hit_locs
          row_api_called row_category row_reason row_arg_pass row_ret_pass
          row_is_thin_alias].
      done.
Qed.

End Rows.

(** ** Atomic pairs and the per-expression counter *)

(** X28. [is_atomic_pair] does not look at the order: a pair of names is
    accepted exactly when the swapped pair is. It answers false for a list
    that has not two names and for every family other than the empty one. *)
Theorem atomic_pair_unordered (a b family : string) (api_names : list string) :
  is_atomic_pair [a; b] family = is_atomic_pair [b; a] family
  ∧ (length api_names ≠ 2 → is_atomic_pair api_names family = false)
  ∧ (family ≠ "" → is_atomic_pair api_names family = false).
Proof.
  split; [|split].
  - unfold is_atomic_pair. destruct (Py.truthy family); [done|].
    replace ({[b; a]} : gset string) with ({[a; b]} : gset string) by set_solver.
    by rewrite (orb_comm (bool_decide ((a, b) ∈ _ATOMIC_PAIRS_ordered))).
  - intros Hl. by destruct api_names as [|x [|y [|z l]]].
  - intros Hf%truthy_ne. unfold is_atomic_pair. rewrite Hf.
    by destruct api_names as [|x [|y [|z l]]].
Qed.

Section Count.

Context (tu : gmap N Cursor) (T : gset string) (H : HelperConfig).

Lemma count_calls_in_expr_eq node h :
  count_calls_in_expr tu node T H h
  = foldl
      (λ cnt ch,
         (if decide (kind ch = CALL_EXPR) then
            if is_helper_call tu ch H which_benign then cnt
            else if decide (_callee_name tu ch ∈ T) then cnt + 1
            else if mapped_in (resolve_syscall_indirection tu ch) T then cnt + 1
            else if _call_hits_target_via_one_hop tu ch T
                    || ((1 <? h) && _call_hits_target_via_n_hops tu ch T h)
            then cnt + 1 else cnt
          else cnt) + count_calls_in_expr tu ch T H h)
      0 (get_children node).
Proof. destruct node; reflexivity. Qed.

Lemma hop_bound_le_2 ch h :
  h ≤ 2 →
  _call_hits_target_via_one_hop tu ch T
  || ((1 <? h) && _call_hits_target_via_n_hops tu ch T h) = true →
  _call_hits_target_via_one_hop tu ch T || _call_hits_target_via_n_hops tu ch T 2 = true.
Proof.
  intros Hh. destruct (_call_hits_target_via_one_hop tu ch T); [done|]. simpl.
  destruct (1 <? h) eqn:E; [|done]. apply Nat.ltb_lt in E.
  by replace h with 2 by lia.
Qed.

Lemma count_le_collect node h :
  h ≤ 2 →
  count_calls_in_expr tu node T H h + length (site_of tu node T)
  ≤ length (collect_target_calls tu node T).
Proof.
  intros Hh. induction node as [n IH] using Cursor_nested_ind.
  rewrite (collect_target_calls_eq tu T n), length_app, count_calls_in_expr_eq.
  cut (∀ c0, foldl
      (λ cnt ch,
         (if decide (kind ch = CALL_EXPR) then
            if is_helper_call tu ch H which_benign then cnt
            else if decide (_callee_name tu ch ∈ T) then cnt + 1
            else if mapped_in (resolve_syscall_indirection tu ch) T then cnt + 1
            else if _call_hits_target_via_one_hop tu ch T
                    || ((1 <? h) && _call_hits_target_via_n_hops tu ch T h)
            then cnt + 1 else cnt
          else cnt) + count_calls_in_expr tu ch T H h)
      c0 (get_children n)
      ≤ c0 + length (concat (map (λ ch, collect_target_calls tu ch T) (get_children n)))).
  { intros Hcut. specialize (Hcut 0). lia. }
  induction IH as [|ch rest Hch _ IHr]; intros c0; cbn [foldl map concat]; [lia|].
  etrans; [apply IHr|]. rewrite length_app.
  assert (Hsite : (if decide (kind ch = CALL_EXPR) then
            if is_helper_call tu ch H which_benign then c0
            else if decide (_callee_name tu ch ∈ T) then c0 + 1
            else if mapped_in (resolve_syscall_indirection tu ch) T then c0 + 1
            else if _call_hits_target_via_one_hop tu ch T
                    || ((1 <? h) && _call_hits_target_via_n_hops tu ch T h)
            then c0 + 1 else c0
          else c0) ≤ c0 + length (site_of tu ch T)).
  { unfold site_of. destruct (decide (kind ch = CALL_EXPR)); [|lia].
    destruct (is_helper_call tu ch H which_benign); [lia|].
    destruct (decide (_callee_name tu ch ∈ T)); [simpl; lia|].
    destruct (mapped_in (resolve_syscall_indirection tu ch) T); [simpl; lia|].
    destruct (_call_hits_target_via_one_hop tu ch T
              || ((1 <? h) && _call_hits_target_via_n_hops tu ch T h)) eqn:E; [|lia].
    rewrite (hop_bound_le_2 ch h Hh E). simpl. lia. }
  lia.
Qed.


Lemma count_eq_collect node :
  (∀ name, any_match H name which_benign = false) →
  count_calls_in_expr tu node T H 2 + length (site_of tu node T)
  = length (collect_target_calls tu node T).
Proof.
  intros Hb. induction node as [n IH] using Cursor_nested_ind.
  rewrite (collect_target_calls_eq tu T n), length_app, count_calls_in_expr_eq.
  cut (∀ c0, foldl
      (λ cnt ch,
         (if decide (kind ch = CALL_EXPR) then
            if is_helper_call tu ch H which_benign then cnt
            else if decide (_callee_name tu ch ∈ T) then cnt + 1
            else if mapped_in (resolve_syscall_indirection tu ch) T then cnt + 1
            else if _call_hits_target_via_one_hop tu ch T
                    || ((1 <? 2) && _call_hits_target_via_n_hops tu ch T 2)
            then cnt + 1 else cnt
          else cnt) + count_calls_in_expr tu ch T H 2)
      c0 (get_children n)
      = c0 + length (concat (map (λ ch, collect_target_calls tu ch T) (get_children n)))).
  { intros Hcut. specialize (Hcut 0). lia. }
  induction IH as [|ch rest Hch _ IHr]; intros c0; cbn [foldl map concat length];
    [lia|].
  rewrite IHr, length_app.
  assert (Hsite : (if decide (kind ch = CALL_EXPR) then
            if is_helper_call tu ch H which_benign then c0
            else if decide (_callee_name tu ch ∈ T) then c0 + 1
            else if mapped_in (resolve_syscall_indirection tu ch) T then c0 + 1
            else if _call_hits_target_via_one_hop tu ch T
                    || ((1 <? 2) && _call_hits_target_via_n_hops tu ch T 2)
            then c0 + 1 else c0
          else c0) = c0 + length (site_of tu ch T)).
  { unfold site_of, is_helper_call. rewrite Hb.
    destruct (decide (kind ch = CALL_EXPR)); [|simpl; lia].
    destruct (decide (_callee_name tu ch ∈ T)); [simpl; lia|].
    destruct (mapped_in (resolve_syscall_indirection tu ch) T); [simpl; lia|].
    change (1 <? 2) with true. cbn [andb].
    destruct (_call_hits_target_via_one_hop tu ch T
              || _call_hits_target_via_n_hops tu ch T 2); simpl; lia. }
  lia.
Qed.

(** X29. For a hop bound of at most 2, [count_calls_in_expr] never counts
    more calls below a node than [collect_target_calls] collects for it.
    With the bound 2 and no benign helper, they agree: the count plus the
    entry of the node itself is the number of collected call sites. *)
Theorem counted_calls_are_collected (node : Cursor) (h : nat) :
  (h ≤ 2 →
   count_calls_in_expr tu node T H h ≤ length (collect_target_calls tu node T))
  ∧ ((∀ name, any_match H name which_benign = false) →
     count_calls_in_expr tu node T H 2 + length (site_of tu node T)
     = length (collect_target_calls tu node T)).
Proof.
  split.
  - intros Hh. pose proof (count_le_collect node h Hh). lia.
  - apply count_eq_collect.
Qed.

End Count.

(** ** The contribution of a call expression *)

Section Selector.

Lemma append_cons c s t : String c s +:+ t = String c (s +:+ t).
Proof. reflexivity. Qed.

Lemma append_nil t : "" +:+ t = t.
Proof. reflexivity. Qed.

Lemma strip_prefix_spec p s r : Py.strip_prefix p s = Some r ↔ s = p +:+ r.
Proof.
  revert s. induction p as [|a p IH]; intros s; simpl.
  - split; [by intros [= ->] | by intros ->].
  - destruct s as [|b s]; [done|]. case_decide as Hab.
    + subst b. rewrite IH. split; [by intros -> | by intros [= ->]].
    + split; [done|]. intros [= -> _]. done.
Qed.

Lemma take_word_split s :
  ∃ rest, s = take_word s +:+ rest
          ∧ Forall (λ c, Py.is_word c = true) (list_ascii_of_string (take_word s))
          ∧ ends_word rest.
Proof.
  induction s as [|c r (rest & Hr & Hw & He)]; simpl.
  - exists "". by repeat split.
  - destruct (Py.is_word c) eqn:Hc.
    + exists rest. rewrite append_cons.
      split; [by f_equal|]. split; [by constructor | done].
    + exists (String c r). simpl. by repeat split.
Qed.

Lemma take_word_append w rest :
  Forall (λ c, Py.is_word c = true) (list_ascii_of_string w) → ends_word rest →
  take_word (w +:+ rest) = w.
Proof.
  intros Hw He. induction w as [|c w IH].
  - rewrite append_nil. destruct rest as [|c r]; [done|]. simpl in *. by rewrite He.
  - rewrite append_cons. simpl in *. apply Forall_cons in Hw as [-> Hw]. by rewrite IH.
Qed.

Lemma after_prefix_iff p s foo :
  match Py.strip_prefix p s with
  | Some r => let w := take_word r in if Py.truthy w then Some w else None
  | None => None
  end = Some foo
  ↔ ∃ rest, s = p +:+ foo +:+ rest ∧ word_chars foo ∧ ends_word rest.
Proof.
  split.
  - destruct (Py.strip_prefix p s) as [r|] eqn:Hp; [|done].
    apply strip_prefix_spec in Hp as ->. simpl.
    destruct (take_word_split r) as (rest & Hr & Hw & He).
    destruct (Py.truthy (take_word r)) eqn:Ht; [|done]. intros [= <-].
    exists rest. split; [by rewrite <- Hr|]. split; [|done].
    split; [|done]. by destruct (take_word r).
  - intros (rest & -> & [Hne Hw] & He).
    rewrite (proj2 (strip_prefix_spec p _ (foo +:+ rest))) by done. simpl.
    rewrite take_word_append by done. by destruct foo.
Qed.

Lemma match_sys_here_iff s foo :
  match_sys_here s = Some foo ↔ selector_at "" foo s.
Proof.
  unfold match_sys_here, selector_at. setoid_rewrite append_nil.
  pose proof (after_prefix_iff "SYS_" s) as Hsys.
  pose proof (after_prefix_iff "__NR_" s) as Hnr.
  cbn zeta in Hsys, Hnr.
  destruct (match Py.strip_prefix "SYS_" s with Some _ => _ | None => _ end) as [w|] eqn:E.
  - split.
    + intros [= ->]. destruct (proj1 (Hsys foo) eq_refl) as (rest & ? & ? & ?).
      exists rest. auto.
    + intros (rest & [Hs|Hs] & Hw & He).
      * apply Hsys. by exists rest.
      * destruct (proj1 (Hsys w) eq_refl) as (rest' & Hs' & _). by rewrite Hs in Hs'.
  - rewrite Hnr. split.
    + intros (rest & ? & ? & ?). exists rest. auto.
    + intros (rest & [Hs|Hs] & Hw & He).
      * assert (Hc : (None : option string) = Some foo); [|done].
        apply Hsys. by exists rest.
      * by exists rest.
Qed.

Lemma selector_at_cons c pre foo c' r :
  selector_at (String c pre) foo (String c' r) ↔ c = c' ∧ selector_at pre foo r.
Proof.
  unfold selector_at. setoid_rewrite append_cons. split.
  - intros (rest & [Hs|Hs] & Hw & He); injection Hs as -> ->;
      (split; [done|]); exists rest; auto.
  - intros [-> (rest & [->| ->] & Hw & He)]; exists rest; auto.
Qed.

Lemma selector_at_nil pre foo : ¬ selector_at pre foo "".
Proof. intros (rest & [Hs|Hs] & _); by destruct pre. Qed.

(** The search of the code finds the name behind the leftmost selector. *)
Lemma search_sys_selects txt foo : search_sys txt = Some foo ↔ selects txt foo.
Proof.
  revert foo. induction txt as [|c r IH]; intros foo.
  - split; [done|]. intros (pre & Hsel & _). by apply selector_at_nil in Hsel.
  - cbn [search_sys]. destruct (match_sys_here (String c r)) as [w|] eqn:E.
    + apply match_sys_here_iff in E. split.
      * intros [= <-]. exists "". split; [done|]. intros; simpl; lia.
      * intros (pre & Hsel & Hmin). specialize (Hmin _ _ E).
        destruct pre; [|simpl in Hmin; lia].
        apply match_sys_here_iff in Hsel, E. congruence.
    + assert (Hno : ∀ foo', ¬ selector_at "" foo' (String c r)).
      { intros foo' Hsel%match_sys_here_iff. congruence. }
      rewrite IH. split.
      * intros (pre & Hsel & Hmin). exists (String c pre). split.
        -- by apply selector_at_cons.
        -- intros [|c' pre'] foo' Hsel'; [by apply Hno in Hsel'|].
           apply selector_at_cons in Hsel' as [_ Hsel'].
           specialize (Hmin _ _ Hsel'). simpl. lia.
      * intros ([|c' pre] & Hsel & Hmin); [by apply Hno in Hsel|].
        apply selector_at_cons in Hsel as [-> Hsel]. exists pre. split; [done|].
        intros pre' foo' Hsel'.
        specialize (Hmin (String c pre') foo'). simpl in Hmin.
        apply Nat.succ_le_mono, Hmin. by apply selector_at_cons.
Qed.

End Selector.

Section Contribution.

Context (tu : gmap N Cursor) (T : gset string) (H : HelperConfig).

Lemma any_match_benign name :
  any_match H name which_benign = true ↔ benign_name H name.
Proof.
  unfold any_match, benign_name. case_decide as Hin.
  - split; [by left | done].
  - rewrite existsb_exists, Exists_exists. setoid_rewrite list_elem_of_In.
    split; [by right | by intros [?|?]].
Qed.

Lemma mapped_in_selects call :
  mapped_in (resolve_syscall_indirection tu call) T = true
  ↔ ∃ foo, syscall_selects tu call foo ∧ foo ∈ T.
Proof.
  rewrite mapped_in_spec. unfold spec_syscall_target, syscall_selects.
  case_decide as Hn.
  - destruct (get_children call) as [|c0 [|sel rest]] eqn:Hk.
    + split; [done|]. by intros (foo & (_ & ? & ? & ? & ? & _) & _).
    + split; [done|]. by intros (foo & (_ & ? & ? & ? & ? & _) & _).
    + destruct (search_sys _) as [m|] eqn:E.
      * rewrite bool_decide_eq_true. apply search_sys_selects in E. split.
        -- intros Hm. exists m. split; [|done]. split; [done|]. by exists c0, sel, rest.
        -- intros (foo & (_ & ? & ? & ? & [= <- <- <-] & Hsel) & Hin).
           apply search_sys_selects in Hsel, E. congruence.
      * split; [done|].
        intros (foo & (_ & ? & ? & ? & [= <- <- <-] & Hsel) & Hin).
        apply search_sys_selects in Hsel. congruence.
  - split; [done|]. by intros (foo & (? & _) & _).
Qed.

Lemma small_function_iff callee :
  _is_small_function callee 6 = true ↔ small_body callee.
Proof.
  unfold _is_small_function, small_body.
  destruct (_function_body_cursor callee) as [body|].
  - rewrite Nat.leb_le. split; [by exists body | by intros (? & [= <-] & ?)].
  - split; [done | by intros (? & ? & _)].
Qed.

Lemma reaches_small_reaches k call : reaches_small tu T k call → reaches tu T k call.
Proof.
  induction 1 as [call callee ch _ _ Hcc Hn|k call callee ch _ _ Hcc _ IH].
  - by eapply reaches_target.
  - by eapply reaches_hop.
Qed.

(** A hit of the bounded search is a chain of at most [h] bodies of small
    functions. *)
Lemma n_hops_reaches_small h :
  ∀ call seen seen',
    n_hops tu h call T seen = (true, seen') →
    ∃ k, 1 ≤ k ≤ h ∧ reaches_small tu T k call.
Proof.
  induction h as [|h IH]; intros call seen seen' Hn; simpl in Hn; [done|].
  destruct (_callee_definition tu call) as [callee|] eqn:Hc; [|done].
  destruct (_is_small_function callee 6) eqn:Hs; simpl in Hn; [|done].
  apply small_function_iff in Hs.
  destruct (decide (hash callee ∈ seen)); [done|].
  destruct (_function_body_cursor callee) as [body|] eqn:Hb; [|done].
  revert Hn. generalize ({[hash callee]} ∪ seen).
  assert (Hsub : ∀ ch, ch ∈ get_children body → ch ∈ get_children body) by done.
  revert Hsub. generalize (get_children body) at 1 3. intros l.
  induction l as [|ch rest IHl]; intros Hsub s Hn; [done|].
  destruct (decide (kind ch = CALL_EXPR)) as [Hk|Hk].
  - assert (Hcc : callee_calls tu call ch).
    { exists callee, body. repeat split; [done..| |done]. apply Hsub. by left. }
    destruct (decide (_callee_name tu ch ∈ T)) as [Hin|Hin].
    + exists 1. split; [lia|]. by eapply reaches_small_target.
    + destruct (n_hops tu h ch T s) as [hit s'] eqn:Hrec. destruct hit.
      * destruct (IH _ _ _ Hrec) as (k & Hk' & Hr).
        exists (S k). split; [lia|]. by eapply reaches_small_hop.
      * destruct (IHl (λ c Hc', Hsub c (list_elem_of_further _ _ _ Hc')) s' Hn)
          as (k & ? & ?). by exists k.
  - destruct (IHl (λ c Hc', Hsub c (list_elem_of_further _ _ _ Hc')) s Hn)
      as (k & ? & ?). by exists k.
Qed.

Lemma callee_definition_keyed call callee :
  hash_keyed tu → _callee_definition tu call = Some callee →
  tu !! hash callee = Some callee.
Proof.
  intros Hwf. unfold _callee_definition, def_or_ref, deref.
  assert (Hk : ∀ o c, o ≫= (tu !!.) = Some c → tu !! hash c = Some c).
  { intros [k|] c; simpl; [|done]. intros Hl. by rewrite (Hwf k c Hl). }
  destruct (definition call ≫= (tu !!.)) as [d|] eqn:Hd.
  - case_decide; [|done]. intros [= <-]. eauto.
  - destruct (referenced call ≫= (tu !!.)) as [d|] eqn:Hr; [|done].
    case_decide; [|done]. intros [= <-]. eauto.
Qed.

(** A search that misses only adds functions whose body calls no target
    directly. *)
Lemma n_hops_miss h :
  hash_keyed tu →
  ∀ call seen seen',
    n_hops tu h call T seen = (false, seen') →
    ∀ k c, tu !! k = Some c → k ∈ seen' → k ∉ seen → ¬ calls_target tu T c.
Proof.
  intros Hwf. induction h as [|h IH]; intros call seen seen' Hn; simpl in Hn.
  { injection Hn as <-. done. }
  destruct (_callee_definition tu call) as [callee|] eqn:Hc;
    [|injection Hn as <-; done].
  destruct (_is_small_function callee 6) eqn:Hs; simpl in Hn;
    [|injection Hn as <-; done].
  destruct (decide (hash callee ∈ seen)) as [Hseen|Hseen]; [injection Hn as <-; done|].
  apply (callee_definition_keyed _ _ Hwf) in Hc.
  destruct (_function_body_cursor callee) as [body|] eqn:Hb.
  2:{ injection Hn as <-. intros k c Hk [->%elem_of_singleton|?]%elem_of_union ?; [|done].
      rewrite Hc in Hk. injection Hk as <-. intros (? & ? & ? & _). congruence. }
  cut (Forall (λ ch, ¬ (kind ch = CALL_EXPR ∧ _callee_name tu ch ∈ T)) (get_children body)
       ∧ ∀ k c, tu !! k = Some c → k ∈ seen' → k ∉ {[hash callee]} ∪ seen →
                ¬ calls_target tu T c).
  { intros [Hall Hnew] k c Hk Hin Hnot.
    destruct (decide (k = hash callee)) as [->|Hne].
    - rewrite Hc in Hk. injection Hk as <-.
      intros (body' & ch & Hb' & Hch & Hkind & Hname).
      rewrite Hb in Hb'. injection Hb' as <-.
      rewrite Forall_forall in Hall. by apply (Hall ch Hch).
    - apply (Hnew k c Hk Hin). set_solver. }
  revert Hn. generalize ({[hash callee]} ∪ seen). generalize (get_children body).
  intros l. induction l as [|ch rest IHl]; intros s Hn.
  { injection Hn as <-. split; [constructor | done]. }
  destruct (decide (kind ch = CALL_EXPR)) as [Hk|Hk].
  - destruct (decide (_callee_name tu ch ∈ T)) as [Hin|Hin]; [done|].
    destruct (n_hops tu h ch T s) as [hit s'] eqn:Hrec. destruct hit; [done|].
    destruct (IHl s' Hn) as [Hall Hnew]. split.
    + constructor; [|done]. by intros [_ ?].
    + intros k c Hkc Hin' Hnot. destruct (decide (k ∈ s')) as [Hs'|Hs'].
      * by apply (IH _ _ _ Hrec k c).
      * by apply (Hnew k c).
  - destruct (IHl s Hn) as [Hall Hnew]. split; [|done].
    constructor; [|done]. by intros [? _].
Qed.

(** The search from a call of a small function whose body calls a target
    hits, when no function seen so far does. *)
Lemma n_hops_direct_hit h call callee seen :
  hash_keyed tu →
  _callee_definition tu call = Some callee → small_body callee →
  calls_target tu T callee →
  (∀ k c, tu !! k = Some c → k ∈ seen → ¬ calls_target tu T c) →
  (n_hops tu (S h) call T seen).1 = true.
Proof.
  intros Hwf Hc Hs Ht Hinv. simpl. rewrite Hc.
  rewrite (proj2 (small_function_iff callee) Hs). simpl.
  apply (callee_definition_keyed _ _ Hwf) in Hc.
  rewrite decide_False by (intros Hin; by apply (Hinv _ _ Hc Hin)).
  destruct Ht as (body & ch & -> & Hch & Hk & Hn).
  generalize ({[hash callee]} ∪ seen).
  induction (get_children body) as [|x rest IHl]; intros s.
  { by apply elem_of_nil in Hch. }
  destruct (decide (kind x = CALL_EXPR)) as [Hkx|Hkx].
  - destruct (decide (_callee_name tu x ∈ T)) as [Hin|Hin]; [done|].
    destruct (n_hops tu h x T s) as [[] s']; [done|].
    apply elem_of_cons in Hch as [->|Hch]; [done | by apply IHl].
  - apply elem_of_cons in Hch as [->|Hch]; [done | by apply IHl].
Qed.

(** A target two small bodies away is found, for every bound of at least
    2. *)
Lemma n_hops_two_bodies h call :
  hash_keyed tu → reaches_small tu T 2 call →
  _call_hits_target_via_n_hops tu call T (S (S h)) = true.
Proof.
  intros Hwf Hr.
  inversion Hr as [|k c callee ch Hc Hs Hcc Hr1]; subst.
  inversion Hr1 as [c callee' ch' Hc' Hs' Hcc' Hn'|k c ? ? _ _ _ Hr0];
    subst; [|inversion Hr0].
  assert (Ht' : calls_target tu T callee').
  { destruct Hcc' as (callee2 & body2 & Hc2 & Hb2 & Hin2 & Hk2).
    rewrite Hc' in Hc2. injection Hc2 as <-. by exists body2, ch'. }
  destruct Hcc as (callee1 & body & Hc1 & Hb & Hin & Hk).
  rewrite Hc in Hc1. injection Hc1 as <-.
  destruct (decide (Exists (λ x, kind x = CALL_EXPR ∧ _callee_name tu x ∈ T)
                           (get_children body))) as [Hex|Hnex].
  { apply (n_hops_direct_hit (S h) call callee ∅ Hwf Hc Hs); [|set_solver].
    apply Exists_exists in Hex as (x & Hx & Hkx & Hnx). by exists body, x. }
  assert (Hinv : ∀ k c, tu !! k = Some c → k ∈ ({[hash callee]} ∪ ∅ : gset N) →
                        ¬ calls_target tu T c).
  { intros k c Hkc Hks. assert (k = hash callee) as -> by set_solver.
    rewrite (callee_definition_keyed _ _ Hwf Hc) in Hkc. injection Hkc as <-.
    intros (body' & x & Hb' & Hx & Hkx & Hnx). rewrite Hb in Hb'. injection Hb' as <-.
    apply Hnex, Exists_exists. by exists x. }
  unfold _call_hits_target_via_n_hops.
  assert (Hm : ∃ m, m = S h) by eauto. destruct Hm as [m Hm]. rewrite <- Hm.
  cbn [n_hops]. rewrite Hc.
  rewrite (proj2 (small_function_iff callee) Hs). cbn [negb].
  rewrite decide_False by set_solver. rewrite Hb.
  revert Hinv. generalize ({[hash callee]} ∪ (∅ : gset N)).
  clear Hnex. induction (get_children body) as [|x rest IHl]; intros s Hinv.
  { by apply elem_of_nil in Hin. }
  destruct (decide (kind x = CALL_EXPR)) as [Hkx|Hkx].
  - destruct (decide (_callee_name tu x ∈ T)) as [Hnx|Hnx]; [done|].
    destruct (n_hops tu m x T s) as [hit s'] eqn:Hrec. destruct hit; [done|].
    apply elem_of_cons in Hin as [->|Hin].
    + pose proof (n_hops_direct_hit h x callee' s Hwf Hc' Hs' Ht' Hinv) as Hhit.
      by rewrite <- Hm, Hrec in Hhit.
    + apply IHl; [done|]. intros k c Hkc Hks'.
      destruct (decide (k ∈ s)); [by apply (Hinv k c)|].
      by apply (n_hops_miss m Hwf _ _ _ Hrec k c).
  - apply elem_of_cons in Hin as [->|Hin]; [done | by apply IHl].
Qed.

Lemma count_calls_in_expr_contribution node h :
  count_calls_in_expr tu node T H h
  = sum_list (map (λ ch, (if decide (kind ch = CALL_EXPR)
                          then spec_call_contribution tu ch T H h else 0)
                         + count_calls_in_expr tu ch T H h)
                  (get_children node)).
Proof.
  destruct node as [k sp dn hs lc df rf cn tk ev rt kids]. simpl.
  cut (∀ n, foldl (λ cnt ch,
               (if decide (kind ch = CALL_EXPR) then
                  if is_helper_call tu ch H which_benign then cnt
                  else if decide (_callee_name tu ch ∈ T) then cnt + 1
                  else if mapped_in (resolve_syscall_indirection tu ch) T then cnt + 1
                  else if _call_hits_target_via_one_hop tu ch T
                          || ((1 <? h) && _call_hits_target_via_n_hops tu ch T h)
                  then cnt + 1 else cnt
                else cnt) + count_calls_in_expr tu ch T H h) n kids
            = n + sum_list (map (λ ch, (if decide (kind ch = CALL_EXPR)
                                        then spec_call_contribution tu ch T H h else 0)
                                       + count_calls_in_expr tu ch T H h) kids)).
  { intros Hcut. apply (Hcut 0). }
  induction kids as [|ch rest IHr]; intros n;
    cbn [foldl map sum_list sum_list_with id]; [lia|].
  rewrite IHr.
  match goal with |- context [sum_list ?l] => generalize (sum_list l) end.
  intros tl. unfold spec_call_contribution, is_helper_call.
  rewrite mapped_in_spec.
  destruct (decide (kind ch = CALL_EXPR)); [|lia].
  destruct (any_match H (_callee_name tu ch) which_benign); [lia|].
  repeat case_match; lia.
Qed.

(** C3 (amended). A call expression contributes the same number as a
    statement of [analyze_stmt] and as a child counted by
    [count_calls_in_expr], decided in this order: 0 when its callee name is
    a benign helper (in the literal set or found by a pattern), also when
    the name is a target; else 1 when the name is a target; else 1 when it
    is a call of [syscall] and the leftmost [SYS_<foo>] or [__NR_<foo>] of
    the text of its first argument has [foo], the whole word, among the
    targets; else 1 or 0 with the hop resolver. The resolver answers 1 when
    the body of the callee calls a target directly, whatever the bound and
    the size of the callee, and, for a bound of at least 2, when a target is
    two bodies of small functions away; whenever it answers 1 a target is
    one body away, or [k] bodies of small functions away with
    [2 ≤ k ≤ max_hops], and it answers 0 when no target is. A function is
    small with at most 6 statements that are not declarations. *)
Theorem call_contribution_order (h : nat) :
  ∃ contribution : Cursor → nat,
    (∀ stmt, kind stmt = CALL_EXPR →
       analyze_stmt tu stmt T H h = mkPathResult {[contribution stmt]} false)
    ∧ (∀ node,
         count_calls_in_expr tu node T H h
         = sum_list (map (λ ch, (if decide (kind ch = CALL_EXPR)
                                 then contribution ch else 0)
                                + count_calls_in_expr tu ch T H h)
                         (get_children node)))
    ∧ ∀ call,
        let name := _callee_name tu call in
        let by_syscall := ∃ foo, syscall_selects tu call foo ∧ foo ∈ T in
        (contribution call = 0 ∨ contribution call = 1)
        ∧ (benign_name H name → contribution call = 0)
        ∧ (¬ benign_name H name → name ∈ T → contribution call = 1)
        ∧ (¬ benign_name H name → name ∉ T → by_syscall → contribution call = 1)
        ∧ (¬ benign_name H name → name ∉ T → ¬ by_syscall →
             (reaches tu T 1 call → contribution call = 1)
             ∧ (2 ≤ h → hash_keyed tu → reaches_small tu T 2 call →
                contribution call = 1)
             ∧ (contribution call = 1 →
                reaches tu T 1 call
                ∨ ∃ k, 2 ≤ k ≤ h ∧ reaches_small tu T k call)
             ∧ (¬ reaches tu T 1 call →
                (∀ k, 2 ≤ k ≤ h → ¬ reaches_small tu T k call) →
                contribution call = 0)).
Proof.
  exists (λ call, spec_call_contribution tu call T H h).
  split; [intros stmt Hk; by apply analyze_stmt_call_contribution|].
  split; [intros node; apply count_calls_in_expr_contribution|].
  intros call name by_syscall. unfold spec_call_contribution.
  rewrite <- mapped_in_spec.
  pose proof (any_match_benign name) as Hben.
  pose proof (mapped_in_selects call) as Hsys.
  fold name. destruct (any_match H name which_benign).
  { split; [by left|]. split; [done|].
    assert (Hb : benign_name H name) by by apply Hben.
    repeat split; intros Hnb; by destruct Hnb. }
  assert (Hnb : ¬ benign_name H name) by (intros Hb%Hben; done).
  destruct (decide (name ∈ T)) as [Hin|Hin].
  { split; [by right|]. split; [done|]. split; [done|]. split; [done|].
    by intros _ Hn. }
  destruct (mapped_in (resolve_syscall_indirection tu call) T).
  { split; [by right|]. split; [done|]. split; [done|]. split; [done|].
    intros _ _ Hno. destruct Hno. by apply Hsys. }
  assert (Hno : ¬ by_syscall) by (intros Hs%Hsys; done).
  split; [case_match; auto|]. split; [done|]. split; [done|]. split; [done|].
  intros _ _ _.
  assert (Hsound : _call_hits_target_via_one_hop tu call T
                   || ((1 <? h) && _call_hits_target_via_n_hops tu call T h) = true →
                   reaches tu T 1 call ∨ ∃ k, 2 ≤ k ≤ h ∧ reaches_small tu T k call).
  { destruct (_call_hits_target_via_one_hop tu call T) eqn:Hone.
    { intros _. left. by apply one_hop_iff_reaches. }
    simpl. destruct (1 <? h) eqn:Hlt; [|done]. simpl.
    unfold _call_hits_target_via_n_hops.
    destruct (n_hops tu h call T ∅) as [hit s] eqn:Hn. simpl.
    destruct hit; [|done]. intros _.
    destruct (n_hops_reaches_small _ _ _ _ Hn) as (k & Hk & Hr).
    destruct (decide (k = 1)) as [->|Hk1].
    + left. by apply reaches_small_reaches.
    + right. exists k. split; [lia | done]. }
  split; [|split; [|split]].
  - intros Hr%one_hop_iff_reaches. by rewrite Hr.
  - intros Hh Hwf Hr. destruct h as [|[|h']]; [lia..|].
    rewrite (n_hops_two_bodies h' call Hwf Hr). by rewrite orb_true_r.
  - case_match; [auto | done].
  - intros Hn1 Hnk. case_match eqn:Hhop; [|done].
    destruct (Hsound eq_refl) as [Hr|(k & Hk & Hr)]; [done|]. by destruct (Hnk k Hk).
Qed.

End Contribution.

(** ** The call graph *)

(** The first loop keeps the first edge of every key, in order. *)
Lemma dedup_edges_spec (edges : list CallEdge) :
  NoDup (map edge_key (dedup_edges edges))
  ∧ dedup_edges edges `sublist_of` edges
  ∧ ∀ e, e ∈ edges → edge_key e ∈ map edge_key (dedup_edges edges).
Proof.
  unfold dedup_edges.
  cut (∀ (seen : gset (string * string * string)) (out pre : list CallEdge),
         NoDup (map edge_key out) →
         (∀ k, k ∈ seen ↔ k ∈ map edge_key out) →
         out `sublist_of` pre →
         let res := (foldl (λ '(seen_edge_keys, dedup) e,
                if decide (edge_key e ∈ seen_edge_keys) then (seen_edge_keys, dedup)
                else ({[edge_key e]} ∪ seen_edge_keys, dedup ++ [e]))
             (seen, out) edges).2 in
         NoDup (map edge_key res)
         ∧ res `sublist_of` pre ++ edges
         ∧ (∀ k, k ∈ map edge_key out → k ∈ map edge_key res)
         ∧ ∀ e, e ∈ edges → edge_key e ∈ map edge_key res).
  { intros Hcut. destruct (Hcut ∅ [] []) as (H1 & H2 & _ & H4); simpl; try done.
    - constructor.
    - intros k. split; [set_solver|]. intros Hk. by apply elem_of_nil in Hk. }
  induction edges as [|e rest IH]; intros seen out pre Hnd Hseen Hsub; cbn [foldl].
  - simpl. rewrite app_nil_r. split; [done|]. split; [done|]. split; [done|].
    intros e He. by apply elem_of_nil in He.
  - destruct (decide (edge_key e ∈ seen)) as [Hin|Hin].
    + destruct (IH seen out (pre ++ [e]) Hnd Hseen) as (H1 & H2 & H3 & H4).
      { by apply sublist_inserts_r. }
      rewrite <- app_assoc in H2. split; [done|]. split; [done|]. split; [done|].
      intros e' [->|He']%elem_of_cons; [|by apply H4].
      apply H3. by apply Hseen.
    + destruct (IH ({[edge_key e]} ∪ seen) (out ++ [e]) (pre ++ [e])) as (H1 & H2 & H3 & H4).
      { rewrite map_app. apply NoDup_app. split; [done|]. split; [|apply NoDup_singleton].
        intros k Hk ->%list_elem_of_singleton. by apply Hin, Hseen. }
      { intros k. rewrite map_app, elem_of_union, elem_of_app, Hseen.
        simpl. rewrite list_elem_of_singleton, elem_of_singleton. tauto. }
      { by apply sublist_app. }
      rewrite <- app_assoc in H2. split; [done|]. split; [done|]. split.
      * intros k Hk. apply H3. rewrite map_app. apply elem_of_app. by left.
      * intros e' [->|He']%elem_of_cons; [|by apply H4].
        apply H3. rewrite map_app. apply elem_of_app. right. by left.
Qed.


Lemma size_add_le (a : string) (S : gset string) : size ({[a]} ∪ S) ≤ 1 + size S.
Proof.
  rewrite size_union_alt, size_singleton.
  assert (size (S ∖ {[a]}) ≤ size S); [|lia]. apply subseteq_size. set_solver.
Qed.

(** What the two dictionaries hold after the second loop. *)
Lemma call_counts_inv (dedup : list CallEdge) :
  ∀ k,
    default 0 ((call_counts dedup).1 !! k)
    = (if decide (k = "") then 0 else length (filter (λ e, callee_k e = k) dedup))
    ∧ ((call_counts dedup).1 !! k = None ∨ 0 < default 0 ((call_counts dedup).1 !! k))
    ∧ (∀ a, a ∈ default ∅ ((call_counts dedup).2 !! k)
            ↔ k ≠ "" ∧ a ≠ "" ∧ ∃ e, e ∈ dedup ∧ callee_k e = k ∧ caller_k e = a)
    ∧ size (default ∅ ((call_counts dedup).2 !! k))
      ≤ default 0 ((call_counts dedup).1 !! k).
Proof.
  unfold call_counts. induction dedup as [|e l IH] using rev_ind; intros k.
  - simpl. rewrite !lookup_empty. simpl. split; [by case_decide|]. split; [by left|].
    split; [|done].
    intros a. split; [set_solver|]. intros (_ & _ & e & He & _). by apply elem_of_nil in He.
  - rewrite foldl_snoc.
    destruct (foldl _ _ l) as [counts callers] eqn:Hf. simpl in IH.
    destruct (IH k) as (I1 & I2 & I3 & I4).
    rewrite filter_app, length_app.
    destruct (Py.truthy (callee_k e)) eqn:Ht; cbn [negb fst snd].
    + apply truthy_ne in Ht.
      destruct (decide (callee_k e = k)) as [Hk|Hk].
      * subst k. rewrite lookup_insert_eq. cbn [default].
        repeat match goal with |- context [id ?x] => change (id x) with x end.
        rewrite filter_cons, (decide_True (P := callee_k e = callee_k e)) by done.
        rewrite filter_nil. cbn [length].
        rewrite (decide_False (P := callee_k e = "")) in * by done.
        split; [lia|]. split; [right; lia|].
        destruct (Py.truthy (caller_k e)) eqn:Hc.
        -- apply truthy_ne in Hc. rewrite lookup_insert_eq. cbn [default].
        repeat match goal with |- context [id ?x] => change (id x) with x end. split.
           ++ intros a. rewrite elem_of_union, elem_of_singleton, I3. split.
              ** intros [->|(_ & Ha & e' & He' & Hk' & Ha')].
                 --- split; [done|]. split; [done|]. exists e.
                     split; [|done]. apply elem_of_app. right. by left.
                 --- split; [done|]. split; [done|]. exists e'.
                     split; [|done]. apply elem_of_app. by left.
              ** intros (_ & Ha & e' & [He'|He'%list_elem_of_singleton]%elem_of_app
                         & Hk' & Ha').
                 --- right. split; [done|]. split; [done|]. by exists e'.
                 --- subst e'. by left.
           ++ etrans; [apply size_add_le|]. lia.
        -- split.
           ++ intros a. rewrite I3. split.
              ** intros (_ & Ha & e' & He' & Hk' & Ha'). split; [done|]. split; [done|].
                 exists e'. split; [|done]. apply elem_of_app. by left.
              ** intros (_ & Ha & e' & [He'|He'%list_elem_of_singleton]%elem_of_app
                         & Hk' & Ha').
                 --- split; [done|]. split; [done|]. by exists e'.
                 --- subst e' a. apply not_true_iff_false in Hc. exfalso.
                     by apply Hc, truthy_ne.
           ++ lia.
      * rewrite lookup_insert_ne by done.
        rewrite filter_cons, (decide_False (P := callee_k e = k)) by done.
        rewrite filter_nil. cbn [length].
        rewrite Nat.add_0_r. split; [done|]. split; [done|].
        assert (Hsame : default ∅
                  ((if Py.truthy (caller_k e)
                    then <[callee_k e := {[caller_k e]} ∪ default ∅ (callers !! callee_k e)]>
                           callers
                    else callers) !! k) = default ∅ (callers !! k)).
        { destruct (Py.truthy (caller_k e)); [|done]. by rewrite lookup_insert_ne. }
        rewrite Hsame. split; [|done].
        intros a. rewrite I3. split.
        -- intros (Hk0 & Ha & e' & He' & Hk' & Ha'). split; [done|]. split; [done|].
           exists e'. split; [|done]. apply elem_of_app. by left.
        -- intros (Hk0 & Ha & e' & [He'|He'%list_elem_of_singleton]%elem_of_app
                   & Hk' & Ha').
           ++ split; [done|]. split; [done|]. by exists e'.
           ++ subst e'. done.
    + apply not_true_iff_false in Ht.
      assert (Hne : callee_k e ≠ k ∨ k = "").
      { destruct (decide (k = "")); [by right|]. left. intros Hk. subst k.
        by apply Ht, truthy_ne. }
      split.
      { case_decide; [done|]. destruct Hne as [Hne|Hne]; [|done].
        rewrite filter_cons, (decide_False (P := callee_k e = k)) by done.
        rewrite filter_nil. simpl. lia. }
      split; [done|]. split; [|done].
      intros a. rewrite I3. split.
      * intros (Hk0 & Ha & e' & He' & Hk' & Ha'). split; [done|]. split; [done|].
        exists e'. split; [|done]. apply elem_of_app. by left.
      * intros (Hk0 & Ha & e' & [He'|He'%list_elem_of_singleton]%elem_of_app
                 & Hk' & Ha').
        -- split; [done|]. split; [done|]. by exists e'.
        -- subst e'. destruct Hne; done.
Qed.


(** X30. [write_callgraph] keeps one edge per key (call site, caller key,
    callee key), the first, in order, and every edge has its key kept. For
    every callee key with an entry in [counts] (a row of
    [call_counts.csv]): the key is not empty, [total_calls] is the number of
    kept edges with that callee key and is at least 1, the callers of the
    entry are the non-empty caller keys of those edges, and
    [unique_caller_count] is at most [total_calls]. *)
Theorem call_counts_of_deduplicated (edges : list CallEdge) :
  let dedup := dedup_edges edges in
  let counts := (call_counts dedup).1 in
  let callers_by_callee := (call_counts dedup).2 in
  NoDup (map edge_key dedup)
  ∧ dedup `sublist_of` edges
  ∧ (∀ e, e ∈ edges → edge_key e ∈ map edge_key dedup)
  ∧ (∀ k n, counts !! k = Some n →
       k ≠ "" ∧ 0 < n
       ∧ n = length (filter (λ e, callee_k e = k) dedup)
       ∧ size (default ∅ (callers_by_callee !! k)) ≤ n
       ∧ ∀ a, a ∈ default ∅ (callers_by_callee !! k)
              ↔ a ≠ "" ∧ ∃ e, e ∈ dedup ∧ callee_k e = k ∧ caller_k e = a).
Proof.
  intros dedup counts callers_by_callee.
  destruct (dedup_edges_spec edges) as (H1 & H2 & H3).
  split; [done|]. split; [done|]. split; [done|].
  intros k n Hk.
  destruct (call_counts_inv dedup k) as (I1 & I2 & I3 & I4).
  fold counts in I1, I2, I4. fold callers_by_callee in I3, I4.
  rewrite Hk in I1, I2, I4. simpl in I1, I2, I4.
  destruct I2 as [?|Hpos]; [done|].
  destruct (decide (k = "")) as [->|Hne]; [lia|].
  split; [done|]. split; [done|]. split; [done|]. split; [done|].
  intros a. rewrite I3. tauto.
Qed.

(** ** The further properties on the examples *)

Lemma slash_no_dash (x y : string) :
  Py.startswith "/" x = true → Py.startswith "-" (x +:+ y) = false.
Proof.
  destruct x as [|c r]; [done|]. simpl. case_decide as E; [subst c|done].
  intros _. by rewrite decide_False.
Qed.

Lemma absolute_slash (p : string) : Py.startswith "/" (MoreExamples.absolute p) = true.
Proof.
  unfold MoreExamples.absolute.
  destruct (Py.startswith "/" p) eqn:E; [exact E | reflexivity].
Qed.

(** The example host gives paths that do not start with a dash. *)
Lemma posix_host_paths : posix_paths MoreExamples.posix_host.
Proof.
  assert (Hnd : ∀ x, Py.startswith "/" x = true → Py.startswith "-" x = false).
  { intros [|c r]; [done|]. simpl. case_decide as E; [subst c|done].
    intros _. by rewrite decide_False. }
  split; [|split].
  - intros candidate base_dir. unfold _abspath, MoreExamples.posix_host.
    cbn [is_absolute path_str join_resolve].
    destruct (Py.startswith "/" candidate) eqn:E; [by apply Hnd|].
    apply slash_no_dash, absolute_slash.
  - intros p. apply Hnd, absolute_slash.
  - intros p. apply Hnd, absolute_slash.
Qed.

Lemma n_hops_sound_witness :
  ∃ k, 1 ≤ k ≤ 2 ∧ reaches Examples.tu Examples.targets k MoreExamples.h2_call.
Proof.
  apply (n_hops_sound Examples.tu Examples.targets MoreExamples.h2_call 2).
  vm_compute. reflexivity.
Defined.

Lemma one_hop_within_n_hops_witness :
  _call_hits_target_via_n_hops Examples.tu MoreExamples.h_call Examples.targets 3 = true.
Proof.
  apply (one_hop_within_n_hops Examples.tu Examples.targets MoreExamples.h_call
           Examples.h_helper 3).
  - vm_compute. reflexivity.
  - vm_compute. reflexivity.
  - vm_compute. reflexivity.
  - lia.
Defined.

Lemma compound_append_witness :
  counts (analyze_stmt Examples.tu Examples.two_hops_then_close Examples.targets
            Examples.no_helpers 2)
  = sat_add (counts (analyze_stmt Examples.tu MoreExamples.block_h2 Examples.targets
                       Examples.no_helpers 2))
            (counts (analyze_stmt Examples.tu MoreExamples.block_close Examples.targets
                       Examples.no_helpers 2))
  ∧ unknown (analyze_stmt Examples.tu Examples.two_hops_then_close Examples.targets
               Examples.no_helpers 2)
    = unknown (analyze_stmt Examples.tu MoreExamples.block_h2 Examples.targets
                 Examples.no_helpers 2)
      || unknown (analyze_stmt Examples.tu MoreExamples.block_close Examples.targets
                    Examples.no_helpers 2).
Proof.
  apply (compound_append Examples.tu Examples.targets Examples.no_helpers
           MoreExamples.block_h2 MoreExamples.block_close Examples.two_hops_then_close 2);
    reflexivity.
Defined.

Lemma straight_line_block_witness :
  analyze_stmt Examples.tu Examples.two_hops_then_close Examples.targets
    Examples.no_helpers 2
  = mkPathResult
      {[ sum_list (map (λ ch, spec_call_contribution Examples.tu ch Examples.targets
                                Examples.no_helpers 2)
                       (get_children Examples.two_hops_then_close)) `min` 2 ]} false.
Proof.
  apply (straight_line_block Examples.tu Examples.targets Examples.no_helpers
           Examples.two_hops_then_close 2).
  - reflexivity.
  - repeat constructor.
Defined.

Lemma loop_free_known_witness :
  unknown (analyze_stmt Examples.tu Examples.w_guard_body Examples.targets
             Examples.no_helpers 2) = false.
Proof.
  apply (loop_free_known Examples.tu Examples.targets Examples.no_helpers
           Examples.w_guard_body 2).
  vm_compute. reflexivity.
Defined.

Lemma unknown_counts_two_witness :
  2 ∈ counts (analyze_stmt Examples.tu Examples.for_close Examples.targets
                Examples.no_helpers 2)
  ∧ Py.max_or_0 (counts (analyze_stmt Examples.tu Examples.for_close Examples.targets
                           Examples.no_helpers 2)) = 2.
Proof.
  apply (unknown_counts_two Examples.tu Examples.targets Examples.no_helpers
           Examples.for_close 2).
  vm_compute. reflexivity.
Defined.

Lemma taint_only_grows_witness :
  is_tainted (taint_stmt Examples.tu MoreExamples.wd_body
                (param_taint Examples.tu Examples.w_direct) Examples.no_helpers)
             "fd@601" = true.
Proof.
  apply (taint_only_grows Examples.tu Examples.no_helpers MoreExamples.wd_body
           (param_taint Examples.tu Examples.w_direct) "fd@601").
  vm_compute. reflexivity.
Defined.

Lemma parameter_arguments_derive_witness :
  (check_arguments_provenance Examples.tu Examples.w_direct [Examples.wd_close]
     Examples.no_helpers).1 = true.
Proof.
  apply (parameter_arguments_derive Examples.tu Examples.no_helpers Examples.w_direct
           MoreExamples.wd_body [Examples.wd_close]).
  - reflexivity.
  - intros call arg ->%list_elem_of_singleton Ha.
    change (extract_call_args Examples.wd_close) with [MoreExamples.wd_arg] in Ha.
    apply list_elem_of_singleton in Ha as ->. vm_compute. reflexivity.
Defined.

Lemma call_argument_not_derived_witness :
  (check_arguments_provenance Examples.tu Examples.so_syscall [Examples.sys_openat_call]
     Examples.no_helpers).1 = false.
Proof.
  apply (call_argument_not_derived Examples.tu Examples.no_helpers Examples.so_syscall
           MoreExamples.so_body Examples.sys_openat_call MoreExamples.so_literal
           [Examples.sys_openat_call]).
  - reflexivity.
  - by left.
  - vm_compute. do 2 right. left.
  - right. split; [discriminate | reflexivity].
Defined.

Lemma no_parameters_provenance_witness :
  (check_arguments_provenance Examples.tu Examples.g_sync [MoreExamples.sync_call]
     Examples.no_helpers).1 = true
  ↔ ∀ call, call ∈ [MoreExamples.sync_call] → extract_call_args call = [].
Proof.
  apply (no_parameters_provenance Examples.tu Examples.no_helpers Examples.g_sync
           Examples.g_body [MoreExamples.sync_call]); reflexivity.
Defined.

Lemma arg_pass_all_iff_witness :
  (compute_arg_ret_pass_multi Examples.tu Examples.w_direct [Examples.wd_close]).1
  = "yes - all"
  ↔ ∃ call keys,
      call ∈ [Examples.wd_close]
      ∧ map (_is_direct_param_ref Examples.tu) (extract_call_args call) = map Some keys
      ∧ NoDup keys ∧ keys ≠ []
      ∧ (list_to_set keys : gset string)
        = list_to_set (map (_var_key Examples.tu) (_gather_params Examples.w_direct)).
Proof.
  apply (arg_pass_all_iff Examples.tu Examples.w_direct [Examples.wd_close]).
  discriminate.
Defined.

Lemma noop_wrappers_transparent_witness :
  _strip_noop MoreExamples.wd_arg = _strip_noop MoreExamples.wd_ref
  ∧ _is_direct_param_ref Examples.tu MoreExamples.wd_arg
    = _is_direct_param_ref Examples.tu MoreExamples.wd_ref.
Proof.
  apply (noop_wrappers_transparent Examples.tu MoreExamples.wd_arg MoreExamples.wd_ref);
    reflexivity.
Defined.

Lemma syscall_selector_resolves_witness :
  resolve_syscall_indirection Examples.tu Examples.sys_openat_call = Some "openat".
Proof.
  eapply (syscall_selector_resolves Examples.tu Examples.sys_openat_call _ _ _ "openat").
  - vm_compute. reflexivity.
  - reflexivity.
  - left. reflexivity.
  - discriminate.
  - reflexivity.
Defined.

Lemma sanitized_drops_flags_witness :
  Forall (λ a, dropped_flag a = false)
         (_sanitize_clang_args_for_libclang MoreExamples.posix_host
            ["cc"; "-Wall"; "-DFOO"; "-Iinc"; "-c"; "a.c"; "-o"; "a.o"] "/p/a.c" "/p").
Proof.
  apply (sanitized_drops_flags MoreExamples.posix_host
           ["cc"; "-Wall"; "-DFOO"; "-Iinc"; "-c"; "a.c"; "-o"; "a.o"] "/p/a.c" "/p").
  exact posix_host_paths.
Defined.

Lemma sanitized_working_directory_witness :
  filter (λ a, is_working_directory a = true)
         (_sanitize_clang_args_for_libclang MoreExamples.posix_host
            ["cc"; "-working-directory=/q"; "-DFOO"; "-c"; "a.c"] "/p/a.c" "/p")
  = ["-working-directory=/p"].
Proof.
  apply (sanitized_working_directory MoreExamples.posix_host
           ["cc"; "-working-directory=/q"; "-DFOO"; "-c"; "a.c"] "/p/a.c" "/p").
  exact posix_host_paths.
Defined.

Lemma accepted_rows_witness :
  length (run_rows Examples.tu "accurate" "default" Examples.catalog "w.c" (λ _, true)
            [Examples.w_braced; Examples.v_stmt]) = 2
  ∧ Forall (λ r,
      row_api_called r ∈ target_names Examples.catalog
      ∧ row_api_called r ≠ ""
      ∧ 0 < row_total_target_calls r
      ∧ row_total_target_calls r = length (row_hit_locs r)
      ∧ row_category r = category_of Examples.catalog (row_api_called r)
      ∧ row_is_thin_alias r = bool_decide (row_api_called r ∈ thin_aliases Examples.catalog))
    (run_rows Examples.tu "accurate" "default" Examples.catalog "w.c" (λ _, true)
       [Examples.w_braced; Examples.v_stmt]).
Proof.
  split; [vm_compute; reflexivity|].
  apply Forall_forall. intros r Hr.
  apply (accepted_rows Examples.tu "accurate" "default" Examples.catalog "w.c" (λ _, true)
           [Examples.w_braced; Examples.v_stmt] r); [left; reflexivity | exact Hr].
Defined.
(** ** The contribution of a call on the examples *)

Lemma no_helpers_not_benign (name : string) : ¬ benign_name Examples.no_helpers name.
Proof. intros [Hb|Hb]; [by apply not_elem_of_empty in Hb | inversion Hb]. Qed.

Lemma tu2_hash_keyed : hash_keyed MoreExamples.tu2.
Proof. by_compute. Qed.

(** [h(fd)] reaches [close] through the body of [h]. *)
Lemma h_call_reaches (call : Cursor) :
  _callee_definition MoreExamples.tu2 call = Some Examples.h_helper →
  reaches_small MoreExamples.tu2 Examples.targets 1 call.
Proof.
  intros Hc.
  apply (reaches_small_target _ _ call Examples.h_helper MoreExamples.h_close).
  - exact Hc.
  - exists MoreExamples.h_body. split; [reflexivity | simpl; lia].
  - exists Examples.h_helper, MoreExamples.h_body.
    split; [exact Hc|]. split; [reflexivity|]. split; [by left | reflexivity].
  - by_compute.
Qed.

(** [h2(fd)] reaches [close] through the bodies of [h2] and [h]. *)
Lemma h2_call_reaches (call : Cursor) :
  _callee_definition MoreExamples.tu2 call = Some Examples.h2_helper →
  reaches_small MoreExamples.tu2 Examples.targets 2 call.
Proof.
  intros Hc.
  apply (reaches_small_hop _ _ 1 call Examples.h2_helper MoreExamples.h2_h_call).
  - exact Hc.
  - exists MoreExamples.h2_body. split; [reflexivity | simpl; lia].
  - exists Examples.h2_helper, MoreExamples.h2_body.
    split; [exact Hc|]. split; [reflexivity|]. split; [by left | reflexivity].
  - apply h_call_reaches. vm_compute; reflexivity.
Qed.

(** [sync] is declared without a body: nothing is called from it. *)
Lemma sync_call_calls_nothing (ch : Cursor) :
  ¬ callee_calls MoreExamples.tu2 MoreExamples.sync_call ch.
Proof.
  intros (callee & body & Hc & Hb & _). vm_compute in Hc. injection Hc as <-.
  vm_compute in Hb. discriminate Hb.
Qed.

(** With the targets [close], [sync] and [openat] and the bound 2:
    [close(fd)] contributes 1, and 0 when [close] is benign;
    [syscall(SYS_openat, fd, "x", 0)] contributes 1; [h(fd)], whose body
    calls [close], and [h2(fd)], whose body calls [h], contribute 1; and
    the block [{ h2(fd); close(fd); }] counts 2 calls. With [close] the
    only target, [sync()] contributes 0. *)
Lemma call_contribution_order_witness :
  analyze_stmt MoreExamples.tu2 Examples.w_close Examples.targets Examples.no_helpers 2
  = mkPathResult {[1]} false
  ∧ analyze_stmt MoreExamples.tu2 Examples.w_close Examples.targets
      MoreExamples.close_benign 2
    = mkPathResult {[0]} false
  ∧ analyze_stmt MoreExamples.tu2 Examples.sys_openat_call Examples.targets
      Examples.no_helpers 2
    = mkPathResult {[1]} false
  ∧ analyze_stmt MoreExamples.tu2 MoreExamples.h_call Examples.targets
      Examples.no_helpers 2
    = mkPathResult {[1]} false
  ∧ analyze_stmt MoreExamples.tu2 MoreExamples.h2_call Examples.targets
      Examples.no_helpers 2
    = mkPathResult {[1]} false
  ∧ count_calls_in_expr MoreExamples.tu2 Examples.two_hops_then_close Examples.targets
      Examples.no_helpers 2
    = 2
  ∧ analyze_stmt MoreExamples.tu2 MoreExamples.sync_call {["close"]}
      Examples.no_helpers 2
    = mkPathResult {[0]} false.
Proof.
  destruct (call_contribution_order MoreExamples.tu2 {["close"]}
              Examples.no_helpers 2) as (c0 & Hstmt0 & _ & Htab0).
  destruct (call_contribution_order MoreExamples.tu2 Examples.targets
              MoreExamples.close_benign 2) as (c' & Hstmt' & _ & Htab').
  destruct (call_contribution_order MoreExamples.tu2 Examples.targets
              Examples.no_helpers 2) as (c & Hstmt & Hcnt & Htab).
  assert (Hclose : ∀ call,
            _callee_name MoreExamples.tu2 call = "close" → c call = 1).
  { intros call Hn. destruct (Htab call) as (_ & _ & Ht & _).
    apply Ht; [apply no_helpers_not_benign|]. rewrite Hn. by_compute. }
  assert (Hh2 : c MoreExamples.h2_call = 1).
  { destruct (Htab MoreExamples.h2_call) as (_ & _ & _ & _ & Ht).
    destruct Ht as (_ & Ht & _).
    - apply no_helpers_not_benign.
    - by_compute.
    - intros (foo & (Hn & _) & _). vm_compute in Hn. discriminate Hn.
    - apply Ht; [lia | apply tu2_hash_keyed |].
      apply h2_call_reaches. vm_compute; reflexivity. }
  split; [|split; [|split; [|split; [|split; [|split]]]]].
  - rewrite (Hstmt Examples.w_close eq_refl), Hclose; [done|].
    vm_compute; reflexivity.
  - rewrite (Hstmt' Examples.w_close eq_refl).
    destruct (Htab' Examples.w_close) as (_ & Ht & _). rewrite Ht; [done|].
    left. by_compute.
  - rewrite (Hstmt Examples.sys_openat_call eq_refl).
    destruct (Htab Examples.sys_openat_call) as (_ & _ & _ & Ht & _). rewrite Ht; [done|..].
    + apply no_helpers_not_benign.
    + by_compute.
    + exists "openat". split; [|by_compute]. split; [vm_compute; reflexivity|].
      eexists _, _, _. split; [reflexivity|].
      apply search_sys_selects. vm_compute; reflexivity.
  - rewrite (Hstmt MoreExamples.h_call eq_refl).
    destruct (Htab MoreExamples.h_call) as (_ & _ & _ & _ & Ht).
    destruct Ht as (Ht & _).
    + apply no_helpers_not_benign.
    + by_compute.
    + intros (foo & (Hn & _) & _). vm_compute in Hn. discriminate Hn.
    + rewrite Ht; [done|]. apply reaches_small_reaches, h_call_reaches.
      vm_compute; reflexivity.
  - by rewrite (Hstmt MoreExamples.h2_call eq_refl), Hh2.
  - rewrite (Hcnt Examples.two_hops_then_close).
    change (get_children Examples.two_hops_then_close)
      with [MoreExamples.h2_call; Examples.close_call 1412 14 39 1401].
    cbn [map sum_list sum_list_with]. rewrite Hh2, Hclose by (vm_compute; reflexivity).
    vm_compute; reflexivity.
  - rewrite (Hstmt0 MoreExamples.sync_call eq_refl).
    destruct (Htab0 MoreExamples.sync_call) as (_ & _ & _ & _ & Ht).
    destruct Ht as (_ & _ & _ & Ht).
    + apply no_helpers_not_benign.
    + by_compute.
    + intros (foo & (Hn & _) & _). vm_compute in Hn. discriminate Hn.
    + rewrite Ht; [done| |].
      * intros Hr. inversion Hr as [? ch Hcc|? ? ch Hcc]; subst;
          by apply sync_call_calls_nothing in Hcc.
      * intros k _ Hr. inversion Hr as [? ? ch _ _ Hcc|? ? ? ch _ _ Hcc]; subst;
          by apply sync_call_calls_nothing in Hcc.
Defined.

(** C3, as stated, fails for the hop rule. The call [big(fd)] reaches
    [close] within two bodies, the bound, and contributes 0: [big] has nine
    statements, and the search looks into functions of at most six. The
    call [f2(fd)] reaches [close] within three bodies of small functions,
    [f2], [h2] and [h], and contributes 0 under the bound 3: the search has
    seen [h2] below [h3], with one body left, and does not enter it again. *)
Lemma hop_rule_counterexample :
  (reaches MoreExamples.tu2 Examples.targets 2 MoreExamples.big_call
   ∧ analyze_stmt MoreExamples.tu2 MoreExamples.big_call Examples.targets
       Examples.no_helpers 2
     = mkPathResult {[0]} false)
  ∧ (reaches_small MoreExamples.tu2 Examples.targets 3 MoreExamples.f2_call
     ∧ analyze_stmt MoreExamples.tu2 MoreExamples.f2_call Examples.targets
         Examples.no_helpers 3
       = mkPathResult {[0]} false).
Proof.
  split; (split; [|vm_compute; reflexivity]).
  - apply (reaches_hop _ _ 1 MoreExamples.big_call MoreExamples.big_h_call).
    + exists MoreExamples.big_helper, MoreExamples.big_body.
      split; [vm_compute; reflexivity|]. split; [reflexivity|].
      split; [|reflexivity]. do 7 right. by left.
    + apply reaches_small_reaches, h_call_reaches. vm_compute; reflexivity.
  - apply (reaches_small_hop _ _ 2 MoreExamples.f2_call MoreExamples.f2_helper
             MoreExamples.f2_h2_call).
    + vm_compute; reflexivity.
    + exists MoreExamples.f2_body. split; [reflexivity | simpl; lia].
    + exists MoreExamples.f2_helper, MoreExamples.f2_body.
      split; [vm_compute; reflexivity|]. split; [reflexivity|].
      split; [|reflexivity]. right. by left.
    + apply h2_call_reaches. vm_compute; reflexivity.
Qed.
